(** * findex: filename index and ranked search

    A shallow embedding of the Go packages [util], [db], [search] and
    [indexer] of findex, and the properties of its specification that are
    settled against them.

    A float64 is the rational it stands for, and every operation on float64
    rounds its exact result to the nearest float64, as IEEE 754 has it.

    Go strings are byte sequences: [len] and slicing count bytes, while
    [range], [strings.ToLower], [strings.TrimSpace], [unicode.IsSpace] and the
    regexp engine work on the runes decoded from the UTF-8 bytes.  Both views
    are kept here: a [gostring] is a list of bytes and [segments] cuts it into
    runes the way [utf8.DecodeRuneInString] does. *)

From Stdlib Require Import ZArith QArith Qround Qabs Qpower Ascii String List Lia Lqa.
From stdpp Require Import base decidable list gmap strings sorting.

Open Scope Z_scope.

(** ** Bytes, runes and UTF-8 (Go's [unicode/utf8]) *)

Module utf8.

Definition gostring := list ascii.
Definition rune := Z.

Definition str (s : string) : gostring := list_ascii_of_string s.

Definition b2z (b : ascii) : Z := Z.of_N (N_of_ascii b).
Definition z2b (z : Z) : ascii := ascii_of_N (Z.to_N z).

Definition RuneError : rune := 65533.
Definition MaxRune : rune := 1114111.

(** [utf8.ValidRune] *)
Definition ValidRune (r : rune) : bool :=
  ((0 <=? r) && (r <? 55296)) || ((57343 <? r) && (r <=? MaxRune)).

(** The [first] table of [unicode/utf8]: for a leading byte, the length of
    the sequence and the range accepted for the second byte. *)
Definition first (b0 : Z) : option (nat * Z * Z) :=
  if (194 <=? b0) && (b0 <=? 223) then Some (2%nat, 128, 191)
  else if b0 =? 224 then Some (3%nat, 160, 191)
  else if (225 <=? b0) && (b0 <=? 236) then Some (3%nat, 128, 191)
  else if b0 =? 237 then Some (3%nat, 128, 159)
  else if (238 <=? b0) && (b0 <=? 239) then Some (3%nat, 128, 191)
  else if b0 =? 240 then Some (4%nat, 144, 191)
  else if (241 <=? b0) && (b0 <=? 243) then Some (4%nat, 128, 191)
  else if b0 =? 244 then Some (4%nat, 128, 143)
  else None.

Definition inrange (lo hi b : Z) : bool := (lo <=? b) && (b <=? hi).

Definition at_ (s : gostring) (i : nat) : Z := b2z (nth i s zero).

(** [utf8.DecodeRuneInString]: the rune at the head of [s] and its width in
    bytes; an invalid or truncated sequence yields [(RuneError, 1)]. *)
Definition DecodeRune (s : gostring) : rune * nat :=
  match s with
  | [] => (RuneError, 0%nat)
  | c0 :: _ =>
    let b0 := b2z c0 in
    if b0 <? 128 then (b0, 1%nat)
    else match first b0 with
    | None => (RuneError, 1%nat)
    | Some (sz, lo, hi) =>
      if (length s <? sz)%nat then (RuneError, 1%nat)
      else if negb (inrange lo hi (at_ s 1)) then (RuneError, 1%nat)
      else if (sz <=? 2)%nat then
        ((b0 mod 32) * 64 + (at_ s 1) mod 64, 2%nat)
      else if negb (inrange 128 191 (at_ s 2)) then (RuneError, 1%nat)
      else if (sz <=? 3)%nat then
        ((b0 mod 16) * 4096 + ((at_ s 1) mod 64) * 64 + (at_ s 2) mod 64, 3%nat)
      else if negb (inrange 128 191 (at_ s 3)) then (RuneError, 1%nat)
      else
        ((b0 mod 8) * 262144 + ((at_ s 1) mod 64) * 4096
           + ((at_ s 2) mod 64) * 64 + (at_ s 3) mod 64, 4%nat)
    end
  end.

(** [utf8.AppendRune], which [strings.Builder.WriteRune] calls. *)
Definition EncodeRune (r : rune) : gostring :=
  if (0 <=? r) && (r <? 128) then [z2b r]
  else if (0 <=? r) && (r <? 2048) then
    [z2b (192 + r / 64); z2b (128 + r mod 64)]
  else if negb (ValidRune r) then [z2b 239; z2b 191; z2b 189]
  else if r <? 65536 then
    [z2b (224 + r / 4096); z2b (128 + (r / 64) mod 64); z2b (128 + r mod 64)]
  else
    [z2b (240 + r / 262144); z2b (128 + (r / 4096) mod 64);
     z2b (128 + (r / 64) mod 64); z2b (128 + r mod 64)].

Definition encode (rs : list rune) : gostring := flat_map EncodeRune rs.

(** The runes of a string with the bytes each one was decoded from, in the
    order a [for i, r := range s] loop meets them. *)
Fixpoint segments_aux (fuel : nat) (s : gostring) : list (rune * gostring) :=
  match fuel with
  | O => []
  | S n =>
    match s with
    | [] => []
    | _ :: _ =>
      let '(r, w) := DecodeRune s in
      (r, take w s) :: segments_aux n (drop w s)
    end
  end.

Definition segments (s : gostring) : list (rune * gostring) :=
  segments_aux (length s) s.

Definition decode (s : gostring) : list rune := (segments s).*1.

End utf8.

(** ** Package [unicode] *)

Module unicode.
Import utf8.

(** [unicode.IsSpace]: the Latin-1 switch, then the White_Space table. *)
Definition IsSpace (r : rune) : bool :=
  if (0 <=? r) && (r <=? 255) then
    inrange 9 13 r || (r =? 32) || (r =? 133) || (r =? 160)
  else
    (r =? 5760) || inrange 8192 8202 r || (r =? 8232) || (r =? 8233)
    || (r =? 8239) || (r =? 8287) || (r =? 12288).

Section CaseTable.

(** [unicode.To(unicode.LowerCase, r)] for runes above [MaxASCII]: the case
    table of Go's library, taken as a parameter. *)
Variable lower_table : rune -> rune.

(** [unicode.ToLower] *)
Definition ToLower (r : rune) : rune :=
  if r <=? 127 then
    if (65 <=? r) && (r <=? 90) then r + 32 else r
  else lower_table r.

End CaseTable.

End unicode.

(** ** Package [strings] *)

Module gostrings.
Import utf8.

Definition space : ascii := " "%char.

Fixpoint drop_while {A} (p : A -> bool) (l : list A) : list A :=
  match l with
  | [] => []
  | x :: l' => if p x then drop_while p l' else l
  end.

(** [strings.TrimSpace]: the leading and the trailing runes that
    [unicode.IsSpace] accepts are cut off; the bytes in between are kept. *)
Definition TrimSpace (s : gostring) : gostring :=
  let sp (x : rune * gostring) := unicode.IsSpace x.1 in
  flat_map snd (rev (drop_while sp (rev (drop_while sp (segments s))))).

(** [strings.Split(s, " ")] *)
Fixpoint Split (s : gostring) : list gostring :=
  match s with
  | [] => [[]]
  | c :: t =>
    if Ascii.eqb c space then [] :: Split t
    else match Split t with
         | p :: ps => (c :: p) :: ps
         | [] => [[c]]
         end
  end.

(** [strings.HasPrefix] and [strings.Contains] compare bytes. *)
Fixpoint HasPrefix (s p : gostring) : bool :=
  match p, s with
  | [], _ => true
  | _ :: _, [] => false
  | c :: p', d :: s' => Ascii.eqb c d && HasPrefix s' p'
  end.

Fixpoint Contains (s sub : gostring) : bool :=
  HasPrefix s sub || match s with [] => false | _ :: s' => Contains s' sub end.

Section ToLower.

Variable lower_table : rune -> rune.

(** [strings.ToLower]: [strings.Map] over [unicode.ToLower]; a negative
    result is dropped, an invalid byte comes out as U+FFFD. *)
Definition ToLower (s : gostring) : gostring :=
  flat_map (fun r => let r' := unicode.ToLower lower_table r in
                     if r' <? 0 then [] else EncodeRune r')
           (decode s).

End ToLower.

End gostrings.

(** ** Packages [path/filepath] and [os] *)

Module filepath.
Import utf8.

(** [filepath.Ext]: the suffix of [name] from the last dot of its last
    element, empty when there is none. *)
Fixpoint Ext_aux (s : gostring) (acc : option gostring) : option gostring :=
  match s with
  | [] => acc
  | c :: t =>
    let acc' := if Ascii.eqb c "."%char then Some s
                else if Ascii.eqb c "/"%char then None
                else acc in
    Ext_aux t acc'
  end.

Definition Ext (name : gostring) : gostring :=
  default [] (Ext_aux name None).

Fixpoint split_on (sep : ascii) (s : gostring) : list gostring :=
  match s with
  | [] => [[]]
  | c :: t =>
    if Ascii.eqb c sep then [] :: split_on sep t
    else match split_on sep t with
         | p :: ps => (c :: p) :: ps
         | [] => [[c]]
         end
  end.

Fixpoint join_with (sep : gostring) (l : list gostring) : gostring :=
  match l with
  | [] => []
  | [x] => x
  | x :: l' => x ++ sep ++ join_with sep l'
  end.

(** [filepath.Clean] on a slash-separated path. *)
Definition Clean (path : gostring) : gostring :=
  if decide (path = []) then str "."
  else
    let rooted := gostrings.HasPrefix path (str "/") in
    let elems :=
      filter (fun e => e <> [] /\ e <> str ".") (split_on "/"%char path) in
    let out :=
      foldl (fun out e =>
               if decide (e = str "..") then
                 match last out with
                 | Some top =>
                   if decide (top = str "..") then out ++ [e] else removelast out
                 | None => if rooted then out else out ++ [e]
                 end
               else out ++ [e])
            [] elems in
    let body := join_with (str "/") out in
    if rooted then str "/" ++ body
    else if decide (body = []) then str "." else body.

(** [filepath.Join] of two elements. *)
Definition Join (a b : gostring) : gostring :=
  if decide (a = []) then (if decide (b = []) then [] else Clean b)
  else if decide (b = []) then Clean a
  else Clean (a ++ str "/" ++ b).

(** The name [os.Lstat(path).Name()] reports: trailing slashes are cut
    (but for the first byte), then everything up to the last slash that is
    not the last byte. *)
Fixpoint strip_slashes (r : gostring) : gostring :=
  match r with
  | c :: ((_ :: _) as r') => if Ascii.eqb c "/"%char then strip_slashes r' else r
  | _ => r
  end.

Fixpoint take_while {A} (p : A -> bool) (l : list A) : list A :=
  match l with
  | [] => []
  | x :: l' => if p x then x :: take_while p l' else []
  end.

Definition basename (path : gostring) : gostring :=
  match strip_slashes (rev path) with
  | [] => []
  | c :: r => rev (take_while (fun c => negb (Ascii.eqb c "/"%char)) r) ++ [c]
  end.

End filepath.

(** ** Package [sort], 64-bit integers and floating point *)

Module gosort.

(** [sort.SliceStable] as a stable insertion sort: for a comparison that is
    a strict weak order, every stable sort returns this list
    ([stable_sort_unique] below). *)
Fixpoint insert_stable {A} (less : A -> A -> bool) (x : A) (l : list A) : list A :=
  match l with
  | [] => [x]
  | y :: l' => if less y x then y :: insert_stable less x l' else x :: l
  end.

Fixpoint SliceStable {A} (less : A -> A -> bool) (l : list A) : list A :=
  match l with
  | [] => []
  | x :: l' => insert_stable less x (SliceStable less l')
  end.

End gosort.

Module int64.

(** A result of [int64] arithmetic: the two's-complement wrap-around. *)
Definition wrap64 (z : Z) : Z :=
  (z + 9223372036854775808) mod 18446744073709551616 - 9223372036854775808.

End int64.

(** ** The type [float64] *)

Module float64.

(** A finite float64 is [m * 2^s] for integers [|m| < 2^53] and
    [s >= -1074]; it is kept here as that rational.  Every operation of Go on
    float64 is the exact operation followed by [round], rounding to the
    nearest float64 and to the one with an even [m] of two that are as near.
    A multiplication and an addition are rounded one after the other, as on
    amd64; infinities and NaN, which no score of [Search] reaches, are left
    out. *)

(** The smallest exponent of a normal number, and the bits after the
    leading one. *)
Definition emin : Z := -1022.
Definition frac_bits : Z := 52.

(** [floor (log2 x)] for a positive [x]. *)
Definition ilog2 (x : Q) : Z :=
  let k := Z.log2 (Qnum x) - Z.log2 (Zpos (Qden x)) in
  if Qle_bool (2 ^ k) x then k else k - 1.

(** The integer nearest to [x], the even one of two that are as near. *)
Definition nearest_even (x : Q) : Z :=
  let f := Qfloor x in
  match (x - inject_Z f ?= 1 # 2)%Q with
  | Lt => f
  | Gt => f + 1
  | Eq => if Z.even f then f else f + 1
  end.

(** The exponent of the last place of the float64 values around [x]:
    52 below the exponent of [x], and -1074 for the subnormal numbers. *)
Definition ulp_exp (x : Q) : Z := Z.max (ilog2 (Qabs x)) emin - frac_bits.

Definition round (x : Q) : Q :=
  let x := Qred x in
  match Qnum x with
  | 0 => 0%Q
  | _ =>
    let s := ulp_exp x in
    Qred (inject_Z (nearest_even (x / 2 ^ s)) * 2 ^ s)
  end.

(** A constant of the source, the conversion [float64(z)] of an integer,
    and the operations [+], [*] and [/]. *)
Definition lit (x : Q) : Q := round x.
Definition of_int (z : Z) : Q := round (inject_Z z).
Definition add (a b : Q) : Q := round (a + b).
Definition mul (a b : Q) : Q := round (a * b).
Definition div (a b : Q) : Q := round (a / b).

End float64.

(** ** Package [util] *)

Module util.
Import utf8 gostrings.

(** The class [[\s_\-\.]] of the regexp [spacey]; [\s] is [[\t\n\f\r ]]. *)
Definition is_spacey (r : rune) : bool :=
  (r =? 9) || (r =? 10) || (r =? 12) || (r =? 13) || (r =? 32)
  || (r =? 95) || (r =? 45) || (r =? 46).

(** [spacey.ReplaceAllString(s, " ")]: every maximal run of [spacey] runes
    becomes one space, everything else is copied byte for byte. *)
Fixpoint replace_runs (in_run : bool) (segs : list (rune * gostring)) : gostring :=
  match segs with
  | [] => []
  | (r, bs) :: rest =>
    if is_spacey r then
      (if in_run then [] else [space]) ++ replace_runs true rest
    else bs ++ replace_runs false rest
  end.

Definition spacey_ReplaceAllString (s : gostring) : gostring :=
  replace_runs false (segments s).

(** One iteration of the loop of [Normalize] over the builder [b] and the
    flag [lastSpace]. *)
Definition collapse_step (st : gostring * bool) (r : rune) : gostring * bool :=
  let '(b, lastSpace) := st in
  if unicode.IsSpace r then
    if negb lastSpace then (b ++ EncodeRune 32, true) else (b, lastSpace)
  else (b ++ EncodeRune r, false).

Section Normalize.

Variable lower_table : rune -> rune.

Definition ExtLower (name : gostring) : gostring :=
  let ext := ToLower lower_table (filepath.Ext name) in
  match ext with
  | c :: ext' => if Ascii.eqb c "."%char then ext' else ext
  | [] => ext
  end.

Definition Normalize (s : gostring) : gostring :=
  let s := ToLower lower_table s in
  let s := spacey_ReplaceAllString s in
  let s := TrimSpace s in
  (foldl collapse_step ([], false) (decode s)).1.

End Normalize.

Definition stopwords : list gostring :=
  map str ["the"; "a"; "an"; "and"; "or"; "of"; "to"]%string.

Definition Tokenize (norm : gostring) : list gostring :=
  if decide (norm = []) then []
  else
    foldl (fun out p =>
             let p := TrimSpace p in
             if decide (p = []) then out
             else if decide (p ∈ stopwords) then out
             else out ++ [p])
          [] (Split norm).

(** [strings.ReplaceAll(s, " ", "")] *)
Definition strip_spaces (s : gostring) : gostring :=
  filter (fun c => c <> space) s.

Definition Trigrams (s : gostring) : gset gostring :=
  let s := strip_spaces s in
  if (length s <? 3)%nat then {[ s ]}
  else
    foldl (fun (m : gset gostring) i => m ∪ {[ take 3 (drop i s) ]})
          ∅ (seq 0 (length s - 2)).

Definition Jaccard (a b : gset gostring) : Q :=
  if (size a =? 0)%nat && (size b =? 0)%nat then 1%Q
  else if (size a =? 0)%nat || (size b =? 0)%nat then 0%Q
  else
    let '(a, b) := if (size b <? size a)%nat then (b, a) else (a, b) in
    let inter :=
      foldl (fun (inter : Z) k => if decide (k ∈ b) then inter + 1 else inter)
            0 (elements a) in
    let union := Z.of_nat (size a) + Z.of_nat (size b) - inter in
    if union =? 0 then 0%Q
    else (inject_Z inter / inject_Z union)%Q.

End util.

(** ** Package [db]: the table [files] *)

Module db.
Import utf8.

Record FileRow := {
  Path : gostring;
  Filename : gostring;
  FilenameNorm : gostring;
  Ext : gostring;
  Mtime : Z;
  Size : Z;
  IsDir : bool;
  SeenGen : Z
}.

Inductive error := ErrNoRoots | ErrStore.

(** What the SQLite connection can refuse to do; the statements themselves
    are modelled below by their effect on the rows. *)
Record Faults := {
  prepare_fails : bool;
  upsert_fails : gostring -> bool;
  sweep_fails : bool;
  query_fails : bool
}.

(** The table in rowid order, and the faults of the connection. *)
Record Conn := {
  files : list FileRow;
  faults : Faults
}.

Definition no_faults : Faults :=
  {| prepare_fails := false; upsert_fails := fun _ => false;
     sweep_fails := false; query_fails := false |}.

(** SQLite folds the case of ASCII letters only when [LIKE] compares. *)
Definition like_fold (r : rune) : rune :=
  if (65 <=? r) && (r <=? 90) then r + 32 else r.

(** [text LIKE pat] without [ESCAPE]: [%] (37) matches any run of
    characters, [_] (95) any one character. *)
Fixpoint like (pat : list rune) : list rune -> bool :=
  match pat with
  | [] => fun s => match s with [] => true | _ :: _ => false end
  | c :: pat' =>
    if c =? 37 then
      fix star (s : list rune) : bool :=
        like pat' s || match s with [] => false | _ :: s' => star s' end
    else
      fun s =>
        match s with
        | [] => false
        | x :: s' => ((c =? 95) || (like_fold c =? like_fold x)) && like pat' s'
        end
  end.

Definition LIKE (text pat : gostring) : bool := like (decode pat) (decode text).

End db.

(** ** Package [search] *)

Module search.
Import utf8 gostrings int64 float64.

Record QueryOptions := {
  Limit : Z;
  ExtFilter : gset gostring;
  Shortlist : Z
}.

Record Result := {
  Path : gostring;
  Filename : gostring;
  Ext : gostring;
  Mtime : Z;
  Size : Z;
  Score : Q
}.

Definition DefaultQueryOptions : QueryOptions :=
  {| Limit := 30; ExtFilter := ∅; Shortlist := 800 |}.

Definition tokenOverlapCount (a b : list gostring) : Z :=
  if (length a =? 0)%nat || (length b =? 0)%nat then 0
  else
    let set : gset gostring := foldl (fun set t => {[ t ]} ∪ set) ∅ b in
    foldl (fun c t => if decide (t ∈ set) then c + 1 else c) 0 a.

Definition max (a b : Z) : Z := if a >? b then a else b.

(** The argument bound to one [filename_norm LIKE ?]. *)
Definition like_arg (t : gostring) : gostring := str "%" ++ t ++ str "%".

(** The rows the shortlist statement returns: the [WHERE] clause built by
    [Search], [ORDER BY mtime DESC] and [LIMIT].  SQL leaves the order of
    rows of equal [mtime] open; rowid order is taken here.  [exts] are the
    values bound to [ext IN (?,...)]; [sort.Strings] only fixes the order in
    which they are bound. *)
Definition where_clause (args : list gostring) (exts : option (list gostring))
    (row : db.FileRow) : bool :=
  existsb (fun pat => db.LIKE (db.FilenameNorm row) pat) args
  && match exts with
     | Some es => bool_decide (db.Ext row ∈ es)
     | None => true
     end
  && negb (db.IsDir row).

Definition Query (d : db.Conn) (args : list gostring) (exts : option (list gostring))
    (limit : Z) : list db.FileRow + db.error :=
  if db.query_fails (db.faults d) then inr db.ErrStore
  else
    inl (take (Z.to_nat limit)
           (gosort.SliceStable (fun r1 r2 => db.Mtime r1 >? db.Mtime r2)
              (filter (fun row => where_clause args exts row = true) (db.files d)))).

(** [rows.Scan] into a [Result]; [Score] is still zero. *)
Definition scan (row : db.FileRow) : Result :=
  {| Path := db.Path row; Filename := db.Filename row; Ext := db.Ext row;
     Mtime := db.Mtime row; Size := db.Size row; Score := 0%Q |}.

(** [a > b] on scores. *)
Definition Qgtb (a b : Q) : bool := negb (Qle_bool a b).

(** The comparison handed to [sort.SliceStable]. *)
Definition less (ci cj : Result) : bool :=
  if negb (Mtime ci =? Mtime cj) then Mtime ci >? Mtime cj
  else Qgtb (Score ci) (Score cj).

Section Search.

(** The case table behind [unicode.ToLower] and [math.Log1p], from float64
    to float64, are Go's. *)
Variable lower_table : rune -> rune.
Variable Log1p : Q -> Q.

(** The body of the ranking loop for one candidate.  [util.Jaccard] is
    kept as the exact quotient of the two sizes; the float64 it returns is
    that quotient rounded, the sizes being far below 2^53. *)
Definition rank (qNorm : gostring) (qTokens : list gostring)
    (qTri : gset gostring) (now : Z) (c : Result) : Result :=
  let fnNorm := util.Normalize lower_table (Filename c) in
  let fnTokens := util.Tokenize fnNorm in
  let fnTri := util.Trigrams fnNorm in
  let score := lit 0.0 in
  let score := if Contains fnNorm qNorm then add score (lit 6.0) else score in
  let overlap := tokenOverlapCount qTokens fnTokens in
  let score := add score (mul (lit 2.2) (of_int overlap)) in
  let score := if HasPrefix fnNorm qNorm then add score (lit 2.5) else score in
  let j := round (util.Jaccard qTri fnTri) in
  let score := add score (mul (lit 4.0) j) in
  let ageDays := div (of_int (max 0 (wrap64 (now - Mtime c)))) (lit 86400.0) in
  let rec := div (lit 1.0) (add (lit 1.0) (Log1p ageDays)) in
  let score := add score (mul (lit 1.5) rec) in
  let score :=
    add score
        (mul (lit 0.15)
             (div (lit 1.0)
                  (add (lit 1.0)
                       (div (of_int (Z.of_nat (length fnNorm))) (lit 40.0))))) in
  {| Path := Path c; Filename := Filename c; Ext := Ext c;
     Mtime := Mtime c; Size := Size c; Score := score |}.

(** The shortlist: the statement [Search] builds, run on [d]. *)
Definition candidates (d : db.Conn) (qNorm : gostring) (qTokens : list gostring)
    (opts : QueryOptions) : list db.FileRow + db.error :=
  let shortlist := if Shortlist opts <=? 0 then 800 else Shortlist opts in
  let args := like_arg qNorm :: map like_arg qTokens in
  let exts :=
    if (0 <? size (ExtFilter opts))%nat
    then Some (elements (ExtFilter opts)) else None in
  Query d args exts shortlist.

Definition Search (d : db.Conn) (now : Z) (q : gostring) (opts : QueryOptions)
    : list Result * option db.error :=
  let qNorm := util.Normalize lower_table q in
  let qTokens := util.Tokenize qNorm in
  let limit := if Limit opts <=? 0 then 30 else Limit opts in
  if decide (qNorm = []) then ([], None)
  else
    match candidates d qNorm qTokens opts with
    | inr err => ([], Some err)
    | inl rows =>
      let cands := map scan rows in
      let qTri := util.Trigrams qNorm in
      let cands := map (rank qNorm qTokens qTri now) cands in
      let cands := gosort.SliceStable less cands in
      let cands :=
        if Z.of_nat (length cands) >? limit
        then take (Z.to_nat limit) cands else cands in
      (cands, None)
    end.

End Search.

End search.

(** ** Package [indexer] *)

Module indexer.
Import utf8 filepath.

Record Options := {
  Roots : list gostring;
  IncludeHidden : bool;
  FollowSymlinks : bool;
  IgnoreDirs : list gostring;
  OnlyExtensions : gset gostring;
  BatchSize : Z
}.

Definition DefaultIgnoreDirs : list gostring :=
  map str [".git"; "node_modules"; "Library"; "Caches"; ".Trash";
           ".Trash-1000"; ".DS_Store"]%string.

Definition New (opts : Options) : Options :=
  let batch := if BatchSize opts <=? 0 then 1000 else BatchSize opts in
  let ignore := if (length (IgnoreDirs opts) =? 0)%nat
                then DefaultIgnoreDirs else IgnoreDirs opts in
  {| Roots := Roots opts; IncludeHidden := IncludeHidden opts;
     FollowSymlinks := FollowSymlinks opts; IgnoreDirs := ignore;
     OnlyExtensions := OnlyExtensions opts; BatchSize := batch |}.

(** *** The file system as [os] and [filepath.WalkDir] show it *)

(** What [d.Info()] gives for an entry that is not a directory. *)
Record FileInfo := {
  ModTime : Z;
  FSize : Z;
  IsSymlink : bool
}.

(** An entry as [Lstat] types it.  [File None] is an entry whose [Info]
    fails; [Dir readErr entries] lists what [os.ReadDir] returned, sorted by
    name, and whether it also returned an error. *)
#[warnings="-register-all"]
Inductive Node :=
| File (info : option FileInfo)
| Dir (readErr : bool) (entries : list (gostring * Node)).

(** [home] is what [os.UserHomeDir] returns ([None] for an error); [stat p]
    is [None] when [os.Stat p] fails and otherwise the entry [WalkDir] finds
    at [p]. *)
Record World := {
  home : option gostring;
  stat : gostring -> option Node
}.

Definition expandHome (w : World) (p : gostring) : gostring :=
  if bool_decide (p = str "~") || gostrings.HasPrefix p (str "~/") then
    match home w with
    | Some h => if decide (p = str "~") then h else Join h (drop 2 p)
    | None => p
    end
  else p.

(** *** The transaction *)

(** The rows under the transaction, the counter [indexed], and (ghost) the
    paths of the upserts that went through. *)
Record State := {
  rows : list db.FileRow;
  indexed : Z;
  upserted : list gostring
}.

(** [INSERT ... ON CONFLICT(path) DO UPDATE SET ...] *)
Definition upsert (row : db.FileRow) (rs : list db.FileRow) : list db.FileRow :=
  if existsb (fun r => bool_decide (db.Path r = db.Path row)) rs
  then map (fun r => if decide (db.Path r = db.Path row) then row else r) rs
  else rs ++ [row].

(** [DELETE FROM files WHERE seen_gen <> ?] *)
Definition sweep (gen : Z) (rs : list db.FileRow) : list db.FileRow :=
  filter (fun r => db.SeenGen r = gen) rs.

(** What a [WalkDirFunc] returns here: [nil] or [fs.SkipDir]. *)
Inductive Action := Continue | SkipDir.

Section Run.

Variable lower_table : rune -> rune.
Variable w : World.
Variable ix : Options.
Variable flt : db.Faults.
Variable gen : Z.

Definition ignoreSet : gset gostring :=
  foldl (fun set d => {[ d ]} ∪ set) ∅ (IgnoreDirs ix).

(** The closure [walkFn] of [Run]; [name] is [d.Name()]. *)
Definition walkFn (st : State) (path name : gostring) (d : Node) (walkErr : bool)
    : State * Action :=
  if walkErr then (st, Continue)
  else
    match d with
    | Dir _ _ =>
      if decide (name ∈ ignoreSet) then (st, SkipDir)
      else if negb (IncludeHidden ix) && gostrings.HasPrefix name (str ".")
              && negb (bool_decide (path = str "."))
      then (st, SkipDir)
      else (st, Continue)
    | File info =>
      if negb (IncludeHidden ix) && gostrings.HasPrefix name (str ".")
      then (st, Continue)
      else
        let ext := util.ExtLower lower_table name in
        if (0 <? size (OnlyExtensions ix))%nat
           && negb (bool_decide (ext ∈ OnlyExtensions ix))
        then (st, Continue)
        else
          match info with
          | None => (st, Continue)
          | Some info =>
            if IsSymlink info && negb (FollowSymlinks ix) then (st, Continue)
            else
              let norm := util.Normalize lower_table name in
              let mtime := ModTime info in
              let size := FSize info in
              if db.upsert_fails flt path then (st, Continue)
              else
                let row :=
                  {| db.Path := path; db.Filename := name;
                     db.FilenameNorm := norm; db.Ext := ext;
                     db.Mtime := mtime; db.Size := size;
                     db.IsDir := false; db.SeenGen := gen |} in
                ({| rows := upsert row (rows st);
                    indexed := int64.wrap64 (indexed st + 1);
                    upserted := upserted st ++ [path] |}, Continue)
          end
    end.

(** [walkDir] of [path/filepath]. *)
Fixpoint walkDir (path name : gostring) (d : Node) (st : State) : State * Action :=
  let '(st1, act) := walkFn st path name d false in
  match d with
  | File _ => (st1, act)
  | Dir readErr entries =>
    match act with
    | SkipDir => (st1, Continue)
    | Continue =>
      let '(st2, act2) :=
        if readErr then walkFn st1 path name d true else (st1, Continue) in
      match act2 with
      | SkipDir => (st2, Continue)
      | Continue =>
        ((fix loop (es : list (gostring * Node)) (st : State) : State :=
            match es with
            | [] => st
            | (name1, d1) :: es' =>
              let '(st', act') := walkDir (Join path name1) name1 d1 st in
              match act' with
              | SkipDir => st'
              | Continue => loop es' st'
              end
            end) entries st2, Continue)
      end
    end
  end.

(** [filepath.WalkDir(root, walkFn)]; its error is dropped by [Run]. *)
Definition WalkDir (root : gostring) (d : Node) (st : State) : State :=
  (walkDir root (basename root) d st).1.

(** What [Run] returns ([count], [err]) and leaves behind: the rows under
    the transaction, the roots reported as skipped on standard error and
    (ghost) the paths upserted, in order. *)
Record Outcome := {
  count : Z;
  err : option db.error;
  tx_rows : list db.FileRow;
  stderr : list gostring;
  seen : list gostring
}.

(** The loop of [Run] over the roots. *)
Definition visit_root (acc : State * list gostring) (root : gostring)
    : State * list gostring :=
  let '(st, log) := acc in
  let root := expandHome w root in
  let root := Clean root in
  match stat w root with
  | None => (st, log ++ [root])
  | Some d => (WalkDir root d st, log)
  end.

Definition Run (tx : list db.FileRow) : Outcome :=
  if (length (Roots ix) =? 0)%nat then
    {| count := 0; err := Some db.ErrNoRoots; tx_rows := tx;
       stderr := []; seen := [] |}
  else if db.prepare_fails flt then
    {| count := 0; err := Some db.ErrStore; tx_rows := tx;
       stderr := []; seen := [] |}
  else
    let st0 := {| rows := tx; indexed := 0; upserted := [] |} in
    let '(st, log) := foldl visit_root (st0, []) (Roots ix) in
    if db.sweep_fails flt then
      {| count := indexed st; err := Some db.ErrStore; tx_rows := rows st;
         stderr := log; seen := upserted st |}
    else
      {| count := indexed st; err := None; tx_rows := sweep gen (rows st);
         stderr := log; seen := upserted st |}.

End Run.

End indexer.

(** ** Packages [strconv] and [time], and the filters of package [main] *)

Module main.
Import utf8 search int64.

(** [strconv.Atoi] on a 64-bit platform: an optional sign, then one or more
    decimal digits, of a value that fits [int]; anything else is an error. *)
Definition digit (c : ascii) : option Z :=
  let z := b2z c in
  if (48 <=? z) && (z <=? 57) then Some (z - 48) else None.

Fixpoint digits (acc : Z) (s : gostring) : option Z :=
  match s with
  | [] => Some acc
  | c :: s' =>
    match digit c with
    | Some d => digits (acc * 10 + d) s'
    | None => None
    end
  end.

Definition Atoi (s : gostring) : option Z :=
  let '(neg, body) :=
    match s with
    | c :: s' =>
      if Ascii.eqb c "-"%char then (true, s')
      else if Ascii.eqb c "+"%char then (false, s')
      else (false, s)
    | [] => (false, [])
    end in
  match body with
  | [] => None
  | _ :: _ =>
    match digits 0 body with
    | None => None
    | Some n =>
      let v := if neg then - n else n in
      if (- 9223372036854775808 <=? v) && (v <? 9223372036854775808)
      then Some v else None
    end
  end.

(** A [time.Time] by its Unix seconds and the nanoseconds within the
    second. *)
Record Time := {
  sec : Z;
  nsec : Z
}.

Definition Hour : Z := 3600000000000.

(** [t.Add(d).Unix()], away from the ends of the range of [Time], where
    [Add] saturates. *)
Definition Add_Unix (t : Time) (d : Z) : Z :=
  let dsec := Z.quot d 1000000000 in
  let ns := nsec t + Z.rem d 1000000000 in
  let dsec :=
    if ns >=? 1000000000 then dsec + 1
    else if ns <? 0 then dsec - 1
    else dsec in
  sec t + dsec.

Inductive since_error := InvalidFormat | InvalidUnit.

(** [parseSince]; [now] is what [time.Now()] returns. *)
Definition parseSince (now : Time) (s : gostring) : Z + since_error :=
  match last s with
  | None => inl 0
  | Some unit =>
    match Atoi (removelast s) with
    | None => inr InvalidFormat
    | Some value =>
      let dur :=
        if Ascii.eqb unit "h"%char then Some (wrap64 (value * Hour))
        else if Ascii.eqb unit "d"%char then
          Some (wrap64 (wrap64 (value * 24) * Hour))
        else if Ascii.eqb unit "w"%char then
          Some (wrap64 (wrap64 (wrap64 (value * 7) * 24) * Hour))
        else None in
      match dur with
      | None => inr InvalidUnit
      | Some dur => inl (Add_Unix now (wrap64 (- dur)))
      end
    end
  end.

(** [applySinceFilter]; an error of [parseSince] ends the process in
    [fatal], which is the [inr] here. *)
Definition applySinceFilter (now : Time) (res : list Result) (sinceFlag : gostring)
    : list Result + since_error :=
  match parseSince now sinceFlag with
  | inr e => inr e
  | inl cutoff =>
    if cutoff =? 0 then inl res
    else inl (filter (fun r => cutoff <= Mtime r) res)
  end.

Definition images : list gostring :=
  map str ["png"; "jpg"; "jpeg"; "heic"; "webp"; "gif"; "tiff"]%string.

(** [buildExtFilter]; the [nil] map is the empty set. *)
Definition buildExtFilter (pdf img : bool) : gset gostring :=
  if negb pdf && negb img then ∅
  else
    let m : gset gostring := ∅ in
    let m := if pdf then {[ str "pdf" ]} ∪ m else m in
    let m := if img then foldl (fun m e => {[ e ]} ∪ m) m images else m in
    m.

(** The options [runQuery] and [runPick] hand to [Search]: the defaults with
    the [--limit] flag and the filter of the [--pdf] and [--img] flags. *)
Definition queryOptions (limit : Z) (onlyPDF onlyIMG : bool) : QueryOptions :=
  {| Limit := limit;
     ExtFilter := buildExtFilter onlyPDF onlyIMG;
     Shortlist := Shortlist DefaultQueryOptions |}.

End main.

(** ** Inputs to run the model on *)

Module samples.
Import utf8 filepath search indexer.

(** A case table that leaves every rune above ASCII alone. *)
Definition ascii_only_table : rune -> rune := fun r => r.

(** The string of two two-byte runes, U+00E9 twice. *)
Definition two_e_acute : gostring := [z2b 195; z2b 169; z2b 195; z2b 169].

(** A rational stand-in for [math.Log1p]: [ln (1 + x) <= x]. *)
Definition log1p_upper : Q -> Q := fun x => x.

Definition file (path filename ext : string) (mtime : Z) : db.FileRow :=
  {| db.Path := str path; db.Filename := str filename;
     db.FilenameNorm := util.Normalize ascii_only_table (str filename);
     db.Ext := str ext; db.Mtime := mtime; db.Size := 1;
     db.IsDir := false; db.SeenGen := 1 |}.

Definition sample_files : list db.FileRow :=
  [ file "/d/report2023.pdf" "report2023.pdf" "pdf" 1000;
    file "/d/Report_Final.pdf" "Report_Final.pdf" "pdf" 5000;
    file "/d/notes.txt" "notes.txt" "txt" 5000;
    file "/d/report.txt" "report.txt" "txt" 5000;
    file "/d/tax report.pdf" "tax report.pdf" "pdf" 7000 ].

Definition sample : db.Conn := {| db.files := sample_files; db.faults := db.no_faults |}.

Definition unreachable : db.Conn :=
  {| db.files := sample_files;
     db.faults := {| db.prepare_fails := true; db.upsert_fails := fun _ => true;
                     db.sweep_fails := true; db.query_fails := true |} |}.

Definition only_pdf : QueryOptions :=
  {| Limit := 30; ExtFilter := {[ str "pdf" ]}; Shortlist := 800 |}.

Definition sample_shortlist : list db.FileRow :=
  match candidates sample (str "report") [str "report"] DefaultQueryOptions with
  | inl rows => rows
  | inr _ => []
  end.

Definition regular (mtime : Z) : Node :=
  File (Some {| ModTime := mtime; FSize := 1; IsSymlink := false |}).

Definition options (roots : list string) (hidden : bool) : Options :=
  New {| Roots := map str roots; IncludeHidden := hidden; FollowSymlinks := false;
         IgnoreDirs := []; OnlyExtensions := ∅; BatchSize := 0 |}.

(** One directory [/r], first with the file [old.txt], then empty. *)
Definition with_old : World :=
  {| home := Some (str "/home/u");
     stat := fun p => if decide (p = str "/r")
                      then Some (Dir false [(str "old.txt", regular 10)])
                      else None |}.

Definition emptied : World :=
  {| home := Some (str "/home/u");
     stat := fun p => if decide (p = str "/r") then Some (Dir false []) else None |}.

Definition first_pass : Outcome :=
  Run ascii_only_table with_old (options ["/r"]%string false) db.no_faults 7 [].

Definition same_gen_pass : Outcome :=
  Run ascii_only_table emptied (options ["/r"]%string false) db.no_faults 7
      (tx_rows first_pass).

Definition next_gen_pass : Outcome :=
  Run ascii_only_table emptied (options ["/r"]%string false) db.no_faults 8
      (tx_rows first_pass).

(** No root exists; or the one root exists and is empty. *)
Definition nothing_there : World :=
  {| home := None; stat := fun _ => None |}.

Definition empty_root : World :=
  {| home := None;
     stat := fun p => if decide (p = str "/missing") then Some (Dir false []) else None |}.

Definition no_root_pass : Outcome :=
  Run ascii_only_table nothing_there (options ["/missing"]%string false) db.no_faults 2
      sample_files.

Definition empty_root_pass : Outcome :=
  Run ascii_only_table empty_root (options ["/missing"]%string false) db.no_faults 2
      sample_files.

(** A hidden directory given as the root, with a visible file in it. *)
Definition dot_root : World :=
  {| home := Some (str "/home/u");
     stat := fun p => if decide (p = str "/home/u/.cfg")
                      then Some (Dir false [(str "a.txt", regular 10)])
                      else None |}.

(** The current directory as the root, with a hidden file, a hidden
    directory and a visible file. *)
Definition here : World :=
  {| home := None;
     stat := fun p =>
       if decide (p = str ".")
       then Some (Dir false [(str ".env", regular 5);
                             (str ".cache", Dir false [(str "x.txt", regular 6)]);
                             (str "a.txt", regular 7)])
       else None |}.

(** A connection that refuses the upsert of [/r/old.txt]. *)
Definition refuses_old : db.Faults :=
  {| db.prepare_fails := false;
     db.upsert_fails := fun p => bool_decide (p = str "/r/old.txt");
     db.sweep_fails := false; db.query_fails := false |}.

End samples.

(** * Properties *)

(** ** Trigram sets and their similarity *)

Module util_sets.
Import utf8 gostrings util samples.

Lemma elem_of_windows (t : gostring) (n : nat) (m : gset gostring) (x : gostring) :
  x ∈ foldl (fun (m : gset gostring) i => m ∪ {[ take 3 (drop i t) ]}) m (seq 0 n)
  <-> x ∈ m \/ exists i, (i < n)%nat /\ x = take 3 (drop i t).
Proof.
  revert m. induction n as [|n IH]; intros m.
  - simpl. split; [auto|]. intros [?|(i & ? & ?)]; [done|lia].
  - rewrite seq_S, foldl_app. simpl. rewrite elem_of_union, IH, elem_of_singleton.
    split.
    + intros [[?|(i & ? & ?)]| ->]; [by left|right..].
      * exists i. split; [lia|done].
      * exists n. split; [lia|done].
    + intros [?|(i & Hi & ->)]; [by left; left|].
      destruct (decide (i = n)) as [->|]; [by right|].
      left; right. exists i. split; [lia|done].
Qed.

Lemma elem_of_Trigrams (s x : gostring) :
  x ∈ Trigrams s <->
    ((length (strip_spaces s) < 3)%nat /\ x = strip_spaces s)
    \/ exists i, (i + 3 <= length (strip_spaces s))%nat
                 /\ x = take 3 (drop i (strip_spaces s)).
Proof.
  unfold Trigrams. destruct (Nat.ltb_spec (length (strip_spaces s)) 3) as [Hlt|Hge].
  - rewrite elem_of_singleton. split; [by left|].
    intros [[_ ?]|(i & ? & _)]; [done|lia].
  - rewrite elem_of_windows. split.
    + intros [Hx|(i & ? & ?)]; [by apply elem_of_empty in Hx|]. right. exists i. split; [lia|done].
    + intros [[? _]|(i & ? & ?)]; [lia|]. right. exists i. split; [lia|done].
Qed.

Lemma elem_of_strip_spaces (s : gostring) (c : ascii) :
  c ∈ strip_spaces s <-> c ∈ s /\ c <> space.
Proof. unfold strip_spaces. rewrite list_elem_of_filter. tauto. Qed.

Lemma strip_spaces_sublist (s : gostring) : sublist (strip_spaces s) s.
Proof. apply sublist_filter. Qed.

(** The loop of [Jaccard] counts the intersection. *)
Lemma inter_count (a b : gset gostring) (l : list gostring) (c : Z) :
  foldl (fun (inter : Z) k => if decide (k ∈ b) then inter + 1 else inter) c l
  = c + Z.of_nat (length (filter (fun k => k ∈ b) l)).
Proof.
  revert c. induction l as [|k l IH]; intros c; simpl; [lia|].
  rewrite IH. rewrite filter_cons. destruct (decide (k ∈ b)); simpl; lia.
Qed.

Lemma inter_count_elements (a b : gset gostring) :
  foldl (fun (inter : Z) k => if decide (k ∈ b) then inter + 1 else inter)
        0 (elements a)
  = Z.of_nat (size (a ∩ b)).
Proof.
  rewrite (inter_count a), Z.add_0_l. f_equal. unfold size, set_size. simpl.
  apply Permutation_length, NoDup_Permutation.
  - apply NoDup_filter, NoDup_elements.
  - apply NoDup_elements.
  - intros k. rewrite list_elem_of_filter, !elem_of_elements, elem_of_intersection.
    tauto.
Qed.

(** The value of [Jaccard] in terms of the two sets. *)
Lemma Jaccard_sets (a b : gset gostring) :
  Jaccard a b =
    if (size a =? 0)%nat && (size b =? 0)%nat then 1%Q
    else if (size a =? 0)%nat || (size b =? 0)%nat then 0%Q
    else
      let inter := Z.of_nat (size (a ∩ b)) in
      let union := Z.of_nat (size a) + Z.of_nat (size b) - inter in
      if union =? 0 then 0%Q else (inject_Z inter / inject_Z union)%Q.
Proof.
  unfold Jaccard.
  destruct ((size a =? 0)%nat && (size b =? 0)%nat); [done|].
  destruct ((size a =? 0)%nat || (size b =? 0)%nat); [done|].
  destruct (size b <? size a)%nat.
  - rewrite inter_count_elements.
    replace (b ∩ a) with (a ∩ b) by apply (comm_L (∩)).
    replace (Z.of_nat (size b) + Z.of_nat (size a)) with
      (Z.of_nat (size a) + Z.of_nat (size b)) by lia.
    done.
  - by rewrite inter_count_elements.
Qed.

Example Jaccard_both_empty : Jaccard ∅ ∅ = 1%Q.
Proof. reflexivity. Qed.

Example Jaccard_one_empty : Jaccard {[ str "abc" ]} ∅ = 0%Q.
Proof. vm_compute. reflexivity. Qed.

Example Tokenize_drops_stopwords :
  Tokenize (str "the budget report") = [str "budget"; str "report"].
Proof. vm_compute. reflexivity. Qed.

Example Normalize_report :
  Normalize ascii_only_table (str "Final_Report-v2.PDF") = str "final report v2 pdf".
Proof. vm_compute. reflexivity. Qed.

(** C10. [Jaccard] is symmetric: [Jaccard a b = Jaccard b a] for all finite
    sets of strings [a] and [b], whether or not one of them is empty. *)
Theorem Jaccard_symmetric (a b : gset gostring) : Jaccard a b = Jaccard b a.
Proof.
  rewrite !Jaccard_sets.
  rewrite (andb_comm (size b =? 0)%nat), (orb_comm (size b =? 0)%nat).
  replace (b ∩ a) with (a ∩ b) by apply (comm_L (∩)).
  replace (Z.of_nat (size b) + Z.of_nat (size a)) with
    (Z.of_nat (size a) + Z.of_nat (size b)) by lia.
  done.
Qed.

(** C6, as stated, fails when a character is a rune: a space-free string of
    two characters, four bytes long, gets the two three-byte windows and not
    the one-element set of the whole string. *)
Lemma Trigrams_two_runes_not_singleton :
  decode two_e_acute = [233; 233]
  /\ strip_spaces two_e_acute = two_e_acute
  /\ (length (decode (strip_spaces two_e_acute)) < 3)%nat
  /\ Trigrams two_e_acute <> {[ two_e_acute ]}
  /\ [z2b 195; z2b 169; z2b 195] ∈ Trigrams two_e_acute.
Proof.
  assert (Hin : [z2b 195; z2b 169; z2b 195] ∈ Trigrams two_e_acute).
  { apply elem_of_Trigrams. right. exists 0%nat. split; [vm_compute; lia|done]. }
  split_and!; [done|done|vm_compute; lia| |done].
  intros Heq. rewrite Heq in Hin. apply elem_of_singleton in Hin. discriminate.
Qed.

(** C6 (amended). [Trigrams s] strips all space bytes; when fewer than
    three bytes are left it is the one-element set of what is left (the
    empty string included), and otherwise it is exactly the set of the
    contiguous three-byte windows of what is left, a window that occurs
    several times being one element. *)
Theorem Trigrams_byte_windows (s x : gostring) :
  (forall c, c ∈ strip_spaces s <-> c ∈ s /\ c <> space)
  /\ sublist (strip_spaces s) s
  /\ (x ∈ Trigrams s <->
        ((length (strip_spaces s) < 3)%nat /\ x = strip_spaces s)
        \/ exists i, (i + 3 <= length (strip_spaces s))%nat
                     /\ x = take 3 (drop i (strip_spaces s))).
Proof.
  split_and!.
  - intros c. apply elem_of_strip_spaces.
  - apply strip_spaces_sublist.
  - apply elem_of_Trigrams.
Qed.

End util_sets.

(** ** UTF-8: decoding what was encoded *)

Module utf8_facts.
Import utf8.

Ltac zbool :=
  repeat (match goal with
  | |- context [(?a <? ?b)] => destruct (Z.ltb_spec a b)
  | |- context [(?a <=? ?b)] => destruct (Z.leb_spec a b)
  | |- context [(?a =? ?b)] => destruct (Z.eqb_spec a b)
  end; cbn [andb orb negb]; try (exfalso; lia)); try done.

Lemma b2z_range (b : ascii) : 0 <= b2z b < 256.
Proof. unfold b2z. pose proof (N_ascii_bounded b). lia. Qed.

Lemma b2z_z2b (z : Z) : 0 <= z < 256 -> b2z (z2b z) = z.
Proof.
  intros Hz. unfold b2z, z2b. rewrite N_ascii_embedding by lia. lia.
Qed.

Lemma z2b_b2z (b : ascii) : z2b (b2z b) = b.
Proof. unfold b2z, z2b. rewrite N2Z.id. apply ascii_N_embedding. Qed.

Lemma Decode1 (a : Z) (s : gostring) :
  0 <= a < 128 -> DecodeRune (z2b a :: s) = (a, 1%nat).
Proof.
  intros Ha. unfold DecodeRune. rewrite b2z_z2b by lia.
  destruct (Z.ltb_spec a 128); [done|lia].
Qed.

Lemma first_cases (a : Z) (sz : nat) (lo hi : Z) :
  first a = Some (sz, lo, hi) ->
    (194 <= a <= 223 /\ sz = 2%nat /\ lo = 128 /\ hi = 191)
    \/ (a = 224 /\ sz = 3%nat /\ lo = 160 /\ hi = 191)
    \/ ((225 <= a <= 236 \/ 238 <= a <= 239) /\ sz = 3%nat /\ lo = 128 /\ hi = 191)
    \/ (a = 237 /\ sz = 3%nat /\ lo = 128 /\ hi = 159)
    \/ (a = 240 /\ sz = 4%nat /\ lo = 144 /\ hi = 191)
    \/ (241 <= a <= 243 /\ sz = 4%nat /\ lo = 128 /\ hi = 191)
    \/ (a = 244 /\ sz = 4%nat /\ lo = 128 /\ hi = 143).
Proof.
  unfold first. zbool; intros [= <- <- <-]; lia.
Qed.

Lemma first_two (a : Z) : 194 <= a <= 223 -> first a = Some (2%nat, 128, 191).
Proof. intros. unfold first. zbool. Qed.

Lemma first_three (a : Z) :
  224 <= a <= 239 ->
  first a = Some (3%nat, if a =? 224 then 160 else 128, if a =? 237 then 159 else 191).
Proof. intros. unfold first. zbool. Qed.

Lemma first_four (a : Z) :
  240 <= a <= 244 ->
  first a = Some (4%nat, if a =? 240 then 144 else 128, if a =? 244 then 143 else 191).
Proof. intros. unfold first. zbool. Qed.

Lemma ValidRune_spec (r : rune) :
  ValidRune r = true <-> 0 <= r < 55296 \/ 57343 < r <= 1114111.
Proof.
  unfold ValidRune, MaxRune.
  rewrite orb_true_iff, !andb_true_iff, !Z.leb_le, !Z.ltb_lt. tauto.
Qed.

Lemma Decode2 (a b : Z) (s : gostring) :
  194 <= a <= 223 -> 128 <= b <= 191 ->
  DecodeRune (z2b a :: z2b b :: s) = (a mod 32 * 64 + b mod 64, 2%nat).
Proof.
  intros Ha Hb. unfold DecodeRune, inrange, at_.
  cbn [length nth]. rewrite !b2z_z2b by lia. rewrite first_two by lia.
  cbn [Nat.ltb Nat.leb]. zbool.
Qed.

Lemma Decode3 (a b c : Z) (s : gostring) :
  224 <= a <= 239 ->
  (if a =? 224 then 160 else 128) <= b <= (if a =? 237 then 159 else 191) ->
  128 <= c <= 191 ->
  DecodeRune (z2b a :: z2b b :: z2b c :: s)
  = (a mod 16 * 4096 + b mod 64 * 64 + c mod 64, 3%nat).
Proof.
  intros Ha Hb Hc. unfold DecodeRune, inrange, at_.
  cbn [length nth].
  assert (128 <= b <= 191) by (revert Hb; zbool; lia).
  rewrite !b2z_z2b by lia. rewrite first_three by lia.
  cbn [Nat.ltb Nat.leb]. revert Hb. zbool; lia.
Qed.

Lemma Decode4 (a b c d : Z) (s : gostring) :
  240 <= a <= 244 ->
  (if a =? 240 then 144 else 128) <= b <= (if a =? 244 then 143 else 191) ->
  128 <= c <= 191 -> 128 <= d <= 191 ->
  DecodeRune (z2b a :: z2b b :: z2b c :: z2b d :: s)
  = (a mod 8 * 262144 + b mod 64 * 4096 + c mod 64 * 64 + d mod 64, 4%nat).
Proof.
  intros Ha Hb Hc Hd. unfold DecodeRune, inrange, at_.
  cbn [length nth].
  assert (128 <= b <= 191) by (revert Hb; zbool; lia).
  rewrite !b2z_z2b by lia. rewrite first_four by lia.
  cbn [Nat.ltb Nat.leb]. revert Hb. zbool; lia.
Qed.

(** Decoding reads back the rune that was written. *)
Lemma Decode_Encode (r : rune) (s : gostring) :
  ValidRune r = true ->
  DecodeRune (EncodeRune r ++ s) = (r, length (EncodeRune r)).
Proof.
  intros Hv. pose proof (proj1 (ValidRune_spec r) Hv) as Hr.
  unfold EncodeRune. rewrite Hv. cbn [negb].
  destruct (Z.leb_spec 0 r); [|lia]. cbn [andb].
  destruct (Z.ltb_spec r 128).
  { cbn [app length]. rewrite Decode1 by lia. done. }
  destruct (Z.ltb_spec r 2048).
  { cbn [app length]. rewrite Decode2 by (Z.div_mod_to_equations; lia).
    f_equal. Z.div_mod_to_equations; lia. }
  destruct (Z.ltb_spec r 65536).
  { cbn [app length]. rewrite Decode3.
    - f_equal. Z.div_mod_to_equations; lia.
    - Z.div_mod_to_equations; lia.
    - zbool; Z.div_mod_to_equations; lia.
    - Z.div_mod_to_equations; lia. }
  cbn [app length]. rewrite Decode4.
  - f_equal. Z.div_mod_to_equations; lia.
  - Z.div_mod_to_equations; lia.
  - zbool; Z.div_mod_to_equations; lia.
  - Z.div_mod_to_equations; lia.
  - Z.div_mod_to_equations; lia.
Qed.

Lemma DecodeRune_width (s : gostring) :
  s <> [] -> (1 <= (DecodeRune s).2)%nat.
Proof.
  intros Hs. unfold DecodeRune. destruct s as [|c0 s]; [done|].
  repeat case_match; cbn [snd]; lia.
Qed.

Lemma DecodeRune_valid (s : gostring) : ValidRune (DecodeRune s).1 = true.
Proof.
  unfold DecodeRune. destruct s as [|c0 s]; [done|].
  pose proof (b2z_range c0) as H0.
  destruct (Z.ltb_spec (b2z c0) 128).
  { apply ValidRune_spec. cbn [fst]. lia. }
  destruct (first (b2z c0)) as [[[sz lo] hi]|] eqn:Hf; [|done].
  apply first_cases in Hf.
  pose proof (b2z_range (nth 1 (c0 :: s) zero)) as H1.
  pose proof (b2z_range (nth 2 (c0 :: s) zero)) as H2.
  pose proof (b2z_range (nth 3 (c0 :: s) zero)) as H3.
  unfold inrange, at_.
  repeat case_match; try done; cbn [fst]; apply ValidRune_spec;
    repeat match goal with
    | H : negb _ = false |- _ => apply negb_false_iff in H
    | H : andb _ _ = true |- _ => apply andb_true_iff in H; destruct H
    | H : (_ <=? _) = true |- _ => apply Z.leb_le in H
    | H : (_ <=? _)%nat = true |- _ => apply Nat.leb_le in H
    | H : (_ <=? _)%nat = false |- _ => apply Nat.leb_gt in H
    | H : (_ <? _)%nat = false |- _ => clear H
    end;
    Z.div_mod_to_equations; lia.
Qed.

Lemma segments_aux_fuel (n m : nat) (s : gostring) :
  (length s <= n)%nat -> (length s <= m)%nat ->
  segments_aux n s = segments_aux m s.
Proof.
  revert m s. induction n as [|n IH]; intros m s Hn Hm.
  - destruct s; [|simpl in Hn; lia]. by destruct m.
  - destruct s as [|c s]; [by destruct m|].
    destruct m as [|m]; [simpl in Hm; lia|].
    cbn [segments_aux].
    pose proof (DecodeRune_width (c :: s) ltac:(done)) as Hw.
    destruct (DecodeRune (c :: s)) as [r w]. cbn [snd] in Hw.
    f_equal. apply IH; rewrite length_drop; simpl in *; lia.
Qed.

Lemma segments_nil : segments [] = [].
Proof. done. Qed.

Lemma segments_cons (c : ascii) (s : gostring) :
  segments (c :: s) =
    ((DecodeRune (c :: s)).1, take (DecodeRune (c :: s)).2 (c :: s))
      :: segments (drop (DecodeRune (c :: s)).2 (c :: s)).
Proof.
  unfold segments at 1. cbn [length segments_aux].
  pose proof (DecodeRune_width (c :: s) ltac:(done)) as Hw.
  destruct (DecodeRune (c :: s)) as [r w]. cbn [fst snd] in *.
  f_equal. apply segments_aux_fuel; rewrite ?length_drop; simpl; lia.
Qed.

Lemma EncodeRune_length (r : rune) : (1 <= length (EncodeRune r) <= 4)%nat.
Proof. unfold EncodeRune. repeat case_match; simpl; lia. Qed.

Lemma segments_Encode (r : rune) (s : gostring) :
  ValidRune r = true ->
  segments (EncodeRune r ++ s) = (r, EncodeRune r) :: segments s.
Proof.
  intros Hv. pose proof (EncodeRune_length r) as Hl.
  pose proof (Decode_Encode r s Hv) as Hd.
  destruct (EncodeRune r ++ s) as [|c t] eqn:He.
  { apply (f_equal length) in He. rewrite length_app in He. simpl in He. lia. }
  rewrite segments_cons, Hd. cbn [fst snd]. rewrite <- He.
  by rewrite take_app_length, drop_app_length.
Qed.

Lemma segments_encode (rs : list rune) :
  Forall (fun r => ValidRune r = true) rs ->
  segments (encode rs) = map (fun r => (r, EncodeRune r)) rs.
Proof.
  induction 1 as [|r rs Hr _ IH]; [done|].
  unfold encode in *. cbn [flat_map map]. by rewrite segments_Encode, IH.
Qed.

Lemma decode_encode (rs : list rune) :
  Forall (fun r => ValidRune r = true) rs -> decode (encode rs) = rs.
Proof.
  intros H. unfold decode. rewrite segments_encode by done.
  rewrite <- list_fmap_compose. apply list_fmap_id.
Qed.

Lemma segments_valid (s : gostring) :
  Forall (fun x => ValidRune x.1 = true) (segments s).
Proof.
  remember (length s) as n eqn:Hn. revert s Hn.
  induction n as [n IH] using lt_wf_ind. intros s ->.
  destruct s as [|c s]; [constructor|].
  rewrite segments_cons. constructor; [apply DecodeRune_valid|].
  pose proof (DecodeRune_width (c :: s) ltac:(done)).
  eapply IH; [|done]. rewrite length_drop. cbn [length]. lia.
Qed.

Lemma decode_valid (s : gostring) :
  Forall (fun r => ValidRune r = true) (decode s).
Proof.
  unfold decode. apply Forall_fmap. apply segments_valid.
Qed.

(** A string of ASCII bytes is cut into one rune per byte. *)
Definition is_ascii (c : ascii) : Prop := b2z c < 128.

Lemma segments_ascii (s : gostring) :
  Forall is_ascii s -> segments s = map (fun c => (b2z c, [c])) s.
Proof.
  induction 1 as [|c s Hc _ IH]; [done|].
  rewrite segments_cons. unfold DecodeRune. unfold is_ascii in Hc.
  destruct (Z.ltb_spec (b2z c) 128); [|lia]. cbn [fst snd map].
  change (take 1 (c :: s)) with [c]. change (drop 1 (c :: s)) with s.
  by rewrite IH.
Qed.

Lemma decode_ascii (s : gostring) : Forall is_ascii s -> decode s = map b2z s.
Proof.
  intros H. unfold decode. rewrite segments_ascii by done.
  by rewrite <- list_fmap_compose.
Qed.

Lemma EncodeRune_ascii (c : ascii) : is_ascii c -> EncodeRune (b2z c) = [c].
Proof.
  intros Hc. unfold EncodeRune, is_ascii in *. pose proof (b2z_range c).
  destruct (Z.leb_spec 0 (b2z c)); [|lia].
  destruct (Z.ltb_spec (b2z c) 128); [|lia]. cbn [andb]. by rewrite z2b_b2z.
Qed.

End utf8_facts.

(** ** [Normalize] on runes *)

Module normalize_facts.
Import utf8 gostrings util utf8_facts samples.

(** The three passes of [Normalize] after lower-casing, on decoded runes. *)
Fixpoint replace_r (in_run : bool) (rs : list rune) : list rune :=
  match rs with
  | [] => []
  | r :: rest =>
    if is_spacey r then
      (if in_run then [] else [32]) ++ replace_r true rest
    else r :: replace_r false rest
  end.

Definition trim_r (rs : list rune) : list rune :=
  rev (drop_while unicode.IsSpace (rev (drop_while unicode.IsSpace rs))).

Fixpoint collapse_r (lastSpace : bool) (rs : list rune) : list rune :=
  match rs with
  | [] => []
  | r :: rest =>
    if unicode.IsSpace r then
      if negb lastSpace then 32 :: collapse_r true rest
      else collapse_r lastSpace rest
    else r :: collapse_r false rest
  end.

Definition valid (r : rune) : Prop := ValidRune r = true.

Definition tag (r : rune) : rune * gostring := (r, EncodeRune r).

Lemma flat_map_snd_tag (rs : list rune) : flat_map snd (map tag rs) = encode rs.
Proof. unfold encode. induction rs as [|r rs IH]; simpl; by rewrite ?IH. Qed.

Lemma drop_while_tag (rs : list rune) :
  drop_while (fun x : rune * gostring => unicode.IsSpace x.1) (map tag rs)
  = map tag (drop_while unicode.IsSpace rs).
Proof.
  induction rs as [|r rs IH]; [done|]. cbn [map drop_while tag fst].
  destruct (unicode.IsSpace r); [apply IH|done].
Qed.

Lemma drop_while_suffix {A} (p : A -> bool) (l : list A) :
  exists pre, l = pre ++ drop_while p l.
Proof.
  induction l as [|x l [pre IH]]; [by exists []|]. simpl.
  destruct (p x); [|by exists []]. exists (x :: pre). simpl. by f_equal.
Qed.

Lemma drop_while_head {A} (p : A -> bool) (l m : list A) (x : A) :
  drop_while p l = x :: m -> p x = false.
Proof.
  induction l as [|y l IH]; [done|]. simpl.
  destruct (p y) eqn:Hy; [done|]. by intros [= -> _].
Qed.

Lemma Forall_drop_while {A} (P : A -> Prop) (p : A -> bool) (l : list A) :
  Forall P l -> Forall P (drop_while p l).
Proof.
  intros H. destruct (drop_while_suffix p l) as [pre Hp].
  rewrite Hp in H. by apply Forall_app in H as [_ ?].
Qed.

Lemma Forall_trim_r (P : rune -> Prop) (rs : list rune) :
  Forall P rs -> Forall P (trim_r rs).
Proof.
  intros H. unfold trim_r.
  by apply Forall_rev, Forall_drop_while, Forall_rev, Forall_drop_while.
Qed.

Lemma replace_runs_tag (b : bool) (rs : list rune) :
  replace_runs b (map tag rs) = encode (replace_r b rs).
Proof.
  unfold encode. revert b. induction rs as [|r rs IH]; intros b; [done|].
  cbn [map replace_runs replace_r tag]. destruct (is_spacey r).
  - rewrite IH. by destruct b.
  - rewrite IH. done.
Qed.

Lemma spacey_Replace_encode (rs : list rune) :
  Forall valid rs ->
  spacey_ReplaceAllString (encode rs) = encode (replace_r false rs).
Proof.
  intros H. unfold spacey_ReplaceAllString.
  rewrite segments_encode by done. apply replace_runs_tag.
Qed.

Lemma TrimSpace_encode (rs : list rune) :
  Forall valid rs -> TrimSpace (encode rs) = encode (trim_r rs).
Proof.
  intros H. unfold TrimSpace, trim_r. rewrite segments_encode by done.
  change (map (fun r => (r, EncodeRune r)) rs) with (map tag rs).
  rewrite drop_while_tag, <- map_rev, drop_while_tag, <- map_rev.
  apply flat_map_snd_tag.
Qed.

Lemma collapse_foldl (rs : list rune) (b : gostring) (ls : bool) :
  (foldl collapse_step (b, ls) rs).1 = b ++ encode (collapse_r ls rs).
Proof.
  unfold encode. revert b ls. induction rs as [|r rs IH]; intros b ls.
  - simpl. by rewrite app_nil_r.
  - cbn [foldl collapse_step collapse_r]. destruct (unicode.IsSpace r).
    + destruct ls; cbn [negb]; rewrite IH; [done|].
      cbn [flat_map]. by rewrite <- app_assoc.
    + rewrite IH. cbn [flat_map]. by rewrite <- app_assoc.
Qed.

Lemma Forall_replace_r (P : rune -> Prop) (b : bool) (rs : list rune) :
  P 32 -> Forall P rs -> Forall P (replace_r b rs).
Proof.
  intros H32 H. revert b. induction H as [|r rs Hr _ IH]; intros b; [constructor|].
  cbn [replace_r]. destruct (is_spacey r).
  - destruct b; simpl; [apply IH|constructor; [done|apply IH]].
  - constructor; [done|apply IH].
Qed.

Lemma Forall_collapse_r (P : rune -> Prop) (b : bool) (rs : list rune) :
  P 32 -> Forall P rs -> Forall P (collapse_r b rs).
Proof.
  intros H32 H. revert b. induction H as [|r rs Hr _ IH]; intros b; [constructor|].
  cbn [collapse_r]. destruct (unicode.IsSpace r).
  - destruct b; simpl; [apply IH|constructor; [done|apply IH]].
  - constructor; [done|apply IH].
Qed.

(** A list ends well when it is empty or its last rune is no space. *)
Fixpoint ends_ok (l : list rune) : Prop :=
  match l with
  | [] => True
  | x :: l' =>
    match l' with
    | [] => unicode.IsSpace x = false
    | _ :: _ => ends_ok l'
    end
  end.

Lemma ends_ok_snoc (m : list rune) (y : rune) :
  unicode.IsSpace y = false -> ends_ok (m ++ [y]).
Proof.
  intros Hy. induction m as [|x m IH]; [done|].
  cbn [app ends_ok]. destruct (m ++ [y]) eqn:He; [|done].
  by destruct m.
Qed.

Lemma trim_r_shape (rs : list rune) :
  trim_r rs = [] \/
  exists x l, trim_r rs = x :: l /\ unicode.IsSpace x = false /\ ends_ok (x :: l).
Proof.
  unfold trim_r.
  set (A := drop_while unicode.IsSpace rs).
  destruct (drop_while unicode.IsSpace (rev A)) as [|y m] eqn:HB; [by left|].
  right. pose proof (drop_while_head _ _ _ _ HB) as Hy.
  destruct (drop_while_suffix unicode.IsSpace (rev A)) as [pre Hpre].
  rewrite HB in Hpre. apply (f_equal (@rev _)) in Hpre.
  rewrite rev_involutive, rev_app_distr in Hpre.
  destruct (rev (y :: m)) as [|x l] eqn:Hr.
  { apply (f_equal length) in Hr. rewrite length_rev in Hr. done. }
  exists x, l. split_and!; [done| |].
  - simpl in Hpre. eapply (drop_while_head unicode.IsSpace rs). exact Hpre.
  - rewrite <- Hr. simpl. by apply ends_ok_snoc.
Qed.

(** *** Queries of whitespace and separators *)

(** An ASCII byte that is a separator of [spacey] or white space. *)
Definition blank (c : ascii) : Prop :=
  is_ascii c /\ (is_spacey (b2z c) = true \/ unicode.IsSpace (b2z c) = true).

Definition space_byte (c : ascii) : Prop :=
  is_ascii c /\ unicode.IsSpace (b2z c) = true.

Lemma blank_not_upper (lower_table : rune -> rune) (c : ascii) :
  blank c -> unicode.ToLower lower_table (b2z c) = b2z c.
Proof.
  intros [Ha Hb]. unfold is_ascii in Ha. unfold unicode.ToLower.
  destruct (Z.leb_spec (b2z c) 127); [|lia].
  destruct (Z.leb_spec 65 (b2z c)), (Z.leb_spec (b2z c) 90); cbn [andb]; try done.
  exfalso. revert Hb. unfold is_spacey, unicode.IsSpace, inrange.
  zbool; intros [?|?]; discriminate.
Qed.

Lemma ToLower_blank (lower_table : rune -> rune) (q : gostring) :
  Forall blank q -> ToLower lower_table q = q.
Proof.
  intros H. unfold ToLower.
  rewrite decode_ascii by (eapply Forall_impl; [exact H|by intros c [? _]]).
  induction H as [|c q Hc _ IH]; [done|]. cbn [map flat_map]. rewrite IH.
  rewrite blank_not_upper by done. pose proof (b2z_range c).
  destruct (Z.ltb_spec (b2z c) 0); [lia|].
  destruct Hc as [Hc _]. by rewrite EncodeRune_ascii.
Qed.

Lemma replace_runs_blank (b : bool) (q : gostring) :
  Forall blank q ->
  Forall space_byte (replace_runs b (map (fun c => (b2z c, [c])) q)).
Proof.
  intros H. revert b. induction H as [|c q [Ha Hc] _ IH]; intros b; [constructor|].
  cbn [map replace_runs]. destruct (is_spacey (b2z c)) eqn:Hs.
  - destruct b; cbn [app]; [apply IH|]. constructor; [by split|apply IH].
  - destruct Hc as [?|Hc]; [done|]. cbn [app]. constructor; [by split|apply IH].
Qed.

Lemma TrimSpace_spaces (s : gostring) : Forall space_byte s -> TrimSpace s = [].
Proof.
  intros H. unfold TrimSpace.
  rewrite segments_ascii by (eapply Forall_impl; [exact H|by intros c [? _]]).
  assert (drop_while (fun x : rune * gostring => unicode.IsSpace x.1)
            (map (fun c => (b2z c, [c])) s) = []) as ->; [|done].
  induction H as [|c s [_ Hc] _ IH]; [done|]. cbn [map drop_while fst].
  by rewrite Hc.
Qed.

(** A query of blank bytes only, the empty query included, has an empty
    normalization. *)
Lemma Normalize_blank (lower_table : rune -> rune) (q : gostring) :
  Forall blank q -> Normalize lower_table q = [].
Proof.
  intros H. unfold Normalize. rewrite ToLower_blank by done.
  unfold spacey_ReplaceAllString.
  rewrite segments_ascii by (eapply Forall_impl; [exact H|by intros c [? _]]).
  by rewrite TrimSpace_spaces by by apply replace_runs_blank.
Qed.

Section Lower.

Variable lower_table : rune -> rune.

Definition lower : rune -> rune := unicode.ToLower lower_table.

(** What is asked of Go's case table: lower-casing a rune above ASCII gives
    a valid rune, which lower-casing leaves alone. *)
Hypothesis lower_valid :
  forall r, 127 < r -> valid r -> valid (lower_table r).
Hypothesis lower_idem :
  forall r, 127 < r -> valid r -> lower (lower_table r) = lower_table r.

Definition NR (rs : list rune) : list rune :=
  collapse_r false (trim_r (replace_r false (map lower rs))).

Lemma L_valid (r : rune) : valid r -> valid (lower r).
Proof.
  intros Hr. unfold lower, unicode.ToLower.
  destruct (Z.leb_spec r 127); [|by apply lower_valid].
  unfold valid in *. apply ValidRune_spec in Hr. zbool; apply ValidRune_spec; lia.
Qed.

Lemma L_idem (r : rune) : valid r -> lower (lower r) = lower r.
Proof.
  intros Hr. unfold lower at 2 3. unfold unicode.ToLower.
  destruct (Z.leb_spec r 127); [|by apply lower_idem].
  destruct (Z.leb_spec 65 r), (Z.leb_spec r 90); cbn [andb];
    unfold lower, unicode.ToLower; zbool.
Qed.

Lemma ToLower_encode (s : gostring) :
  ToLower lower_table s = encode (map lower (decode s)).
Proof.
  unfold ToLower, encode. fold lower. pose proof (decode_valid s) as Hv.
  induction Hv as [|r rs Hr _ IH]; [done|]. cbn [flat_map map]. rewrite IH.
  pose proof (L_valid r Hr) as Hl. unfold valid in Hl.
  apply ValidRune_spec in Hl. destruct (Z.ltb_spec (lower r) 0); [lia|done].
Qed.

Lemma Forall_valid_map_L (rs : list rune) :
  Forall valid rs -> Forall valid (map lower rs).
Proof. intros H. apply Forall_fmap. eapply Forall_impl; [exact H|]. apply L_valid. Qed.

Lemma valid_32 : valid 32.
Proof. done. Qed.

(** [Normalize] is the rune-level pipeline between a decoding and an
    encoding. *)
Lemma Normalize_runes (s : gostring) :
  Normalize lower_table s = encode (NR (decode s)).
Proof.
  unfold Normalize, NR. rewrite collapse_foldl. cbn [app].
  pose proof (Forall_valid_map_L _ (decode_valid s)) as H1.
  rewrite ToLower_encode, spacey_Replace_encode by done.
  pose proof (Forall_replace_r valid false _ valid_32 H1) as H2.
  rewrite TrimSpace_encode by done.
  rewrite decode_encode by (by apply Forall_trim_r). done.
Qed.

Lemma NR_valid (rs : list rune) : Forall valid rs -> Forall valid (NR rs).
Proof.
  intros H. unfold NR. apply Forall_collapse_r; [done|].
  apply Forall_trim_r, Forall_replace_r; [done|]. by apply Forall_valid_map_L.
Qed.

(** A rune that [Normalize] leaves where it is. *)
Definition clean (x : rune) : Prop :=
  is_spacey x = false /\ unicode.IsSpace x = false /\ lower x = x /\ valid x.

(** Words of clean runes with one space between them; [b] tells whether a
    space, or the end, may come next. *)
Fixpoint good (b : bool) (t : list rune) : Prop :=
  match t with
  | [] => b = true
  | x :: t' =>
    if x =? 32 then b = true /\ good false t' else clean x /\ good true t'
  end.

Definition normal (t : list rune) : Prop := t = [] \/ good false t.

Lemma IsSpace_clean (x : rune) : clean x -> (x =? 32) = false.
Proof.
  intros (_ & Hs & _). destruct (Z.eqb_spec x 32) as [->|]; [done|done].
Qed.

Lemma good_map_lower (b : bool) (t : list rune) : good b t -> map lower t = t.
Proof.
  revert b. induction t as [|x t IH]; intros b; [done|]. cbn [good map].
  destruct (Z.eqb_spec x 32) as [->|].
  - intros [_ H]. f_equal. by eapply IH.
  - intros [(_ & _ & Hx & _) H]. rewrite Hx. f_equal. by eapply IH.
Qed.

Lemma good_replace_r (b : bool) (t : list rune) :
  good b t -> replace_r (negb b) t = t.
Proof.
  revert b. induction t as [|x t IH]; intros b; [done|]. cbn [good replace_r].
  destruct (Z.eqb_spec x 32) as [->|].
  - intros [-> H]. cbn. f_equal. by apply (IH false).
  - intros [(Hx & _) H]. rewrite Hx. f_equal. by apply (IH true).
Qed.

Lemma good_collapse_r (b : bool) (t : list rune) :
  good b t -> collapse_r (negb b) t = t.
Proof.
  revert b. induction t as [|x t IH]; intros b; [done|]. cbn [good collapse_r].
  destruct (Z.eqb_spec x 32) as [->|].
  - intros [-> H]. cbn. f_equal. by apply (IH false).
  - intros [(_ & Hx & _) H]. rewrite Hx. f_equal. by apply (IH true).
Qed.

Lemma good_last (b : bool) (t : list rune) (y : rune) :
  good b (t ++ [y]) -> unicode.IsSpace y = false.
Proof.
  revert b. induction t as [|x t IH]; intros b; cbn [app good].
  - destruct (Z.eqb_spec y 32); [by intros [_ ?]|]. by intros [(_ & ? & _) _].
  - destruct (x =? 32); intros [_ H]; by eapply IH.
Qed.

Lemma good_trim_r (t : list rune) : good false t -> trim_r t = t.
Proof.
  intros H. unfold trim_r.
  assert (drop_while unicode.IsSpace t = t) as ->.
  { destruct t as [|x t]; [done|]. cbn [good] in H. simpl.
    destruct (x =? 32); [by destruct H|]. destruct H as [(_ & -> & _) _]. done. }
  destruct (rev t) as [|y m] eqn:Hr; [by rewrite <- (rev_involutive t), Hr|].
  assert (t = rev m ++ [y]) as Ht.
  { by rewrite <- (rev_involutive t), Hr. }
  rewrite Ht in H. apply good_last in H. simpl. rewrite H. by rewrite Ht.
Qed.

Lemma normal_fixed (t : list rune) : normal t -> NR t = t.
Proof.
  intros [->|H]; [done|]. unfold NR.
  rewrite (good_map_lower _ _ H), (good_replace_r true); last first.
  { clear -H. destruct t as [|x t]; [done|]. cbn [good] in *.
    destruct (x =? 32); [by destruct H|done]. }
  rewrite good_trim_r by done. by apply (good_collapse_r true); clear -H;
    destruct t as [|x t]; [done|]; cbn [good] in *;
    destruct (x =? 32); [destruct H|].
Qed.

(** What holds of every rune after lower-casing and the regexp pass. *)
Definition settled (x : rune) : Prop :=
  x = 32 \/ (is_spacey x = false /\ lower x = x /\ valid x).

Lemma settled_replace (rs : list rune) :
  Forall valid rs -> Forall settled (replace_r false (map lower rs)).
Proof.
  intros H. generalize false.
  induction H as [|r rs Hr _ IH]; intros b; [constructor|].
  cbn [map replace_r]. destruct (is_spacey (lower r)) eqn:Hs.
  - destruct b; simpl; [apply IH|]. constructor; [by left|apply IH].
  - constructor; [|apply IH]. right. split_and!; [done|by apply L_idem|by apply L_valid].
Qed.

Lemma settled_clean (x : rune) :
  settled x -> unicode.IsSpace x = false -> clean x.
Proof.
  intros [->|(? & ? & ?)] Hx; [done|]. by split_and!.
Qed.

Lemma collapse_good (l : list rune) :
  Forall settled l -> ends_ok l ->
  good true (collapse_r false l) /\ (l <> [] -> good false (collapse_r true l)).
Proof.
  induction 1 as [|x l Hx Hl IH]; intros He; [done|].
  assert (ends_ok l /\ (l = [] -> unicode.IsSpace x = false)) as [He' Hlast].
  { cbn [ends_ok] in He. destruct l; [done|]. split; [done|]. done. }
  destruct (IH He') as [IH1 IH2]. cbn [collapse_r negb].
  destruct (unicode.IsSpace x) eqn:Hsp.
  - assert (l <> []) as Hne. { intros ->. specialize (Hlast eq_refl). congruence. }
    split; [|intros _; by apply IH2]. cbn [good]. simpl. split; [done|by apply IH2].
  - pose proof (settled_clean x Hx Hsp) as Hc.
    cbn [good]. rewrite (IsSpace_clean x Hc). done.
Qed.

Lemma NR_normal (rs : list rune) : Forall valid rs -> normal (NR rs).
Proof.
  intros H. unfold NR.
  pose proof (Forall_trim_r _ _ (settled_replace rs H)) as Hs.
  destruct (trim_r_shape (replace_r false (map lower rs)))
    as [Ht|(x & l & Ht & Hx & He)]; rewrite Ht in *; [by left|].
  right.
  destruct (collapse_good _ Hs He) as [_ Hg].
  specialize (Hg ltac:(done)). cbn [collapse_r] in Hg |- *.
  by rewrite Hx in Hg |- *.
Qed.

Lemma NR_idempotent (rs : list rune) : Forall valid rs -> NR (NR rs) = NR rs.
Proof. intros H. by apply normal_fixed, NR_normal. Qed.

(** C9. [Normalize] is idempotent: [Normalize (Normalize s) = Normalize s]
    for every string [s], so that a normalized filename normalized again (as
    [Search] does) is unchanged.  Go's case table enters through
    [lower_table], of which only [lower_valid] and [lower_idem] are used. *)
Theorem Normalize_idempotent (s : gostring) :
  Normalize lower_table (Normalize lower_table s) = Normalize lower_table s.
Proof.
  rewrite !Normalize_runes.
  rewrite decode_encode by apply NR_valid, decode_valid.
  by rewrite NR_idempotent by apply decode_valid.
Qed.

End Lower.

Lemma Normalize_idempotent_witness :
  Normalize ascii_only_table
    (Normalize ascii_only_table (str "Final_Report-v2.PDF"))
  = Normalize ascii_only_table (str "Final_Report-v2.PDF").
Proof.
  apply (Normalize_idempotent ascii_only_table).
  - intros r _ Hr. exact Hr.
  - intros r Hr _. unfold lower, unicode.ToLower, ascii_only_table.
    destruct (Z.leb_spec r 127); [lia|reflexivity].
Defined.

End normalize_facts.

(** ** The stable sort *)

Module sort_facts.
Import gosort.

Section Stable.

Context {A : Type}.
Variable less : A -> A -> bool.

Lemma insert_stable_perm (x : A) (l : list A) :
  Permutation (insert_stable less x l) (x :: l).
Proof.
  induction l as [|y l IH]; [done|]. simpl. destruct (less y x); [|done].
  rewrite IH. apply perm_swap.
Qed.

Lemma SliceStable_perm (l : list A) : Permutation (SliceStable less l) l.
Proof.
  induction l as [|x l IH]; [done|]. simpl.
  rewrite insert_stable_perm. by constructor.
Qed.

(** [b] does not come before [a]. *)
Definition not_after (a b : A) : Prop := less b a = false.

Hypothesis less_asym : forall a b, less a b = true -> less b a = false.
Hypothesis not_less_trans :
  forall a b c, less a b = false -> less b c = false -> less a c = false.

Lemma insert_stable_sorted (x : A) (l : list A) :
  StronglySorted not_after l -> StronglySorted not_after (insert_stable less x l).
Proof.
  induction 1 as [|y l Hl IH Hy]; simpl.
  - repeat constructor.
  - destruct (less y x) eqn:Hyx.
    + constructor; [done|].
      rewrite insert_stable_perm. constructor; [|done].
      unfold not_after. by apply less_asym.
    + constructor; [by constructor|]. constructor; [done|].
      eapply Forall_impl; [exact Hy|]. unfold not_after. intros z Hz.
      by apply (not_less_trans z y x).
Qed.

Lemma SliceStable_sorted (l : list A) : StronglySorted not_after (SliceStable less l).
Proof.
  induction l as [|x l IH]; simpl; [constructor|]. by apply insert_stable_sorted.
Qed.

(** Elements that [less] does not tell apart keep their order. *)
Lemma insert_stable_filter (P : A -> Prop) `{!forall a, Decision (P a)}
    (x : A) (l : list A) :
  (forall a b, P a -> P b -> less a b = false) ->
  filter P (insert_stable less x l) = filter P (x :: l).
Proof.
  intros HP. induction l as [|y l IH]; [done|]. simpl.
  destruct (less y x) eqn:Hyx; [|done].
  rewrite !filter_cons in *. rewrite IH.
  destruct (decide (P y)) as [Py|]; [|done].
  destruct (decide (P x)) as [Px|]; [|done].
  rewrite (HP y x Py Px) in Hyx. done.
Qed.

Lemma SliceStable_filter (P : A -> Prop) `{!forall a, Decision (P a)} (l : list A) :
  (forall a b, P a -> P b -> less a b = false) ->
  filter P (SliceStable less l) = filter P l.
Proof.
  intros HP. induction l as [|x l IH]; [done|]. simpl.
  rewrite insert_stable_filter by done. rewrite !filter_cons. by rewrite IH.
Qed.

(** Two elements that [less] orders neither way. *)
Definition tied (x y : A) : Prop := less x y = false /\ less y x = false.

Lemma tied_refl (x : A) : tied x x.
Proof.
  assert (less x x = false) as H; [|by split].
  destruct (less x x) eqn:Hx; [|done]. pose proof (less_asym _ _ Hx). congruence.
Qed.

(** A sorted list in which tied elements keep the order they have in [l]
    is determined by [l]: two such lists are equal. *)
Lemma stable_sort_unique (l1 l2 : list A) :
  Permutation l1 l2 ->
  StronglySorted not_after l1 -> StronglySorted not_after l2 ->
  (forall x, filter (tied x) l1 = filter (tied x) l2) ->
  l1 = l2.
Proof.
  revert l2. induction l1 as [|a l1 IH]; intros l2 Hp H1 H2 Hf.
  { by apply Permutation_nil_l in Hp. }
  destruct l2 as [|b l2]; [by apply Permutation_nil_r in Hp|].
  apply StronglySorted_inv in H1 as [H1 Ha]. apply StronglySorted_inv in H2 as [H2 Hb].
  assert (tied a b) as Hab.
  { assert (a ∈ b :: l2) as Hin by (rewrite <- Hp; apply list_elem_of_here).
    assert (b ∈ a :: l1) as Hin' by (rewrite Hp; apply list_elem_of_here).
    apply elem_of_cons in Hin as [->|Hin]; [apply tied_refl|].
    apply elem_of_cons in Hin' as [->|Hin']; [apply tied_refl|].
    eapply Forall_forall in Ha; [|exact Hin']. eapply Forall_forall in Hb; [|exact Hin].
    by split. }
  pose proof (Hf a) as Hfa. rewrite !filter_cons in Hfa.
  rewrite decide_True in Hfa by apply tied_refl. rewrite decide_True in Hfa by done.
  injection Hfa as <- _. f_equal. apply IH; [by eapply Permutation_cons_inv|done..|].
  intros x. specialize (Hf x). rewrite !filter_cons in Hf.
  destruct (decide (tied x a)); [by injection Hf|done].
Qed.

End Stable.

End sort_facts.

(** ** Rounding to float64 *)

Module float64_facts.
Import float64.

#[local] Open Scope Q_scope.

Lemma two_pos (z : Z) : 0 < 2 ^ z.
Proof. by apply Qpower_0_lt. Qed.

Lemma two_nonzero (z : Z) : ~ 2 ^ z == 0.
Proof. intros E. pose proof (two_pos z) as H. rewrite E in H. by apply Qlt_irrefl in H. Qed.

Lemma two_succ (z : Z) : 2 ^ (z + 1) == 2 * 2 ^ z.
Proof. rewrite Qpower_plus by done. change (2 ^ 1) with 2. ring. Qed.

Lemma inject_two (n : Z) : (0 <= n)%Z -> inject_Z (2 ^ n) == 2 ^ n.
Proof. intros Hn. by rewrite Zpower_Qpower. Qed.

(** [ilog2 x] is the one [e] with [2^e <= x < 2^(e+1)]. *)
Lemma ilog2_unique (x : Q) (e e' : Z) :
  2 ^ e <= x < 2 ^ (e + 1) -> 2 ^ e' <= x < 2 ^ (e' + 1) -> e = e'.
Proof.
  intros [H1 H2] [H3 H4].
  assert (e < e' + 1)%Z.
  { apply (Qpower_lt_compat_l_inv 2); [|done]. eapply Qle_lt_trans; done. }
  assert (e' < e + 1)%Z.
  { apply (Qpower_lt_compat_l_inv 2); [|done]. eapply Qle_lt_trans; done. }
  lia.
Qed.

Lemma ilog2_spec (x : Q) : 0 < x -> 2 ^ ilog2 x <= x < 2 ^ (ilog2 x + 1).
Proof.
  intros Hx. destruct x as [n d]. unfold ilog2. cbn [Qnum Qden].
  assert (0 < n)%Z as Hn. { unfold Qlt in Hx. cbn in Hx. lia. }
  set (a := Z.log2 n). set (b := Z.log2 (Zpos d)).
  destruct (Z.log2_spec n Hn) as [Ha1 Ha2]. fold a in Ha1, Ha2.
  destruct (Z.log2_spec (Zpos d) ltac:(done)) as [Hb1 Hb2]. fold b in Hb1, Hb2.
  pose proof (Z.log2_nonneg n) as Ha0. fold a in Ha0.
  pose proof (Z.log2_nonneg (Zpos d)) as Hb0. fold b in Hb0.
  assert (n # d == inject_Z n / inject_Z (Zpos d)) as Hq by apply Qmake_Qdiv.
  assert (0 < inject_Z (Zpos d)) as Hd by done.
  assert (2 ^ a <= inject_Z n) as Qa1.
  { rewrite <- inject_two by done. by rewrite <- Zle_Qle. }
  assert (inject_Z n < 2 ^ (a + 1)) as Qa2.
  { rewrite <- inject_two by lia. rewrite <- Zlt_Qlt. by rewrite Z.add_1_r. }
  assert (2 ^ b <= inject_Z (Zpos d)) as Qb1.
  { rewrite <- inject_two by done. by rewrite <- Zle_Qle. }
  assert (inject_Z (Zpos d) < 2 ^ (b + 1)) as Qb2.
  { rewrite <- inject_two by lia. rewrite <- Zlt_Qlt. by rewrite Z.add_1_r. }
  (* 2^(a-b-1) < n/d < 2^(a-b+1) *)
  assert (2 ^ (a - b - 1) <= n # d) as Hlo.
  { rewrite Hq. apply Qle_shift_div_l; [done|].
    apply Qle_trans with (2 ^ (a - b - 1) * 2 ^ (b + 1)).
    - apply Qmult_le_l; [apply two_pos|by apply Qlt_le_weak].
    - rewrite <- Qpower_plus by done. replace (a - b - 1 + (b + 1))%Z with a by lia. done. }
  assert (n # d < 2 ^ (a - b + 1)) as Hhi.
  { rewrite Hq. apply Qlt_shift_div_r; [done|].
    apply Qlt_le_trans with (2 ^ (a + 1)); [done|].
    replace (a + 1)%Z with (a - b + 1 + b)%Z by lia. rewrite Qpower_plus by done.
    apply Qmult_le_l; [apply two_pos|done]. }
  destruct (Qle_bool (2 ^ (a - b)) (n # d)) eqn:E.
  - apply Qle_bool_iff in E. done.
  - replace (a - b - 1 + 1)%Z with (a - b)%Z by lia. split; [done|].
    apply Qnot_le_lt. intros H. apply Qle_bool_iff in H. congruence.
Qed.

Lemma ilog2_eq (x : Q) (e : Z) : 2 ^ e <= x < 2 ^ (e + 1) -> ilog2 x = e.
Proof.
  intros H. apply (ilog2_unique x); [|done]. apply ilog2_spec.
  eapply Qlt_le_trans; [apply (two_pos e)|apply H].
Qed.

#[export] Instance nearest_even_proper : Proper (Qeq ==> eq) nearest_even.
Proof.
  intros x y E. unfold nearest_even. rewrite (Qfloor_comp _ _ E).
  assert (x - inject_Z (Qfloor y) == y - inject_Z (Qfloor y)) as E' by (by rewrite E).
  by rewrite (Qcompare_comp _ _ E' _ _ (Qeq_refl (1 # 2))).
Qed.

Lemma nearest_even_int (k : Z) : nearest_even (inject_Z k) = k.
Proof.
  unfold nearest_even. rewrite Qfloor_Z.
  assert (inject_Z k - inject_Z k == 0) as E by ring.
  by rewrite (Qcompare_comp _ _ E _ _ (Qeq_refl (1 # 2))).
Qed.

Lemma nearest_even_bounds (x : Q) :
  (Qfloor x <= nearest_even x <= Qfloor x + 1)%Z.
Proof. unfold nearest_even. repeat case_match; lia. Qed.

#[export] Instance round_proper : Proper (Qeq ==> eq) round.
Proof. intros x y E. unfold round. by rewrite (Qred_complete _ _ E). Qed.

Lemma round_zero (x : Q) : x == 0 -> round x = 0.
Proof. intros E. by rewrite (round_proper _ _ E). Qed.

Lemma ilog2_comp (x y : Q) : x == y -> 0 < x -> ilog2 x = ilog2 y.
Proof.
  intros E Hx. apply ilog2_eq. rewrite E. apply ilog2_spec. by rewrite <- E.
Qed.

Lemma Qabs_pos_nonzero (x : Q) : ~ x == 0 -> 0 < Qabs x.
Proof.
  intros Hx. apply Qabs_case; intros H.
  - apply Qle_lt_or_eq in H as [H|H]; [done|]. destruct Hx. by symmetry.
  - apply Qle_lt_or_eq in H as [H|H]; [lra|]. by destruct Hx.
Qed.

Lemma ulp_exp_comp (x y : Q) : x == y -> ~ x == 0 -> ulp_exp x = ulp_exp y.
Proof.
  intros E Hx. unfold ulp_exp. f_equal. f_equal.
  apply ilog2_comp; [by rewrite E|by apply Qabs_pos_nonzero].
Qed.

Lemma ulp_exp_min (x : Q) : (emin - frac_bits <= ulp_exp x)%Z.
Proof. unfold ulp_exp. lia. Qed.

Lemma round_nonzero (x : Q) :
  ~ x == 0 ->
  round x == inject_Z (nearest_even (x / 2 ^ ulp_exp x)) * 2 ^ ulp_exp x.
Proof.
  intros Hx. unfold round. pose proof (Qred_correct x) as Hr.
  assert (ulp_exp (Qred x) = ulp_exp x) as Hu.
  { apply ulp_exp_comp; [done|]. by rewrite Hr. }
  destruct (Qnum (Qred x)) eqn:E.
  - destruct Hx. rewrite <- Hr. destruct (Qred x) as [n d]. cbn in E. by subst n.
  - rewrite Qred_correct, Hu. by rewrite Hr.
  - rewrite Qred_correct, Hu. by rewrite Hr.
Qed.

(** A number of at most 53 bits scaled by a power of two within range is
    a float64 value: rounding leaves it alone. *)
Lemma round_representable (m s : Z) :
  (Z.abs m <= 2 ^ 53)%Z -> (emin - frac_bits <= s)%Z ->
  round (inject_Z m * 2 ^ s) == inject_Z m * 2 ^ s.
Proof.
  intros Hm Hs. destruct (Z.eq_dec m 0%Z) as [->|Hm0].
  { rewrite (round_zero (inject_Z 0 * 2 ^ s)) by ring. ring. }
  set (x := inject_Z m * 2 ^ s).
  assert (~ x == 0) as Hx.
  { unfold x. intros E. apply Qmult_integral in E as [E|E]; [|by apply two_nonzero in E].
    apply (inject_Z_injective m 0%Z) in E. done. }
  rewrite (round_nonzero x Hx).
  set (a := Z.abs m). set (l := Z.log2 a).
  assert (0 < a)%Z as Ha by lia.
  destruct (Z.log2_spec a Ha) as [Hl1 Hl2]. fold l in Hl1, Hl2.
  pose proof (Z.log2_nonneg a) as Hl0. fold l in Hl0.
  assert (Qabs x == inject_Z a * 2 ^ s) as Habs.
  { unfold x. rewrite Qabs_Qmult, (Qabs_pos (2 ^ s)) by apply Qlt_le_weak, two_pos.
    apply Qmult_comp; [|done]. unfold a. unfold Qabs, inject_Z. done. }
  assert (ilog2 (Qabs x) = (l + s)%Z) as Hlog.
  { apply ilog2_eq. rewrite Habs. split.
    - rewrite Qpower_plus by done. apply Qmult_le_r; [apply two_pos|].
      rewrite <- inject_two by done. by rewrite <- Zle_Qle.
    - replace (l + s + 1)%Z with (l + 1 + s)%Z by lia. rewrite Qpower_plus by done.
      apply Qmult_lt_r; [apply two_pos|].
      rewrite <- inject_two by lia. rewrite <- Zlt_Qlt. by rewrite Z.add_1_r. }
  assert (ulp_exp x = (Z.max (l + s) emin - frac_bits)%Z) as Hu.
  { unfold ulp_exp. by rewrite Hlog. }
  rewrite Hu. set (s' := (Z.max (l + s) emin - frac_bits)%Z).
  assert (exists k, x / 2 ^ s' == inject_Z k) as [k Hk].
  { assert (l <= 53)%Z as Hl53.
    { destruct (Z.le_gt_cases l 53) as [?|Hgt]; [done|]. exfalso.
      assert (2 ^ 54 <= 2 ^ l)%Z by (apply Z.pow_le_mono_r; lia). unfold a in *. lia. }
    destruct (Z.eq_dec l 53%Z) as [El|Nl].
    - assert (a = 2 ^ 53)%Z as Ea by (rewrite El in Hl1; unfold a in *; lia).
      assert (s' = s + 1)%Z as -> by (unfold s', frac_bits, emin in *; lia).
      exists (m / 2)%Z.
      assert (m = 2 * (m / 2))%Z as Em.
      { unfold a in Ea. destruct (Z.abs_eq_or_opp m) as [E|E]; rewrite E in Ea.
        - by rewrite Ea.
        - replace m with (- 2 ^ 53)%Z by lia. done. }
      unfold x. rewrite Em at 1. rewrite inject_Z_mult, two_succ.
      field. apply two_nonzero.
    - assert (s' <= s)%Z as Hle by (unfold s', frac_bits, emin in *; lia).
      exists (m * 2 ^ (s - s'))%Z.
      rewrite inject_Z_mult, inject_two by lia. unfold x.
      rewrite Qpower_minus by done. field. apply two_nonzero. }
  rewrite (nearest_even_proper _ _ Hk), nearest_even_int, <- Hk.
  field. apply two_nonzero.
Qed.

Lemma nearest_even_abs (t : Q) (n : Z) :
  (0 <= n)%Z -> Qabs t < inject_Z n -> (Z.abs (nearest_even t) <= n)%Z.
Proof.
  intros Hn Ht. pose proof (nearest_even_bounds t) as [H1 H2].
  pose proof (Qfloor_le t) as Hf. pose proof (Qlt_floor t) as Hc.
  assert (- inject_Z n < t < inject_Z n) as [Hlo Hhi].
  { revert Ht. apply Qabs_case; intros; lra. }
  assert (Qfloor t < n)%Z.
  { rewrite Zlt_Qlt. lra. }
  assert (- n - 1 < Qfloor t)%Z.
  { rewrite Zlt_Qlt. rewrite inject_Z_plus in Hc. unfold Zminus.
    rewrite inject_Z_plus, !inject_Z_opp. change (inject_Z 1) with 1 in *. lra. }
  lia.
Qed.

(** Rounding a float64 value gives that value. *)
Lemma round_idem (x : Q) : round (round x) == round x.
Proof.
  destruct (Qeq_dec x 0) as [E|Hx].
  { rewrite (round_zero x E). reflexivity. }
  rewrite (round_proper _ _ (round_nonzero x Hx)).
  rewrite round_representable, <- round_nonzero; [reflexivity|done| |apply ulp_exp_min].
  apply nearest_even_abs; [done|].
  set (s := ulp_exp x). set (e := ilog2 (Qabs x)).
  destruct (ilog2_spec (Qabs x) (Qabs_pos_nonzero x Hx)) as [_ He]. fold e in He.
  assert (Qabs (x / 2 ^ s) == Qabs x / 2 ^ s) as ->.
  { unfold Qdiv. rewrite Qabs_Qmult. apply Qmult_comp; [done|].
    apply Qabs_pos, Qlt_le_weak, Qinv_lt_0_compat, two_pos. }
  apply Qlt_shift_div_r; [apply two_pos|].
  eapply Qlt_le_trans; [exact He|].
  rewrite inject_two by done. rewrite <- Qpower_plus by done.
  apply Qpower_le_compat_l; [|done]. unfold s, ulp_exp, frac_bits. fold e. lia.
Qed.

(** What the operations return is a float64 value, and adding zero to one
    changes nothing. *)
Definition is_float64 (x : Q) : Prop := round x == x.

Lemma round_is_float64 (x : Q) : is_float64 (round x).
Proof. apply round_idem. Qed.

#[export] Instance add_proper : Proper (Qeq ==> Qeq ==> eq) add.
Proof. intros a a' Ea b b' Eb. unfold add. apply round_proper. by rewrite Ea, Eb. Qed.

#[export] Instance mul_proper : Proper (Qeq ==> Qeq ==> eq) mul.
Proof. intros a a' Ea b b' Eb. unfold mul. apply round_proper. by rewrite Ea, Eb. Qed.

#[export] Instance div_proper : Proper (Qeq ==> Qeq ==> eq) div.
Proof. intros a a' Ea b b' Eb. unfold div. apply round_proper. by rewrite Ea, Eb. Qed.

Lemma add_0_r (a : Q) : is_float64 a -> add a 0 == a.
Proof.
  intros Ha. unfold add.
  assert (a + 0 == a) as E by ring. by rewrite (round_proper _ _ E).
Qed.

(** An integer of at most 53 bits is converted exactly. *)
Lemma of_int_exact (z : Z) : (Z.abs z <= 2 ^ 53)%Z -> of_int z == inject_Z z.
Proof.
  intros Hz. unfold of_int.
  assert (inject_Z z == inject_Z z * 2 ^ 0) as E by (change (2 ^ 0) with 1; ring).
  rewrite (round_proper _ _ E), round_representable; [by symmetry|done|done].
Qed.

Example add_rounds : ~ add (lit 0.1) (lit 0.2) == lit 0.3.
Proof. vm_compute. discriminate. Qed.

Example round_ties_to_even :
  round (inject_Z (2 ^ 53 + 1)) == inject_Z (2 ^ 53)
  /\ round (inject_Z (2 ^ 53 + 3)) == inject_Z (2 ^ 53 + 4).
Proof. split; vm_compute; reflexivity. Qed.

End float64_facts.

(** ** Ranking and searching *)

Module search_facts.
Import utf8 gostrings int64 float64 search samples float64_facts.

(** *** The comparison of [Search] *)

(** [a] may stay before [b]: a later [mtime], or the same [mtime] and a
    score at least as high. *)
Definition ranks_before (a b : Result) : Prop :=
  Mtime b < Mtime a \/ (Mtime a = Mtime b /\ (Score b <= Score a)%Q).

Lemma less_false (a b : Result) :
  less a b = false <-> ranks_before b a.
Proof.
  unfold less, ranks_before, Qgtb.
  destruct (Z.eqb_spec (Mtime a) (Mtime b)) as [He|Hne]; cbn [negb].
  - rewrite negb_false_iff, Qle_bool_iff. split; [intros; right; by split|].
    intros [?|[_ ?]]; [lia|done].
  - rewrite Z.gtb_ltb, Z.ltb_ge. split; [intros; left; lia|].
    intros [?|[? _]]; [lia|congruence].
Qed.

Lemma less_true (a b : Result) :
  less a b = true <->
    Mtime b < Mtime a \/ (Mtime a = Mtime b /\ (Score b < Score a)%Q).
Proof.
  unfold less, Qgtb.
  destruct (Z.eqb_spec (Mtime a) (Mtime b)) as [He|Hne]; cbn [negb].
  - rewrite negb_true_iff. split.
    + intros H. right. split; [done|]. apply Qnot_le_lt. intros Hle.
      apply Qle_bool_iff in Hle. congruence.
    + intros [?|[_ Hlt]]; [lia|]. apply not_true_is_false. intros Hle.
      apply Qle_bool_iff in Hle. by apply Qlt_not_le in Hlt.
  - rewrite Z.gtb_ltb, Z.ltb_lt. split; [by left|]. intros [?|[? _]]; [done|congruence].
Qed.

Lemma less_asym (a b : Result) : less a b = true -> less b a = false.
Proof.
  rewrite less_true, less_false. unfold ranks_before.
  intros [?|[? ?]]; [by left|]. right. split; [done|]. by apply Qlt_le_weak.
Qed.

Lemma not_less_trans (a b c : Result) :
  less a b = false -> less b c = false -> less a c = false.
Proof.
  rewrite !less_false. unfold ranks_before.
  intros [?|[? ?]] [?|[? ?]]; [left; lia..|].
  right. split; [congruence|]. by eapply Qle_trans.
Qed.

(** *** Substrings, prefixes and token overlap *)

Lemma HasPrefix_spec (s p : gostring) :
  HasPrefix s p = true <-> exists post, s = p ++ post.
Proof.
  revert s. induction p as [|c p IH]; intros s.
  - destruct s; simpl; (split; [by eexists|done]).
  - destruct s as [|d s]; simpl; [split; [done|intros [? [=]]]|].
    rewrite andb_true_iff, IH, Ascii.eqb_eq. split.
    + intros [-> [post ->]]. by exists post.
    + intros [post [= -> ->]]. split; [done|by exists post].
Qed.

Lemma Contains_spec (s sub : gostring) :
  Contains s sub = true <-> exists pre post, s = pre ++ sub ++ post.
Proof.
  induction s as [|d s IH]; cbn [Contains]; rewrite orb_true_iff, HasPrefix_spec.
  - split.
    + intros [[post ->]|?]; [by exists [], post|done].
    + intros (pre & post & H). left. exists post.
      destruct pre; [done|discriminate].
  - rewrite IH. split.
    + intros [[post ->]|(pre & post & ->)]; [by exists [], post|].
      by exists (d :: pre), post.
    + intros (pre & post & H). destruct pre as [|e pre].
      * left. by exists post.
      * right. injection H as -> ->. by exists pre, post.
Qed.

#[local] Instance HasPrefix_dec (s p : gostring) :
  Decision (exists post, s = p ++ post).
Proof.
  destruct (HasPrefix s p) eqn:H.
  - left. by apply HasPrefix_spec.
  - right. intros H'. apply HasPrefix_spec in H'. congruence.
Defined.

#[local] Instance Contains_dec (s sub : gostring) :
  Decision (exists pre post, s = pre ++ sub ++ post).
Proof.
  destruct (Contains s sub) eqn:H.
  - left. by apply Contains_spec.
  - right. intros H'. apply Contains_spec in H'. congruence.
Defined.

Lemma token_set (b : list gostring) (acc : gset gostring) (t : gostring) :
  t ∈ foldl (fun (set : gset gostring) t => {[ t ]} ∪ set) acc b
  <-> t ∈ b \/ t ∈ acc.
Proof.
  revert acc. induction b as [|u b IH]; intros acc; simpl.
  - rewrite elem_of_nil. tauto.
  - rewrite IH, elem_of_union, elem_of_singleton, elem_of_cons. tauto.
Qed.

Lemma overlap_count (P : gostring -> Prop) `{!forall t, Decision (P t)}
    (a : list gostring) (c : Z) :
  foldl (fun c t => if decide (P t) then c + 1 else c) c a
  = c + Z.of_nat (length (filter P a)).
Proof.
  revert c. induction a as [|t a IH]; intros c; simpl; [lia|].
  rewrite IH, filter_cons. destruct (decide (P t)); simpl; lia.
Qed.

(** [tokenOverlapCount a b] is the number of positions of [a] whose token
    occurs in [b], however often it occurs there. *)
Lemma tokenOverlapCount_spec (a b : list gostring) :
  tokenOverlapCount a b = Z.of_nat (length (filter (fun t => t ∈ b) a)).
Proof.
  unfold tokenOverlapCount.
  destruct a as [|t a]; [done|]. destruct b as [|u b].
  { cbn [length Nat.eqb orb]. generalize (t :: a). intros l.
    induction l as [|x l IH]; [done|]. rewrite filter_cons.
    destruct (decide (x ∈ [])) as [Hx|]; [by apply elem_of_nil in Hx|done]. }
  cbn [length Nat.eqb orb]. rewrite (overlap_count _ (t :: a) 0), Z.add_0_l.
  do 2 f_equal. apply list_filter_iff. intros x.
  rewrite token_set, elem_of_empty. tauto.
Qed.

(** *** Trigram similarity as a quotient of set sizes *)

Lemma Trigrams_size (s : gostring) : size (util.Trigrams s) <> 0%nat.
Proof.
  apply size_non_empty_iff. intros He.
  destruct (Nat.ltb_spec (length (util.strip_spaces s)) 3) as [Hlt|Hge].
  - assert (util.strip_spaces s ∈ util.Trigrams s) as Hin.
    { apply util_sets.elem_of_Trigrams. by left. }
    rewrite He in Hin. by apply elem_of_empty in Hin.
  - assert (take 3 (drop 0 (util.strip_spaces s)) ∈ util.Trigrams s) as Hin.
    { apply util_sets.elem_of_Trigrams. right. exists 0%nat. split; [lia|done]. }
    rewrite He in Hin. by apply elem_of_empty in Hin.
Qed.

Lemma size_union_inter (a b : gset gostring) :
  Z.of_nat (size (a ∪ b))
  = Z.of_nat (size a) + Z.of_nat (size b) - Z.of_nat (size (a ∩ b)).
Proof.
  rewrite size_union_alt, size_difference_alt.
  assert (size (b ∩ a) <= size b)%nat
    by apply subseteq_size, intersection_subseteq_l.
  replace (b ∩ a) with (a ∩ b) in * by apply (comm_L (∩)). lia.
Qed.

Lemma Jaccard_nonempty (a b : gset gostring) :
  size a <> 0%nat -> size b <> 0%nat ->
  util.Jaccard a b
  = (inject_Z (Z.of_nat (size (a ∩ b))) / inject_Z (Z.of_nat (size (a ∪ b))))%Q.
Proof.
  intros Ha Hb. rewrite util_sets.Jaccard_sets.
  destruct (Nat.eqb_spec (size a) 0); [done|].
  destruct (Nat.eqb_spec (size b) 0); [done|]. cbn [andb orb].
  cbv zeta. rewrite <- size_union_inter.
  destruct (Z.eqb_spec (Z.of_nat (size (a ∪ b))) 0) as [He|]; [|done].
  assert (size a <= size (a ∪ b))%nat by apply subseteq_size, union_subseteq_l.
  lia.
Qed.

Lemma max_Zmax (a b : Z) : max a b = Z.max a b.
Proof. unfold max. rewrite Z.gtb_ltb. destruct (Z.ltb_spec b a); lia. Qed.

Lemma wrap64_id (z : Z) :
  - 9223372036854775808 <= z < 9223372036854775808 -> wrap64 z = z.
Proof. intros Hz. unfold wrap64. rewrite Z.mod_small by lia. lia. Qed.

(** A term of the score that is [b] when [P] holds and zero when not. *)
Definition bonus (P : Prop) `{!Decision P} (b : Q) : Q :=
  if decide P then b else 0%Q.

(** The float64 sum of the terms, taken from the first to the last. *)
Definition sum64 (terms : list Q) : Q := foldl add (lit 0.0) terms.

Lemma add_bonus (s c : Q) (b : bool) (P : Prop) `{!Decision P} :
  (b = true <-> P) -> is_float64 s ->
  ((if b then add s c else s) == add s (bonus P c))%Q.
Proof.
  intros Hb Hs. unfold bonus. destruct b, (decide P) as [HP|HP].
  - reflexivity.
  - destruct HP. by apply Hb.
  - by apply Hb in HP.
  - symmetry. by apply add_0_r.
Qed.

#[local] Instance add_proper_Qeq : Proper (Qeq ==> Qeq ==> Qeq) add.
Proof. intros a a' Ea b b' Eb. by rewrite (add_proper _ _ Ea _ _ Eb). Qed.

#[local] Instance Qeq_decision (a b : Q) : Decision (a == b)%Q := Qeq_dec a b.

(** Candidates of the same [mtime] and an equal score. *)
Definition same_key (m : Z) (s : Q) (c : Result) : Prop :=
  Mtime c = m /\ (Score c == s)%Q.

Lemma same_key_not_less (m : Z) (s : Q) (a b : Result) :
  same_key m s a -> same_key m s b -> less a b = false.
Proof.
  intros [Ha Sa] [Hb Sb]. apply less_false. right. split; [congruence|].
  rewrite Sa, Sb. apply Qle_refl.
Qed.

Lemma tied_same_key (x c : Result) :
  sort_facts.tied less x c <-> same_key (Mtime x) (Score x) c.
Proof.
  unfold sort_facts.tied, same_key. rewrite !less_false. unfold ranks_before.
  split.
  - intros [[?|[? H1]] [?|[? H2]]]; try lia. split; [done|]. by apply Qle_antisym.
  - intros [Hm Hs]. split; right; (split; [done|]); rewrite Hs; apply Qle_refl.
Qed.

Lemma StronglySorted_weaken {A} (R S : A -> A -> Prop) (l : list A) :
  (forall a b, R a b -> S a b) -> StronglySorted R l -> StronglySorted S l.
Proof.
  intros HRS. induction 1 as [|x l Hl IH Hx]; constructor; [done|].
  eapply Forall_impl; [exact Hx|]. intros b. apply HRS.
Qed.

Lemma StronglySorted_take {A} (R : A -> A -> Prop) (n : nat) (l : list A) :
  StronglySorted R l -> StronglySorted R (take n l).
Proof.
  intros H. revert n. induction H as [|x l Hl IH Hx]; intros [|n]; simpl;
    try constructor; [apply IH|].
  apply Forall_forall. intros y Hy. apply (subseteq_take (A:=A)) in Hy.
  by eapply Forall_forall in Hx.
Qed.

Lemma StronglySorted_at {A} (R : A -> A -> Prop) (l : list A)
    (i j : nat) (a b : A) :
  StronglySorted R l -> (i < j)%nat -> l !! i = Some a -> l !! j = Some b -> R a b.
Proof.
  intros H. revert i j. induction H as [|x l Hl IH Hx]; intros i j Hij Hi Hj; [done|].
  destruct j as [|j]; [lia|]. destruct i as [|i]; simpl in *.
  - injection Hi as ->. eapply Forall_forall in Hx; [exact Hx|].
    by eapply list_elem_of_lookup_2.
  - eapply (IH i j); [lia|done..].
Qed.

(** What [sort.SliceStable] with [less] makes of any list of candidates,
    whatever their scores: the one permutation that is sorted by [mtime]
    descending, then score descending, and keeps candidates of equal
    [mtime] and score in their order. *)
Lemma ranking_spec (cands : list Result) :
  let sorted := gosort.SliceStable less cands in
  Permutation sorted cands
  /\ StronglySorted ranks_before sorted
  /\ (forall m s, filter (same_key m s) sorted = filter (same_key m s) cands)
  /\ (forall l, Permutation l cands ->
                StronglySorted ranks_before l ->
                (forall m s, filter (same_key m s) l = filter (same_key m s) cands) ->
                l = sorted).
Proof.
  intros sorted.
  assert (StronglySorted (sort_facts.not_after less) sorted) as Hs
    by apply (sort_facts.SliceStable_sorted less less_asym not_less_trans).
  assert (forall m s, filter (same_key m s) sorted = filter (same_key m s) cands)
    as Hf by (intros m s; apply sort_facts.SliceStable_filter, same_key_not_less).
  split_and!.
  - apply sort_facts.SliceStable_perm.
  - eapply StronglySorted_weaken; [|exact Hs]. intros a b. apply less_false.
  - exact Hf.
  - intros l Hp Hl Hl'.
    apply (sort_facts.stable_sort_unique less less_asym); [| |done|].
    + unfold sorted. by rewrite Hp, sort_facts.SliceStable_perm.
    + eapply StronglySorted_weaken; [|exact Hl]. intros a b. apply less_false.
    + intros x. by rewrite !(list_filter_iff _ _ _ (tied_same_key x)), Hl', Hf.
Qed.

Section Facts.

Variable lower_table : rune -> rune.
Variable Log1p : Q -> Q.

(** The score as the specification words it: the sum of six terms, for
    the normalized query [qNorm] with tokens [qTokens] and a candidate with
    the given [filename] and [mtime]; the sum and the terms are taken in
    float64, the terms in the order of the list. *)
Definition six_terms (qNorm : gostring) (qTokens : list gostring) (now : Z)
    (filename : gostring) (mtime : Z) : Q :=
  let fnNorm := util.Normalize lower_table filename in
  let fnTokens := util.Tokenize fnNorm in
  let qTri := util.Trigrams qNorm in
  let fnTri := util.Trigrams fnNorm in
  let ageDays := div (of_int (Z.max 0 (now - mtime))) (lit 86400.0) in
  sum64
    [ bonus (exists pre post, fnNorm = pre ++ qNorm ++ post) (lit 6.0);
      mul (lit 2.2)
          (of_int (Z.of_nat (length (filter (fun t => t ∈ fnTokens) qTokens))));
      bonus (exists post, fnNorm = qNorm ++ post) (lit 2.5);
      mul (lit 4.0)
          (round (inject_Z (Z.of_nat (size (qTri ∩ fnTri)))
                  / inject_Z (Z.of_nat (size (qTri ∪ fnTri)))));
      mul (lit 1.5) (div (lit 1.0) (add (lit 1.0) (Log1p ageDays)));
      mul (lit 0.15)
          (div (lit 1.0)
               (add (lit 1.0)
                    (div (of_int (Z.of_nat (length fnNorm))) (lit 40.0)))) ].

Lemma rank_fields (qNorm : gostring) (qTokens : list gostring)
    (qTri : gset gostring) (now : Z) (c : Result) :
  let r := rank lower_table Log1p qNorm qTokens qTri now c in
  Path r = Path c /\ Filename r = Filename c /\ Ext r = Ext c
  /\ Mtime r = Mtime c /\ Size r = Size c.
Proof. done. Qed.

Lemma rank_score (qNorm : gostring) (qTokens : list gostring) (now : Z) (c : Result) :
  - 9223372036854775808 <= now - Mtime c < 9223372036854775808 ->
  (Score (rank lower_table Log1p qNorm qTokens (util.Trigrams qNorm) now c)
   == six_terms qNorm qTokens now (Filename c) (Mtime c))%Q.
Proof.
  intros Hrange. unfold rank, six_terms, sum64. cbn [Score foldl]. cbv zeta.
  rewrite wrap64_id, max_Zmax by done.
  rewrite tokenOverlapCount_spec.
  rewrite Jaccard_nonempty by apply Trigrams_size.
  set (fnNorm := util.Normalize lower_table (Filename c)).
  set (t2 := mul (lit 2.2) _). set (t4 := mul (lit 4.0) _).
  set (t5 := mul (lit 1.5) _). set (t6 := mul (lit 0.15) _).
  pose proof (add_bonus (lit 0.0) (lit 6.0) (Contains fnNorm qNorm)
                (exists pre post, fnNorm = pre ++ qNorm ++ post)
                (Contains_spec _ _) (round_is_float64 _)) as H1.
  set (s1 := if Contains fnNorm qNorm then _ else _) in *.
  pose proof (add_bonus (add s1 t2) (lit 2.5) (HasPrefix fnNorm qNorm)
                (exists post, fnNorm = qNorm ++ post)
                (HasPrefix_spec _ _) (round_is_float64 _)) as H3.
  set (s3 := if HasPrefix fnNorm qNorm then _ else _) in *.
  by rewrite H3, H1.
Qed.

(** *** What [Search] returns *)

Definition effective_limit (opts : QueryOptions) : Z :=
  if Limit opts <=? 0 then 30 else Limit opts.

Definition scored (now : Z) (qNorm : gostring) (rows : list db.FileRow)
    : list Result :=
  map (rank lower_table Log1p qNorm (util.Tokenize qNorm) (util.Trigrams qNorm) now)
      (map scan rows).

Lemma Search_unfold (d : db.Conn) (now : Z) (q : gostring) (opts : QueryOptions)
    (rows : list db.FileRow) :
  let qNorm := util.Normalize lower_table q in
  qNorm <> [] ->
  candidates d qNorm (util.Tokenize qNorm) opts = inl rows ->
  Search lower_table Log1p d now q opts
  = (take (Z.to_nat (effective_limit opts))
       (gosort.SliceStable less (scored now qNorm rows)), None).
Proof.
  intros qNorm Hq Hc. unfold Search. fold qNorm.
  destruct (decide (qNorm = [])); [done|]. rewrite Hc.
  fold (scored now qNorm rows). fold (effective_limit opts).
  destruct (Z.gtb_spec (Z.of_nat (length (gosort.SliceStable less (scored now qNorm rows))))
              (effective_limit opts)); [done|].
  rewrite take_ge; [done|lia].
Qed.

Lemma Search_cases (d : db.Conn) (now : Z) (q : gostring) (opts : QueryOptions) :
  let qNorm := util.Normalize lower_table q in
  (Search lower_table Log1p d now q opts).1 = []
  \/ exists rows,
       qNorm <> [] /\ candidates d qNorm (util.Tokenize qNorm) opts = inl rows.
Proof.
  intros qNorm. unfold Search. fold qNorm.
  destruct (decide (qNorm = [])); [by left|].
  destruct (candidates d qNorm (util.Tokenize qNorm) opts) as [rows|e] eqn:Hc;
    [right; by exists rows|by left].
Qed.

Lemma candidates_rows (d : db.Conn) (qNorm : gostring) (qTokens : list gostring)
    (opts : QueryOptions) (rows : list db.FileRow) (row : db.FileRow) :
  candidates d qNorm qTokens opts = inl rows -> row ∈ rows ->
  row ∈ db.files d
  /\ db.IsDir row = false
  /\ (ExtFilter opts <> ∅ -> db.Ext row ∈ ExtFilter opts).
Proof.
  unfold candidates, Query. destruct (db.query_fails (db.faults d)); [done|].
  intros [= <-] Hin.
  apply (subseteq_take (A:=db.FileRow)) in Hin.
  rewrite (sort_facts.SliceStable_perm _ _), list_elem_of_filter in Hin.
  destruct Hin as [Hw Hin]. unfold where_clause in Hw.
  apply andb_true_iff in Hw as [Hw Hd]. apply andb_true_iff in Hw as [_ He].
  split_and!; [done|by apply negb_true_iff|]. intros Hne.
  destruct (Nat.ltb_spec 0 (size (ExtFilter opts))) as [_|Hs].
  - apply bool_decide_eq_true in He. by apply elem_of_elements in He.
  - exfalso. apply Hne, leibniz_equiv, size_empty_iff. lia.
Qed.

Lemma Search_result_row (d : db.Conn) (now : Z) (q : gostring) (opts : QueryOptions)
    (r : Result) :
  let qNorm := util.Normalize lower_table q in
  r ∈ (Search lower_table Log1p d now q opts).1 ->
  exists rows row,
    candidates d qNorm (util.Tokenize qNorm) opts = inl rows
    /\ row ∈ rows
    /\ r = rank lower_table Log1p qNorm (util.Tokenize qNorm)
             (util.Trigrams qNorm) now (scan row).
Proof.
  intros qNorm Hr.
  destruct (Search_cases d now q opts) as [He|(rows & Hq & Hc)].
  { rewrite He in Hr. by apply elem_of_nil in Hr. }
  rewrite (Search_unfold d now q opts rows Hq Hc) in Hr. cbn [fst] in Hr.
  apply (subseteq_take (A:=Result)) in Hr.
  rewrite (sort_facts.SliceStable_perm _ _) in Hr. unfold scored in Hr.
  apply list_elem_of_fmap in Hr as (c & -> & Hc').
  apply list_elem_of_fmap in Hc' as (row & -> & Hrow).
  by exists rows, row.
Qed.

(** C7. A query whose normalization is empty gets the empty result list
    and no error, whatever the catalog holds, whatever the connection would
    answer and whatever the options are. *)
Theorem Search_empty_query (d : db.Conn) (now : Z) (q : gostring)
    (opts : QueryOptions) :
  util.Normalize lower_table q = [] ->
  Search lower_table Log1p d now q opts = ([], None).
Proof.
  intros Hq. unfold Search. rewrite Hq. by destruct (decide _).
Qed.

(** C8. With a non-empty extension allow-set every result returned has its
    [Ext] in the allow-set; with the allow-set [{pdf}] every result has
    [Ext = pdf]. *)
Theorem Search_ext_filter (d : db.Conn) (now : Z) (q : gostring)
    (opts : QueryOptions) :
  ExtFilter opts <> ∅ ->
  Forall (fun r => Ext r ∈ ExtFilter opts)
         (Search lower_table Log1p d now q opts).1.
Proof.
  intros Hne. apply Forall_forall. intros r Hr.
  apply Search_result_row in Hr as (rows & row & Hc & Hrow & ->).
  destruct (candidates_rows _ _ _ _ _ _ Hc Hrow) as (_ & _ & He).
  cbn. by apply He.
Qed.

(** C3. The score [Search] computes for every candidate of the shortlist,
    and so the score of every result it returns, is the sum of the six
    terms of [six_terms]: 6.0 for a substring match, 2.2 per query token
    found among the filename's tokens, 2.5 for a prefix match, 4.0 times the
    trigram Jaccard similarity, 1.5/(1 + ln(1 + ageDays)) and
    0.15/(1 + len/40).  [now - mtime] is taken to fit 64 bits. *)
Theorem score_six_terms (d : db.Conn) (now : Z) (q : gostring)
    (opts : QueryOptions) (rows : list db.FileRow) :
  let qNorm := util.Normalize lower_table q in
  let qTokens := util.Tokenize qNorm in
  let fits (m : Z) :=
    - 9223372036854775808 <= now - m < 9223372036854775808 in
  candidates d qNorm qTokens opts = inl rows ->
  Forall (fun row =>
            fits (db.Mtime row) ->
            (Score (rank lower_table Log1p qNorm qTokens (util.Trigrams qNorm)
                      now (scan row))
             == six_terms qNorm qTokens now (db.Filename row) (db.Mtime row))%Q)
         rows
  /\ Forall (fun r =>
               fits (Mtime r) ->
               (Score r == six_terms qNorm qTokens now (Filename r) (Mtime r))%Q)
            (Search lower_table Log1p d now q opts).1.
Proof.
  intros qNorm qTokens fits Hc. split.
  - apply Forall_forall. intros row _ Hfit. by apply rank_score.
  - apply Forall_forall. intros r Hr.
    apply Search_result_row in Hr as (rows' & row & _ & _ & ->).
    destruct (rank_fields qNorm qTokens (util.Trigrams qNorm) now (scan row))
      as (_ & Hf & _ & Hm & _).
    fold qNorm. fold qTokens. rewrite Hf, Hm. apply rank_score.
Qed.

(** C1. The results of [Search] are the first [limit] entries (30 when the
    option is not positive) of the scored shortlist sorted by [mtime]
    descending, then by score descending, candidates of equal [mtime] and
    score staying in shortlist order; so a result never follows one of an
    earlier [mtime], whatever the scores. *)
Theorem Search_order (d : db.Conn) (now : Z) (q : gostring)
    (opts : QueryOptions) (rows : list db.FileRow) :
  let qNorm := util.Normalize lower_table q in
  let results := (Search lower_table Log1p d now q opts).1 in
  qNorm <> [] ->
  candidates d qNorm (util.Tokenize qNorm) opts = inl rows ->
  exists sorted,
    Permutation sorted (scored now qNorm rows)
    /\ StronglySorted ranks_before sorted
    /\ (forall m s, filter (same_key m s) sorted
                    = filter (same_key m s) (scored now qNorm rows))
    /\ (forall l, Permutation l (scored now qNorm rows) ->
                  StronglySorted ranks_before l ->
                  (forall m s, filter (same_key m s) l
                               = filter (same_key m s) (scored now qNorm rows)) ->
                  l = sorted)
    /\ results = take (Z.to_nat (effective_limit opts)) sorted
    /\ Z.of_nat (length results) <= effective_limit opts
    /\ StronglySorted ranks_before results
    /\ (forall i j a b, (i < j)%nat ->
          results !! i = Some a -> results !! j = Some b -> Mtime b <= Mtime a).
Proof.
  intros qNorm results Hq Hc. subst results.
  rewrite (Search_unfold d now q opts rows Hq Hc). cbn [fst].
  destruct (ranking_spec (scored now qNorm rows)) as (Hp & Hs & Hf & Hu).
  exists (gosort.SliceStable less (scored now qNorm rows)). split_and!; try done.
  - rewrite length_take. unfold effective_limit.
    destruct (Z.leb_spec (Limit opts) 0); lia.
  - by apply StronglySorted_take.
  - intros i j a b Hij Ha Hb.
    pose proof (StronglySorted_at _ _ i j a b
                  (StronglySorted_take _ _ _ Hs) Hij Ha Hb) as [?|[? _]]; lia.
Qed.

End Facts.

(** *** The model run on a catalog *)

Lemma Search_empty_query_witness :
  Search ascii_only_table log1p_upper unreachable 6000
    (str " _-. ") only_pdf = ([], None).
Proof.
  apply (Search_empty_query ascii_only_table log1p_upper).
  vm_compute. reflexivity.
Defined.

Lemma Search_ext_filter_witness :
  Forall (fun r => Ext r ∈ ({[ str "pdf" ]} : gset gostring))
    (Search ascii_only_table log1p_upper sample 6000
       (str "report") only_pdf).1.
Proof.
  apply (Search_ext_filter ascii_only_table log1p_upper
           sample 6000 (str "report") only_pdf).
  cbn [ExtFilter only_pdf]. apply (non_empty_singleton_L (C:=gset gostring)).
Defined.

Lemma score_six_terms_witness :
  Forall (fun r =>
            - 9223372036854775808 <= 6000 - Mtime r < 9223372036854775808 ->
            (Score r == six_terms ascii_only_table log1p_upper
                          (str "report") [str "report"] 6000
                          (Filename r) (Mtime r))%Q)
    (Search ascii_only_table log1p_upper sample 6000
       (str "Report") DefaultQueryOptions).1.
Proof.
  apply (score_six_terms ascii_only_table log1p_upper
           sample 6000 (str "Report") DefaultQueryOptions sample_shortlist).
  vm_compute. reflexivity.
Defined.

Lemma Search_order_witness :
  exists sorted,
    Permutation sorted
      (scored ascii_only_table log1p_upper 6000
         (str "report") sample_shortlist)
    /\ (Search ascii_only_table log1p_upper sample 6000
          (str "Report") DefaultQueryOptions).1 = take 30 sorted
    /\ StronglySorted ranks_before sorted.
Proof.
  destruct (Search_order ascii_only_table log1p_upper
              sample 6000 (str "Report") DefaultQueryOptions sample_shortlist)
    as (sorted & Hp & Hs & _ & _ & Hr & _).
  - vm_compute. discriminate.
  - vm_compute. reflexivity.
  - exists sorted. split_and!; [exact Hp|exact Hr|exact Hs].
Defined.

(** The ranking the model computes on the sample: recency first. *)
Example sample_ranking :
  map Path (Search ascii_only_table log1p_upper sample 6000
              (str "Report") DefaultQueryOptions).1
  = map str ["/d/tax report.pdf"; "/d/report.txt"; "/d/Report_Final.pdf";
             "/d/report2023.pdf"]%string.
Proof. vm_compute. reflexivity. Qed.

End search_facts.

(** ** The reconciliation pass *)

Module indexer_facts.
Import utf8 filepath indexer samples.

(** Induction over a directory tree. *)
Lemma Node_tree_ind (P : Node -> Prop) :
  (forall info, P (File info)) ->
  (forall readErr entries,
     Forall (fun e : gostring * Node => P e.2) entries -> P (Dir readErr entries)) ->
  forall d, P d.
Proof.
  intros HF HD. fix IH 1. intros [info|readErr entries]; [apply HF|].
  apply HD. induction entries as [|[n d] es IHes]; constructor; [apply IH|apply IHes].
Qed.

(** The state after one upsert that went through. *)
Definition push (row : db.FileRow) (st : State) : State :=
  {| rows := upsert row (rows st);
     indexed := int64.wrap64 (indexed st + 1);
     upserted := upserted st ++ [db.Path row] |}.

Lemma elem_of_upsert (row r : db.FileRow) (rs : list db.FileRow) :
  r ∈ upsert row rs <->
    r = row \/ (r ∈ rs /\ db.Path r <> db.Path row).
Proof.
  unfold upsert.
  destruct (existsb _ rs) eqn:He.
  - apply existsb_exists in He as (r0 & Hr0 & Hp).
    apply bool_decide_eq_true in Hp. apply list_elem_of_In in Hr0.
    rewrite list_elem_of_fmap. split.
    + intros (y & -> & Hy). destruct (decide (db.Path y = db.Path row)); [by left|].
      by right.
    + intros [->|[Hr Hne]].
      * exists r0. by rewrite decide_True.
      * exists r. by rewrite decide_False.
  - rewrite elem_of_app, list_elem_of_singleton. split.
    + intros [Hr| ->]; [|by left]. right. split; [done|]. intros Hp.
      assert (existsb (fun r => bool_decide (db.Path r = db.Path row)) rs = true)
        as Hex; [|congruence].
      apply existsb_exists. exists r. split; [by apply list_elem_of_In|].
      by apply bool_decide_eq_true.
    + intros [->|[? _]]; [by right|by left].
Qed.

Lemma upsert_paths (row : db.FileRow) (rs : list db.FileRow) :
  map db.Path (upsert row rs) = map db.Path rs
  \/ ((db.Path row ∉ map db.Path rs)
      /\ map db.Path (upsert row rs) = map db.Path rs ++ [db.Path row]).
Proof.
  unfold upsert. destruct (existsb _ rs) eqn:He.
  - left. clear He. induction rs as [|r rs IH]; [done|]. simpl. rewrite IH.
    destruct (decide (db.Path r = db.Path row)) as [->|]; done.
  - right. split; [|by rewrite map_app].
    intros Hin. apply list_elem_of_fmap in Hin as (r & Hp & Hr).
    assert (existsb (fun r => bool_decide (db.Path r = db.Path row)) rs = true)
      as Hex; [|congruence].
    apply existsb_exists. exists r. split; [by apply list_elem_of_In|].
    by apply bool_decide_eq_true.
Qed.

Section Walk.

Variable lower_table : rune -> rune.
Variable w : World.
Variable ix : Options.
Variable flt : db.Faults.
Variable gen : Z.

#[local] Abbreviation walkFn := (indexer.walkFn lower_table ix flt gen).
#[local] Abbreviation walkDir := (indexer.walkDir lower_table ix flt gen).
#[local] Abbreviation WalkDir := (indexer.WalkDir lower_table ix flt gen).
#[local] Abbreviation Run := (indexer.Run lower_table w ix flt gen).

(** The loop of [walkDir] over the entries of a directory. *)
Fixpoint walk_entries (path : gostring) (es : list (gostring * Node)) (st : State)
    : State :=
  match es with
  | [] => st
  | (name1, d1) :: es' =>
    let '(st', act') := walkDir (Join path name1) name1 d1 st in
    match act' with
    | SkipDir => st'
    | Continue => walk_entries path es' st'
    end
  end.

(** A row as [walkFn] writes it for the file [name] at [path]. *)
Definition written (path name : gostring) (row : db.FileRow) : Prop :=
  db.Path row = path /\ db.Filename row = name /\ db.SeenGen row = gen
  /\ db.IsDir row = false
  /\ db.upsert_fails flt path = false
  /\ (IncludeHidden ix = false -> gostrings.HasPrefix name (str ".") = false).

(** [walkFn] leaves the state alone or pushes one row; only a directory is
    answered with [SkipDir]. *)
Lemma walkFn_cases (st : State) (path name : gostring) (d : Node) (walkErr : bool) :
  (exists act, walkFn st path name d walkErr = (st, act)
               /\ (act = SkipDir -> exists e es, d = Dir e es))
  \/ (exists row info, d = File info /\ written path name row
                       /\ walkFn st path name d walkErr = (push row st, Continue)).
Proof.
  unfold indexer.walkFn. destruct walkErr; [left; by exists Continue|].
  destruct d as [info|e es].
  - destruct (negb (IncludeHidden ix) && gostrings.HasPrefix name (str ".")) eqn:Hh;
      [left; by exists Continue|].
    destruct ((0 <? size (OnlyExtensions ix))%nat && _); [left; by exists Continue|].
    destruct info as [info|]; [|left; by exists Continue].
    destruct (IsSymlink info && negb (FollowSymlinks ix)); [left; by exists Continue|].
    destruct (db.upsert_fails flt path) eqn:Hu; [left; by exists Continue|].
    right.
    exists {| db.Path := path; db.Filename := name;
              db.FilenameNorm := util.Normalize lower_table name;
              db.Ext := util.ExtLower lower_table name;
              db.Mtime := ModTime info; db.Size := FSize info;
              db.IsDir := false; db.SeenGen := gen |}, (Some info).
    split; [done|]. split; [|reflexivity].
    unfold written. cbn. split_and!; try done.
    intros Hi. rewrite Hi in Hh. done.
  - left. repeat case_match; eexists; (split; [done|]); intros; by eexists _, _.
Qed.

Lemma walkFn_dir (st : State) (path name : gostring) (e : bool)
    (es : list (gostring * Node)) (walkErr : bool) :
  exists act, walkFn st path name (Dir e es) walkErr = (st, act).
Proof.
  destruct (walkFn_cases st path name (Dir e es) walkErr)
    as [(act & H & _)|(row & info & [=] & _)].
  by exists act.
Qed.

Lemma walkDir_file (path name : gostring) (info : option FileInfo) (st : State) :
  walkDir path name (File info) st = walkFn st path name (File info) false.
Proof. cbn [indexer.walkDir]. by destruct (walkFn _ _ _ _ _). Qed.

Lemma walkDir_dir (path name : gostring) (e : bool)
    (es : list (gostring * Node)) (st : State) :
  walkDir path name (Dir e es) st =
    match (walkFn st path name (Dir e es) false).2 with
    | SkipDir => (st, Continue)
    | Continue =>
      match (if e then (walkFn st path name (Dir e es) true).2 else Continue) with
      | SkipDir => (st, Continue)
      | Continue => (walk_entries path es st, Continue)
      end
    end.
Proof.
  cbn [indexer.walkDir].
  destruct (walkFn_dir st path name e es false) as [act ->]. cbn [snd].
  destruct act; [|done].
  assert (forall st', (fix loop (es0 : list (gostring * Node)) (st0 : State) : State :=
            match es0 with
            | [] => st0
            | (name1, d1) :: es' =>
              let '(st', act') := walkDir (Join path name1) name1 d1 st0 in
              match act' with
              | SkipDir => st'
              | Continue => loop es' st'
              end
            end) es st' = walk_entries path es st') as Hloop.
  { induction es as [|[n d] es IH]; intros st'; [done|]. cbn [walk_entries].
    destruct (walkDir (Join path n) n d st') as [st'' []]; [apply IH|done]. }
  destruct e.
  - destruct (walkFn_dir st path name true es true) as [act2 ->]. cbn [snd].
    destruct act2; [|done]. by rewrite Hloop.
  - by rewrite Hloop.
Qed.

(** Whatever every push keeps, the walk keeps. *)
Lemma walkDir_keeps (P : State -> Prop) :
  (forall st path name row, P st -> written path name row -> P (push row st)) ->
  forall d path name st, P st -> P (walkDir path name d st).1.
Proof.
  intros Hpush. induction d as [info|e es IH] using Node_tree_ind;
    intros path name st Hst.
  - rewrite walkDir_file.
    destruct (walkFn_cases st path name (File info) false)
      as [(act & -> & _)|(row & info' & _ & Hw & ->)]; cbn [fst]; [done|].
    by eapply Hpush.
  - rewrite walkDir_dir.
    assert (P (walk_entries path es st)) as Hes.
    { clear -IH Hst. revert st Hst. induction IH as [|[n d] es Hd _ IHes];
        intros st Hst; [done|]. cbn [walk_entries].
      specialize (Hd (Join path n) n st Hst). cbn [snd] in Hd.
      destruct (walkDir (Join path n) n d st) as [st' []]; cbn [fst] in Hd;
        [by apply IHes|done]. }
    repeat case_match; done.
Qed.

Lemma visit_root_keeps (P : State -> Prop) (acc : State * list gostring)
    (root : gostring) :
  (forall st path name row, P st -> written path name row -> P (push row st)) ->
  P acc.1 -> P (visit_root lower_table w ix flt gen acc root).1.
Proof.
  intros Hpush Hacc. destruct acc as [st log]. cbn [visit_root fst] in *.
  destruct (stat w _); [|done]. cbn [fst]. unfold indexer.WalkDir.
  by apply walkDir_keeps.
Qed.

Lemma roots_keep (P : State -> Prop) (roots : list gostring)
    (acc : State * list gostring) :
  (forall st path name row, P st -> written path name row -> P (push row st)) ->
  P acc.1 -> P (foldl (visit_root lower_table w ix flt gen) acc roots).1.
Proof.
  intros Hpush. revert acc. induction roots as [|root roots IH]; intros acc Hacc;
    [done|]. cbn [foldl]. by apply IH, visit_root_keeps.
Qed.

(** The state [Run] reaches after the loop over the roots. *)
Definition walked (tx : list db.FileRow) : State * list gostring :=
  foldl (visit_root lower_table w ix flt gen)
        ({| rows := tx; indexed := 0; upserted := [] |}, []) (Roots ix).

Lemma Run_committed (tx : list db.FileRow) :
  err (Run tx) = None ->
  Roots ix <> [] /\ db.prepare_fails flt = false /\ db.sweep_fails flt = false
  /\ Run tx = {| count := indexed (walked tx).1; err := None;
                 tx_rows := sweep gen (rows (walked tx).1);
                 stderr := (walked tx).2; seen := upserted (walked tx).1 |}.
Proof.
  unfold indexer.Run, walked.
  destruct (Roots ix) as [|root roots]; [done|]. cbn [length Nat.eqb].
  destruct (db.prepare_fails flt); [done|].
  destruct (foldl _ _ _) as [st log].
  destruct (db.sweep_fails flt); [done|]. done.
Qed.

(** Each row is either stamped [gen] and upserted in this pass, or a row
    the pass found and did not touch; every upserted path has its row. *)
Definition reconciled (tx : list db.FileRow) (st : State) : Prop :=
  (forall r, r ∈ rows st ->
     (db.SeenGen r = gen /\ db.Path r ∈ upserted st)
     \/ (r ∈ tx /\ db.Path r ∉ upserted st))
  /\ (forall p, p ∈ upserted st -> exists r, r ∈ rows st /\ db.Path r = p).

Lemma reconciled_push (tx : list db.FileRow) (st : State)
    (path name : gostring) (row : db.FileRow) :
  reconciled tx st -> written path name row -> reconciled tx (push row st).
Proof.
  intros [H1 H2] (Hp & _ & Hg & _). split; cbn [push rows upserted].
  - intros r Hr. apply elem_of_upsert in Hr as [->|[Hr Hne]].
    + left. split; [done|]. apply elem_of_app. right. by apply list_elem_of_singleton.
    + destruct (H1 r Hr) as [[? ?]|[? Hn]].
      * left. split; [done|]. apply elem_of_app. by left.
      * right. split; [done|]. rewrite elem_of_app, list_elem_of_singleton.
        intros [?|?]; [done|congruence].
  - intros p Hin. apply elem_of_app in Hin as [Hin|Hin].
    + destruct (H2 p Hin) as (r & Hr & <-).
      destruct (decide (db.Path r = db.Path row)) as [He|Hne].
      * exists row. split; [|done]. apply elem_of_upsert. by left.
      * exists r. split; [|done]. apply elem_of_upsert. by right.
    + apply list_elem_of_singleton in Hin as ->. exists row. split; [|done].
      apply elem_of_upsert. by left.
Qed.

Lemma distinct_push (st : State) (path name : gostring) (row : db.FileRow) :
  NoDup (map db.Path (rows st)) -> written path name row ->
  NoDup (map db.Path (rows (push row st))).
Proof.
  intros Hn _. cbn [push rows].
  destruct (upsert_paths row (rows st)) as [->|[Hnew ->]]; [done|].
  apply NoDup_app. split_and!; [done| |apply NoDup_singleton].
  intros p Hp Hp'. apply list_elem_of_singleton in Hp' as ->. done.
Qed.

(** C2 (amended). When no row carries [seen_gen = g] before the pass, then
    after a pass with generation [g] that commits every row left has
    [seen_gen = g], the paths of the rows are exactly the paths upserted
    during the pass, every row whose path was not upserted is gone, and
    paths stay unique. *)
Theorem Run_generation_exact (tx : list db.FileRow) :
  (forall r, r ∈ tx -> db.SeenGen r <> gen) ->
  err (Run tx) = None ->
  Forall (fun r => db.SeenGen r = gen) (tx_rows (Run tx))
  /\ (forall p, p ∈ map db.Path (tx_rows (Run tx)) <-> p ∈ seen (Run tx))
  /\ (forall r, r ∈ tx -> db.Path r ∉ seen (Run tx) ->
                db.Path r ∉ map db.Path (tx_rows (Run tx)))
  /\ (NoDup (map db.Path tx) -> NoDup (map db.Path (tx_rows (Run tx)))).
Proof.
  intros Hfresh Herr.
  destruct (Run_committed tx Herr) as (_ & _ & _ & ->). cbn [tx_rows seen].
  assert (reconciled tx (walked tx).1) as [H1 H2].
  { unfold walked. apply (roots_keep (reconciled tx)); [apply reconciled_push|].
    split; cbn; [intros r Hr; right; split; [done|apply not_elem_of_nil]|].
    intros p Hp. by apply elem_of_nil in Hp. }
  assert (forall p, p ∈ map db.Path (sweep gen (rows (walked tx).1))
                    <-> p ∈ upserted (walked tx).1) as Hiff.
  { intros p. unfold sweep. rewrite list_elem_of_fmap. split.
    - intros (r & -> & Hr). apply list_elem_of_filter in Hr as [Hg Hr].
      destruct (H1 r Hr) as [[_ ?]|[Htx _]]; [done|]. by apply Hfresh in Htx.
    - intros Hp. destruct (H2 p Hp) as (r & Hr & <-). exists r. split; [done|].
      apply list_elem_of_filter. split; [|done].
      destruct (H1 r Hr) as [[? _]|[_ ?]]; done. }
  split_and!.
  - apply Forall_forall. intros r Hr. unfold sweep in Hr.
    by apply list_elem_of_filter in Hr as [? _].
  - exact Hiff.
  - intros r _ Hn Hin. by apply Hiff in Hin.
  - intros Hnd. apply (sublist_NoDup _ (map db.Path (rows (walked tx).1))).
    + unfold walked. apply (roots_keep (fun st => NoDup (map db.Path (rows st))));
        [apply distinct_push|done].
    + unfold sweep. apply (fmap_sublist db.Path _ _ (sublist_filter _ _)).
Qed.

(** Without the condition on [g]: every row left carries [seen_gen = g]. *)
Lemma Run_rows_stamped (tx : list db.FileRow) :
  err (Run tx) = None ->
  Forall (fun r => db.SeenGen r = gen) (tx_rows (Run tx)).
Proof.
  intros Herr. destruct (Run_committed tx Herr) as (_ & _ & _ & ->).
  cbn [tx_rows]. apply Forall_forall. intros r Hr.
  by apply list_elem_of_filter in Hr as [? _].
Qed.

(** The root as [Run] hands it to [os.Stat]. *)
Definition resolved (root : gostring) : gostring := Clean (expandHome w root).

Lemma roots_skipped (roots : list gostring) (st : State) (log : list gostring) :
  Forall (fun root => stat w (resolved root) = None) roots ->
  foldl (visit_root lower_table w ix flt gen) (st, log) roots
  = (st, log ++ map resolved roots).
Proof.
  intros H. revert log. induction H as [|root roots Hr _ IH]; intros log.
  - by rewrite app_nil_r.
  - cbn [foldl visit_root]. fold (resolved root). rewrite Hr, IH.
    by rewrite <- app_assoc.
Qed.

(** C4 (amended). When every configured root is unavailable, [Run] reports
    each root as skipped on standard error, upserts nothing, still sweeps,
    and returns the count 0 with no error: the values returned are those of
    a pass that found no file to index. *)
Theorem Run_no_usable_root (tx : list db.FileRow) :
  Roots ix <> [] ->
  db.prepare_fails flt = false ->
  db.sweep_fails flt = false ->
  Forall (fun root => stat w (resolved root) = None) (Roots ix) ->
  Run tx = {| count := 0; err := None; tx_rows := sweep gen tx;
              stderr := map resolved (Roots ix); seen := [] |}.
Proof.
  intros Hne Hp Hs Hall. unfold indexer.Run.
  destruct (Roots ix) as [|root roots] eqn:Hroots; [done|]. cbn [length Nat.eqb].
  rewrite Hp, roots_skipped by done. by rewrite Hs.
Qed.

Lemma ignoreSet_spec (name : gostring) :
  name ∈ ignoreSet ix <-> name ∈ IgnoreDirs ix.
Proof.
  unfold ignoreSet. rewrite search_facts.token_set, elem_of_empty. tauto.
Qed.

(** Rows that were there before the pass, or that name a visible file. *)
Definition visible_or_old (tx : list db.FileRow) (st : State) : Prop :=
  Forall (fun r => r ∈ tx \/ gostrings.HasPrefix (db.Filename r) (str ".") = false)
         (rows st).

Lemma visible_push (tx : list db.FileRow) (st : State)
    (path name : gostring) (row : db.FileRow) :
  IncludeHidden ix = false ->
  visible_or_old tx st -> written path name row -> visible_or_old tx (push row st).
Proof.
  intros Hh Hst (_ & Hn & _ & _ & _ & Hv). unfold visible_or_old in *.
  apply Forall_forall. intros r Hr. cbn [push rows] in Hr.
  apply elem_of_upsert in Hr as [->|[Hr _]].
  - right. rewrite Hn. by apply Hv.
  - by eapply Forall_forall in Hst.
Qed.

(** C5 (amended). With [includeHidden] false a file whose name starts with
    a dot is skipped, a directory whose name starts with a dot and whose
    path is not ["."] is pruned with all below it, and so no row written by
    the pass names such a file; the directory at the path ["."], the root
    when it is the current directory, is read and its entries are walked
    (unless ["."] is an ignored name). *)
Theorem hidden_entries_skipped :
  IncludeHidden ix = false ->
  (forall st path name info,
     gostrings.HasPrefix name (str ".") = true ->
     walkDir path name (File info) st = (st, Continue))
  /\ (forall st path name e es,
        gostrings.HasPrefix name (str ".") = true -> path <> str "." ->
        walkDir path name (Dir e es) st = (st, Continue))
  /\ (forall st e es,
        str "." ∉ IgnoreDirs ix ->
        WalkDir (str ".") (Dir e es) st = walk_entries (str ".") es st)
  /\ (forall tx,
        Forall (fun r => r ∈ tx
                         \/ gostrings.HasPrefix (db.Filename r) (str ".") = false)
               (tx_rows (Run tx))).
Proof.
  intros Hh. split_and!.
  - intros st path name info Hdot. rewrite walkDir_file.
    unfold indexer.walkFn. by rewrite Hh, Hdot.
  - intros st path name e es Hdot Hpath. rewrite walkDir_dir.
    unfold indexer.walkFn. rewrite Hh, Hdot. cbn [negb andb].
    rewrite bool_decide_eq_false_2 by done. cbn [negb].
    by destruct (decide (name ∈ ignoreSet ix)).
  - intros st e es Hign. unfold indexer.WalkDir.
    change (basename (str ".")) with (str "."). rewrite walkDir_dir.
    unfold indexer.walkFn. rewrite Hh.
    rewrite decide_False by (by rewrite ignoreSet_spec).
    rewrite bool_decide_eq_true_2 by done. cbn. by destruct e.
  - intros tx.
    assert (visible_or_old tx (walked tx).1) as Hw.
    { unfold walked. apply (roots_keep (visible_or_old tx));
        [intros *; by apply visible_push|].
      apply Forall_forall. intros r Hr. by left. }
    assert (Forall (fun r => r ∈ tx
              \/ gostrings.HasPrefix (db.Filename r) (str ".") = false) tx) as Htx.
    { apply Forall_forall. intros r Hr. by left. }
    unfold indexer.Run. fold (walked tx).
    destruct (length (Roots ix) =? 0)%nat; [done|].
    destruct (db.prepare_fails flt); [done|].
    destruct (walked tx) as [st log]. cbn [fst] in Hw.
    destruct (db.sweep_fails flt); cbn [tx_rows]; [done|].
    unfold sweep. apply Forall_forall. intros r Hr.
    apply list_elem_of_filter in Hr as [_ Hr]. by eapply Forall_forall in Hw.
Qed.

End Walk.

(** *** The model run on file systems *)

(** C2, as stated, fails when the generation is not new: a second pass
    with the generation of the first, run after [old.txt] was removed,
    commits, upserts nothing, and leaves the row of [old.txt] in place with
    [seen_gen = 7]. *)
Lemma same_generation_keeps_unseen_row :
  err first_pass = None
  /\ err same_gen_pass = None
  /\ seen same_gen_pass = []
  /\ map db.Path (tx_rows same_gen_pass) = [str "/r/old.txt"]
  /\ map db.SeenGen (tx_rows same_gen_pass) = [7]
  /\ ~ (forall p, p ∈ map db.Path (tx_rows same_gen_pass) <-> p ∈ seen same_gen_pass).
Proof.
  split_and!; try (vm_compute; reflexivity).
  intros H. specialize (H (str "/r/old.txt")).
  assert (str "/r/old.txt" ∈ seen same_gen_pass) as Hin.
  { apply H. vm_compute. apply list_elem_of_here. }
  vm_compute in Hin. by apply elem_of_nil in Hin.
Qed.

Lemma Run_generation_exact_witness :
  (forall p, p ∈ map db.Path (tx_rows next_gen_pass) <-> p ∈ seen next_gen_pass)
  /\ tx_rows next_gen_pass = [].
Proof.
  destruct (Run_generation_exact ascii_only_table emptied (options ["/r"]%string false)
              db.no_faults 8 (tx_rows first_pass)) as (_ & H & _).
  - apply Forall_forall. vm_compute. repeat constructor. discriminate.
  - vm_compute. reflexivity.
  - split; [exact H|]. vm_compute. reflexivity.
Defined.

(** C4, as stated, fails: with its only root missing the pass returns
    count 0 and no error, after sweeping every row; what it returns and what
    it leaves in the table are what the pass over an existing, empty root
    returns and leaves.  Only the line on standard error differs. *)
Lemma all_roots_missing_looks_successful :
  Forall (fun root => stat nothing_there (resolved nothing_there root) = None)
         (Roots (options ["/missing"]%string false))
  /\ err no_root_pass = None
  /\ count no_root_pass = 0
  /\ tx_rows no_root_pass = []
  /\ (count no_root_pass, err no_root_pass, tx_rows no_root_pass)
     = (count empty_root_pass, err empty_root_pass, tx_rows empty_root_pass)
  /\ stderr no_root_pass = [str "/missing"]
  /\ stderr empty_root_pass = [].
Proof.
  split_and!; try (vm_compute; reflexivity).
  vm_compute. repeat constructor.
Qed.

Lemma Run_no_usable_root_witness :
  no_root_pass = {| count := 0; err := None; tx_rows := [];
                    stderr := [str "/missing"]; seen := [] |}.
Proof.
  unfold no_root_pass.
  rewrite (Run_no_usable_root ascii_only_table nothing_there (options ["/missing"]%string false)
             db.no_faults 2 sample_files).
  - vm_compute. reflexivity.
  - vm_compute. discriminate.
  - reflexivity.
  - reflexivity.
  - vm_compute. repeat constructor.
Defined.

(** C5, as stated, fails for a root whose name starts with a dot: the root
    [~/.cfg] exists and holds the visible file [a.txt], and with
    [includeHidden] false the walk leaves the root without reading it, where
    walking its entries would upsert [a.txt]; the pass upserts nothing,
    while with [includeHidden] true it upserts [a.txt]. *)
Lemma hidden_root_is_pruned :
  let root := str "/home/u/.cfg" in
  let entries := [(str "a.txt", regular 10)] in
  let hide := options ["~/.cfg"]%string false in
  let show := options ["~/.cfg"]%string true in
  let st0 := {| rows := []; indexed := 0; upserted := [] |} in
  resolved dot_root (str "~/.cfg") = root
  /\ basename root = str ".cfg"
  /\ stat dot_root root = Some (Dir false entries)
  /\ WalkDir ascii_only_table hide db.no_faults 1 root (Dir false entries) st0 = st0
  /\ upserted (walk_entries ascii_only_table hide db.no_faults 1 root entries st0)
     = [str "/home/u/.cfg/a.txt"]
  /\ seen (Run ascii_only_table dot_root hide db.no_faults 1 []) = []
  /\ stderr (Run ascii_only_table dot_root hide db.no_faults 1 []) = []
  /\ seen (Run ascii_only_table dot_root show db.no_faults 1 [])
     = [str "/home/u/.cfg/a.txt"].
Proof. cbv zeta. split_and!; vm_compute; reflexivity. Qed.

Lemma hidden_entries_skipped_witness :
  Forall (fun r => r ∈ [] \/ gostrings.HasPrefix (db.Filename r) (str ".") = false)
         (tx_rows (Run ascii_only_table here (options ["."]%string false) db.no_faults 1 []))
  /\ seen (Run ascii_only_table here (options ["."]%string false) db.no_faults 1 [])
     = [str "a.txt"].
Proof.
  destruct (hidden_entries_skipped ascii_only_table here (options ["."]%string false)
              db.no_faults 1) as (_ & _ & _ & H).
  - reflexivity.
  - split; [apply H|]. vm_compute. reflexivity.
Defined.

End indexer_facts.

(** * Further properties of the packages *)

(** ** Strings cut into runes, parts and tokens *)

Module strings_facts.
Import utf8 gostrings util utf8_facts normalize_facts.

(** [s] occurs in [t] as a run of consecutive bytes. *)
Definition infix (s t : gostring) : Prop := exists pre post, t = pre ++ s ++ post.

Lemma infix_refl (s : gostring) : infix s s.
Proof. exists [], []. by rewrite app_nil_r. Qed.

Lemma infix_trans (s t u : gostring) : infix s t -> infix t u -> infix s u.
Proof.
  intros (a & b & ->) (c & d & ->). exists (c ++ a), (b ++ d).
  by rewrite <- !app_assoc.
Qed.

Lemma infix_elem (s t : gostring) (c : ascii) : infix s t -> c ∈ s -> c ∈ t.
Proof. intros (a & b & ->) Hc. rewrite !elem_of_app. auto. Qed.

(** The pieces [segments] cuts a string into make up the string. *)
Lemma segments_concat (s : gostring) : flat_map snd (segments s) = s.
Proof.
  remember (length s) as n eqn:Hn. revert s Hn.
  induction n as [n IH] using lt_wf_ind. intros s ->.
  destruct s as [|c s]; [done|].
  rewrite segments_cons. cbn [flat_map snd].
  pose proof (DecodeRune_width (c :: s) ltac:(done)).
  rewrite (IH (length (drop (DecodeRune (c :: s)).2 (c :: s)))); [|rewrite length_drop; cbn [length]; lia|done].
  apply take_drop.
Qed.

Lemma TrimSpace_infix (s : gostring) : infix (TrimSpace s) s.
Proof.
  unfold TrimSpace. set (sp := fun x : rune * gostring => unicode.IsSpace x.1).
  set (A := drop_while sp (segments s)). set (B := drop_while sp (rev A)).
  destruct (drop_while_suffix sp (segments s)) as [pre1 H1]. fold A in H1.
  destruct (drop_while_suffix sp (rev A)) as [pre2 H2]. fold B in H2.
  apply (f_equal (@rev _)) in H2. rewrite rev_involutive, rev_app_distr in H2.
  exists (flat_map snd pre1), (flat_map snd (rev pre2)).
  rewrite <- (segments_concat s) at 1. rewrite H1, flat_map_app. f_equal.
  rewrite H2 at 1. by rewrite flat_map_app.
Qed.

Lemma Split_head (s : gostring) :
  exists q qs b, Split s = q :: qs /\ s = q ++ b /\ (space ∉ q).
Proof.
  induction s as [|c s (q & qs & b & Hs & Hq & Hsp)]; cbn [Split].
  - exists [], [], []. split_and!; [done|done|apply not_elem_of_nil].
  - destruct (Ascii.eqb_spec c space) as [->|Hc].
    + exists [], (Split s), (space :: s). split_and!; [done|done|apply not_elem_of_nil].
    + rewrite Hs. exists (c :: q), qs, b. split_and!; [done|by rewrite Hq at 1|].
      intros [?|?]%elem_of_cons; [by subst|done].
Qed.

Lemma Split_parts (s p : gostring) :
  p ∈ Split s -> (space ∉ p) /\ infix p s.
Proof.
  revert p. induction s as [|c s IH]; intros p; cbn [Split].
  - intros ->%list_elem_of_singleton. split; [apply not_elem_of_nil|apply infix_refl].
  - destruct (Ascii.eqb_spec c space) as [->|Hc].
    + intros [->|Hp]%elem_of_cons.
      * split; [apply not_elem_of_nil|]. by exists [], (space :: s).
      * destruct (IH p Hp) as [? (a & b & ->)]. split; [done|].
        by exists (space :: a), b.
    + destruct (Split_head s) as (q & qs & b & Hs & Hq & Hsp). rewrite Hs in *.
      intros [->|Hp]%elem_of_cons.
      * split.
        -- intros [?|?]%elem_of_cons; [by subst|done].
        -- exists [], b. cbn. by rewrite Hq at 1.
      * destruct (IH p) as [? (a & b' & Hab)]; [by apply list_elem_of_further|].
        split; [done|]. exists (c :: a), b'. cbn. by rewrite Hab at 1.
Qed.

End strings_facts.

(** ** Tokens, trigrams and extensions *)

Module util_facts.
Import utf8 gostrings util utf8_facts normalize_facts strings_facts util_sets.

(** A part that [Tokenize] keeps once trimmed. *)
Definition kept (p : gostring) : Prop := p <> [] /\ p ∉ stopwords.

#[export] Instance kept_dec (p : gostring) : Decision (kept p).
Proof. unfold kept. apply _. Defined.

Lemma Tokenize_loop (parts out : list gostring) :
  foldl (fun out p =>
           let p := TrimSpace p in
           if decide (p = []) then out
           else if decide (p ∈ stopwords) then out
           else out ++ [p])
        out parts
  = out ++ filter kept (map TrimSpace parts).
Proof.
  revert out. induction parts as [|p parts IH]; intros out; cbn [foldl map].
  - by rewrite filter_nil, app_nil_r.
  - rewrite IH, filter_cons. unfold kept at 2.
    destruct (decide (TrimSpace p = [])) as [Hp|Hp].
    + destruct (decide _) as [[? _]|_]; done.
    + destruct (decide (TrimSpace p ∈ stopwords)) as [Hs|Hs].
      * destruct (decide _) as [[_ ?]|_]; done.
      * destruct (decide _) as [_|Hn]; [by rewrite <- app_assoc|].
        destruct Hn. done.
Qed.

Lemma Tokenize_filter (norm : gostring) :
  Tokenize norm = filter kept (map TrimSpace (Split norm)).
Proof.
  unfold Tokenize. destruct (decide (norm = [])) as [->|_].
  - vm_compute. reflexivity.
  - apply Tokenize_loop.
Qed.

Lemma infix_not_elem (c : ascii) (s t : gostring) : infix s t -> c ∉ t -> c ∉ s.
Proof. intros (a & b & ->) Hc Hs. apply Hc. set_solver. Qed.

(** X1. Every token [Tokenize] returns is a non-empty piece of consecutive
    bytes of its argument that holds no space byte and is none of the seven
    stop words; the empty string has no tokens. *)
Theorem Tokenize_tokens (norm : gostring) :
  Tokenize [] = []
  /\ Forall (fun t => t <> [] /\ (t ∉ stopwords) /\ (space ∉ t) /\ infix t norm)
            (Tokenize norm).
Proof.
  split; [done|]. rewrite Tokenize_filter. apply Forall_forall. intros t.
  rewrite list_elem_of_filter, list_elem_of_fmap. intros [[Ht Hs] (p & -> & Hp)].
  destruct (Split_parts _ _ Hp) as [Hsp Hin].
  split_and!; [done|done| |].
  - eapply infix_not_elem; [apply TrimSpace_infix|done].
  - eapply infix_trans; [apply TrimSpace_infix|done].
Qed.

(** *** The similarity of two sets *)

Lemma size_pos_Z (a : gset gostring) : size a <> 0%nat -> 0 < Z.of_nat (size a).
Proof. lia. Qed.

Lemma inter_le_union (a b : gset gostring) : (size (a ∩ b) <= size (a ∪ b))%nat.
Proof.
  apply subseteq_size. etrans; [apply intersection_subseteq_l|apply union_subseteq_l].
Qed.

Lemma union_size_pos (a b : gset gostring) :
  size a <> 0%nat -> (0 < size (a ∪ b))%nat.
Proof.
  intros Ha. pose proof (subseteq_size a (a ∪ b) (union_subseteq_l a b)). lia.
Qed.

Lemma Jaccard_cases (a b : gset gostring) :
  (a = ∅ /\ b = ∅ /\ Jaccard a b = 1%Q)
  \/ ((a = ∅ \/ b = ∅) /\ (a <> ∅ \/ b <> ∅) /\ Jaccard a b = 0%Q)
  \/ (a <> ∅ /\ b <> ∅ /\ (0 < size (a ∪ b))%nat
      /\ Jaccard a b
         = (inject_Z (Z.of_nat (size (a ∩ b))) / inject_Z (Z.of_nat (size (a ∪ b))))%Q).
Proof.
  destruct (decide (a = ∅)) as [->|Ha]; [destruct (decide (b = ∅)) as [->|Hb]|].
  - by left.
  - right; left. split_and!; [by left|by right|].
    rewrite Jaccard_sets, size_empty. cbn.
    destruct (size b =? 0)%nat eqn:E; [|done].
    apply Nat.eqb_eq, size_empty_iff in E. by apply leibniz_equiv in E.
  - destruct (decide (b = ∅)) as [->|Hb].
    + right; left. split_and!; [by right|by left|].
      rewrite Jaccard_sets, size_empty. cbn.
      destruct (size a =? 0)%nat eqn:E; [|done].
      apply Nat.eqb_eq, size_empty_iff in E. by apply leibniz_equiv in E.
    + right; right.
      assert (size a <> 0%nat) as Ha'.
      { intros E. apply Ha, leibniz_equiv, size_empty_iff, E. }
      assert (size b <> 0%nat) as Hb'.
      { intros E. apply Hb, leibniz_equiv, size_empty_iff, E. }
      split_and!; [done|done|by apply union_size_pos|].
      by apply search_facts.Jaccard_nonempty.
Qed.

(** X2. [Jaccard] lies between 0 and 1 for all sets. *)
Theorem Jaccard_bounds (a b : gset gostring) : (0 <= Jaccard a b <= 1)%Q.
Proof.
  destruct (Jaccard_cases a b)
    as [(_ & _ & ->)|[(_ & _ & ->)|(_ & _ & Hu & ->)]]; [done|done|].
  pose proof (inter_le_union a b) as Hle.
  assert (0 < inject_Z (Z.of_nat (size (a ∪ b))))%Q as Hpos.
  { rewrite <- (Zlt_Qlt 0). lia. }
  split.
  - apply Qle_shift_div_l; [done|]. rewrite Qmult_0_l, <- (Zle_Qle 0). lia.
  - apply Qle_shift_div_r; [done|]. rewrite Qmult_1_l, <- Zle_Qle. lia.
Qed.

(** X3. [Jaccard a b] is 1 exactly when the two sets are equal (two empty
    sets included), and 0 exactly when they share no element and are not
    both empty. *)
Theorem Jaccard_extremes (a b : gset gostring) :
  ((Jaccard a b == 1)%Q <-> a = b)
  /\ ((Jaccard a b == 0)%Q <-> a ∩ b = ∅ /\ (a <> ∅ \/ b <> ∅)).
Proof.
  destruct (Jaccard_cases a b)
    as [(-> & -> & ->)|[(He & Hn & ->)|(Ha & Hb & Hu & ->)]].
  - split; [done|]. split; [done|]. intros [_ [?|?]]; done.
  - split.
    + split; [done|]. intros ->. destruct He as [->| ->]; destruct Hn; done.
    + split; [|done]. intros _. split; [|done].
      destruct He as [->| ->];
        [apply intersection_empty_l_L|apply intersection_empty_r_L].
  - pose proof (inter_le_union a b) as Hle.
    assert (0 < inject_Z (Z.of_nat (size (a ∪ b))))%Q as Hpos.
    { rewrite <- (Zlt_Qlt 0). lia. }
    assert (~ inject_Z (Z.of_nat (size (a ∪ b))) == 0)%Q as Hnz.
    { intros E. rewrite E in Hpos. by apply Qlt_irrefl in Hpos. }
    split.
    + split.
      * intros E. apply (Qmult_inj_r _ _ _ Hnz) in E.
        rewrite Qmult_1_l, Qmult_comm, Qmult_div_r in E by done.
        apply inject_Z_injective, Nat2Z.inj in E.
        assert (a ∩ b = a ∪ b) as Heq.
        { apply set_subseteq_size_eq; [|lia].
          etrans; [apply intersection_subseteq_l|apply union_subseteq_l]. }
        apply (anti_symm (⊆)).
        -- etrans; [apply union_subseteq_l|]. rewrite <- Heq.
           apply intersection_subseteq_r.
        -- etrans; [apply union_subseteq_r|]. rewrite <- Heq.
           apply intersection_subseteq_l.
      * intros ->.
        rewrite (idemp_L (∩) b). rewrite (idemp_L (∪) b) in *.
        by apply Qmult_inv_r.
    + split.
      * intros E. apply (Qmult_inj_r _ _ _ Hnz) in E.
        rewrite Qmult_0_l, Qmult_comm, Qmult_div_r in E by done.
        apply (inject_Z_injective _ 0), (Nat2Z.inj _ 0) in E.
        split; [|by left]. by apply leibniz_equiv, size_empty_iff.
      * intros [E _]. rewrite E, size_empty. reflexivity.
Qed.

(** *** Trigram sets *)

Lemma size_add_le (m : gset gostring) (x : gostring) :
  (size (m ∪ {[ x ]}) <= size m + 1)%nat.
Proof.
  rewrite size_union_alt.
  pose proof (subseteq_size ({[ x ]} ∖ m) {[ x ]} (subseteq_difference_l _ _ _ (reflexivity _))).
  rewrite size_singleton in *. lia.
Qed.

Lemma windows_size (t : gostring) (n : nat) (m : gset gostring) :
  (size (foldl (fun (m : gset gostring) i => m ∪ {[ take 3 (drop i t) ]}) m (seq 0 n))
   <= size m + n)%nat.
Proof.
  induction n as [|n IH]; [simpl; lia|].
  rewrite seq_S, foldl_app. cbn [foldl Nat.add].
  etrans; [apply size_add_le|]. lia.
Qed.

Lemma window_infix (t : gostring) (i : nat) : infix (take 3 (drop i t)) t.
Proof.
  exists (take i t), (drop 3 (drop i t)). by rewrite take_drop, take_drop.
Qed.

(** X4. [Trigrams s] is never empty and has at most [max 1 (n - 2)]
    elements, where [n] is the number of bytes of [s] that are no space;
    each element is a run of [min 3 n] consecutive such bytes.  So both
    empty-set branches of [Jaccard] are out of reach for two trigram sets:
    their similarity is the size of the intersection over the size of the
    union. *)
Theorem Trigrams_shape (s t : gostring) :
  let n := length (strip_spaces s) in
  Trigrams s <> ∅
  /\ (size (Trigrams s) <= Nat.max 1 (n - 2))%nat
  /\ set_Forall (fun x => (space ∉ x) /\ length x = Nat.min 3 n
                          /\ infix x (strip_spaces s))
                (Trigrams s)
  /\ Jaccard (Trigrams s) (Trigrams t)
     = (inject_Z (Z.of_nat (size (Trigrams s ∩ Trigrams t)))
        / inject_Z (Z.of_nat (size (Trigrams s ∪ Trigrams t))))%Q.
Proof.
  intros n. subst n.
  assert (Hsp : space ∉ strip_spaces s).
  { intros H. apply elem_of_strip_spaces in H. by destruct H. }
  split_and!.
  - intros E. apply (search_facts.Trigrams_size s). by rewrite E, size_empty.
  - unfold Trigrams. destruct (Nat.ltb_spec (length (strip_spaces s)) 3).
    + rewrite size_singleton. lia.
    + etrans; [apply windows_size|]. rewrite size_empty. lia.
  - intros x Hx. apply elem_of_Trigrams in Hx.
    destruct Hx as [[Hlt ->]|(i & Hi & ->)].
    + split_and!; [done|lia|apply infix_refl].
    + split_and!.
      * eapply infix_not_elem; [apply window_infix|done].
      * rewrite length_take, length_drop. lia.
      * apply window_infix.
  - apply search_facts.Jaccard_nonempty; apply search_facts.Trigrams_size.
Qed.

(** *** Extensions *)

Lemma Ext_aux_skip (a b : gostring) (acc : option gostring) :
  exists acc', filepath.Ext_aux (a ++ b) acc = filepath.Ext_aux b acc'.
Proof.
  revert acc. induction a as [|c a IH]; intros acc; [by exists acc|].
  cbn [app filepath.Ext_aux]. apply IH.
Qed.

Lemma Ext_aux_plain (e : gostring) (acc : option gostring) :
  "."%char ∉ e -> "/"%char ∉ e -> filepath.Ext_aux e acc = acc.
Proof.
  revert acc. induction e as [|c e IH]; intros acc Hd Hs; [done|].
  cbn [filepath.Ext_aux].
  destruct (Ascii.eqb_spec c "."%char) as [->|_]; [destruct Hd; left|].
  destruct (Ascii.eqb_spec c "/"%char) as [->|_]; [destruct Hs; left|].
  apply IH; [by intros ?; apply Hd; right|by intros ?; apply Hs; right].
Qed.

Lemma decode_ascii_cons (c : ascii) (s : gostring) :
  is_ascii c -> decode (c :: s) = b2z c :: decode s.
Proof.
  intros Hc. unfold decode. rewrite segments_cons. unfold DecodeRune.
  unfold is_ascii in Hc. destruct (Z.ltb_spec (b2z c) 128); [|lia].
  cbn [fst snd fmap list_fmap]. by change (drop 1 (c :: s)) with s.
Qed.

Section Ext.

Variable lower_table : rune -> rune.

(** X5. For a name whose last element ends in a dot followed by [e], where
    [e] holds no dot and no slash, [ExtLower] is [e] in lower case, without
    the dot; for a last element [e] without any dot it is empty.  So
    [archive.tar.gz] has the extension [gz], [.bashrc] has [bashrc], and
    [Makefile] and [file.] have none. *)
Theorem ExtLower_last_dot (stem e : gostring) :
  "."%char ∉ e -> "/"%char ∉ e ->
  ExtLower lower_table (stem ++ "."%char :: e) = ToLower lower_table e
  /\ ExtLower lower_table e = []
  /\ ExtLower lower_table (stem ++ "/"%char :: e) = [].
Proof.
  intros Hd Hs. unfold ExtLower, filepath.Ext. split_and!.
  - destruct (Ext_aux_skip stem ("."%char :: e) None) as [acc ->].
    cbn [filepath.Ext_aux]. change (Ascii.eqb "." ".") with true. cbn match.
    rewrite Ext_aux_plain by done. cbn [default id].
    assert (gostrings.ToLower lower_table ("."%char :: e)
            = "."%char :: gostrings.ToLower lower_table e) as ->; [|done].
    unfold gostrings.ToLower. by rewrite decode_ascii_cons by (vm_compute; reflexivity).
  - by rewrite Ext_aux_plain.
  - destruct (Ext_aux_skip stem ("/"%char :: e) None) as [acc ->].
    cbn [filepath.Ext_aux]. change (Ascii.eqb "/" ".") with false.
    change (Ascii.eqb "/" "/") with true. cbn match.
    by rewrite Ext_aux_plain.
Qed.

End Ext.

Lemma ExtLower_last_dot_witness :
  ExtLower samples.ascii_only_table (str "archive.tar.GZ") = str "gz"
  /\ ExtLower samples.ascii_only_table (str "GZ") = []
  /\ ExtLower samples.ascii_only_table (str "archive.tar/GZ") = [].
Proof.
  apply (ExtLower_last_dot samples.ascii_only_table (str "archive.tar") (str "GZ")).
  - vm_compute. intros H. repeat (apply elem_of_cons in H as [H|H]; [discriminate|]).
    by apply elem_of_nil in H.
  - vm_compute. intros H. repeat (apply elem_of_cons in H as [H|H]; [discriminate|]).
    by apply elem_of_nil in H.
Defined.

(** *** The shape of a normalized name *)

Section Normal.

Variable lower_table : rune -> rune.

Hypothesis lower_valid :
  forall r, 127 < r -> valid r -> valid (lower_table r).
Hypothesis lower_idem :
  forall r, 127 < r -> valid r ->
    unicode.ToLower lower_table (lower_table r) = lower_table r.

#[local] Abbreviation good := (good lower_table).
#[local] Abbreviation clean := (clean lower_table).

Lemma good_runes (b : bool) (t : list rune) :
  good b t -> Forall (fun r => r = 32 \/ clean r) t.
Proof.
  revert b. induction t as [|x t IH]; intros b H; [constructor|].
  cbn [normalize_facts.good] in H. destruct (Z.eqb_spec x 32) as [->|_].
  - destruct H as [_ H]. constructor; [by left|by eapply IH].
  - destruct H as [Hx H]. constructor; [by right|by eapply IH].
Qed.

Lemma good_head (t : list rune) : good false t -> head t <> Some 32.
Proof.
  destruct t as [|x t]; [done|]. cbn [normalize_facts.good head].
  destruct (Z.eqb_spec x 32) as [->|Hx]; [by intros [? _]|]. congruence.
Qed.

Lemma good_no_last_space (b : bool) (t : list rune) : good b t -> last t <> Some 32.
Proof.
  destruct (decide (t = [])) as [->|Ht]; [done|].
  destruct (exists_last Ht) as (m & y & ->). intros H.
  apply good_last in H. rewrite last_snoc. intros [= ->]. done.
Qed.

Lemma good_single_spaces (b : bool) (t : list rune) (i : nat) :
  good b t -> t !! i = Some 32 -> t !! S i <> Some 32.
Proof.
  revert b i. induction t as [|x t IH]; intros b i H; [done|].
  cbn [normalize_facts.good] in H. destruct i as [|i]; cbn [lookup list_lookup].
  - intros [= ->]. change (32 =? 32) with true in H. cbn match in H.
    destruct H as [_ H]. apply good_head in H. by destruct t.
  - destruct (x =? 32); destruct H as [_ H]; by eapply IH.
Qed.

(** X6. What [Normalize] returns is well-formed UTF-8 in which every rune
    is in lower case and is a space, U+0020, or else neither white space
    nor one of the separators [_], [-] and [.]; spaces stand alone, never
    first, last or next to another space.  This is what [Tokenize] and the
    [LIKE] patterns of [Search] are fed with. *)
Theorem Normalize_normal_form (s : gostring) :
  let rs := decode (Normalize lower_table s) in
  Normalize lower_table s = encode rs
  /\ Forall (fun r =>
               valid r /\ unicode.ToLower lower_table r = r
               /\ (r = 32 \/ (is_spacey r = false /\ unicode.IsSpace r = false)))
            rs
  /\ head rs <> Some 32
  /\ last rs <> Some 32
  /\ (forall i, rs !! i = Some 32 -> rs !! S i <> Some 32).
Proof.
  intros rs. subst rs. rewrite (Normalize_runes lower_table lower_valid).
  set (rs := NR lower_table (decode s)).
  assert (Hv : Forall valid rs) by apply (NR_valid lower_table lower_valid), decode_valid.
  rewrite (decode_encode rs Hv).
  destruct (NR_normal lower_table lower_valid lower_idem (decode s) (decode_valid s))
    as [E|Hg]; fold rs in E || fold rs in Hg.
  - rewrite E. split_and!; done.
  - split_and!; [done| |by apply good_head|by eapply good_no_last_space|].
    + apply good_runes in Hg. rewrite Forall_forall in Hg, Hv. apply Forall_forall.
      intros r Hr. split; [by apply Hv|].
      destruct (Hg r Hr) as [->|(? & ? & ? & ?)]; [split; [done|by left]|].
      split; [done|by right].
    + intros i. by eapply good_single_spaces.
Qed.

End Normal.

Lemma Normalize_normal_form_witness :
  let rs := decode (Normalize samples.ascii_only_table (str " Tax--Report_2023.PDF ")) in
  Normalize samples.ascii_only_table (str " Tax--Report_2023.PDF ") = encode rs
  /\ Forall (fun r =>
               valid r /\ unicode.ToLower samples.ascii_only_table r = r
               /\ (r = 32 \/ (is_spacey r = false /\ unicode.IsSpace r = false)))
            rs
  /\ head rs <> Some 32
  /\ last rs <> Some 32
  /\ (forall i, rs !! i = Some 32 -> rs !! S i <> Some 32).
Proof.
  apply (Normalize_normal_form samples.ascii_only_table).
  - intros r _ Hr. exact Hr.
  - intros r Hr _. unfold unicode.ToLower, samples.ascii_only_table.
    destruct (Z.leb_spec r 127); [lia|reflexivity].
Defined.

End util_facts.

(** ** ASCII bytes as boundaries between runes *)

Module utf8_sync.
Import utf8 utf8_facts.

Lemma first_shape (b0 : Z) (sz : nat) (lo hi : Z) :
  first b0 = Some (sz, lo, hi) -> (sz = 2 \/ sz = 3 \/ sz = 4)%nat /\ 128 <= lo.
Proof.
  unfold first. repeat case_match; intros [= <- <- <-]; lia.
Qed.

Ltac boolean_facts :=
  repeat match goal with
  | H : negb _ = true |- _ => apply negb_true_iff in H
  | H : negb _ = false |- _ => apply negb_false_iff in H
  | H : _ && _ = true |- _ => apply andb_true_iff in H as [? ?]
  | H : (_ <=? _) = true |- _ => apply Z.leb_le in H
  | H : (_ <? _)%nat = true |- _ => apply Nat.ltb_lt in H
  | H : (_ <? _)%nat = false |- _ => apply Nat.ltb_ge in H
  | H : (_ <=? _)%nat = true |- _ => apply Nat.leb_le in H
  | H : (_ <=? _)%nat = false |- _ => apply Nat.leb_gt in H
  end.

Lemma DecodeRune_width_le (s : gostring) : ((DecodeRune s).2 <= length s)%nat.
Proof.
  unfold DecodeRune. destruct s as [|c0 s]; [done|].
  destruct (b2z c0 <? 128); [cbn; lia|].
  destruct (first (b2z c0)) as [[[sz lo] hi]|] eqn:Hf; [|cbn; lia].
  apply first_shape in Hf as [Hsz _].
  repeat case_match; boolean_facts; cbn [snd length] in *; lia.
Qed.

(** An ASCII byte after [x :: a] does not change how [x :: a] starts. *)
Lemma DecodeRune_sync (a b : gostring) (x c : ascii) :
  is_ascii c -> DecodeRune ((x :: a) ++ c :: b) = DecodeRune (x :: a).
Proof.
  unfold is_ascii. intros Hc. unfold DecodeRune. cbn [app].
  destruct (b2z x <? 128); [done|].
  destruct (first (b2z x)) as [[[sz lo] hi]|] eqn:Hf; [|done].
  apply first_shape in Hf as [Hsz Hlo].
  destruct a as [|y [|z [|u a]]]; cbn [app length]; unfold at_, inrange;
    cbn [nth]; destruct Hsz as [->|[->| ->]]; cbn [Nat.ltb Nat.leb];
    repeat case_match; boolean_facts; try reflexivity; try lia.
Qed.

Lemma segments_app_ascii (a b : gostring) (c : ascii) :
  is_ascii c ->
  segments (a ++ c :: b) = segments a ++ (b2z c, [c]) :: segments b.
Proof.
  intros Hc. remember (length a) as n eqn:Hn. revert a Hn.
  induction n as [n IH] using lt_wf_ind. intros a ->.
  destruct a as [|x a].
  - cbn [app]. rewrite segments_cons. unfold DecodeRune, is_ascii in *.
    destruct (Z.ltb_spec (b2z c) 128); [|lia]. cbn [fst snd].
    by change (drop 1 (c :: b)) with b.
  - change ((x :: a) ++ c :: b) with (x :: (a ++ c :: b)) at 1.
    rewrite (segments_cons x (a ++ c :: b)), (segments_cons x a).
    change (x :: (a ++ c :: b)) with ((x :: a) ++ c :: b).
    rewrite (DecodeRune_sync a b x c Hc).
    pose proof (DecodeRune_width (x :: a) ltac:(done)) as Hw.
    pose proof (DecodeRune_width_le (x :: a)) as Hle.
    set (w := (DecodeRune (x :: a)).2) in *.
    rewrite take_app_le, drop_app_le by done.
    rewrite (IH (length (drop w (x :: a)))); [done| |done].
    rewrite length_drop. cbn [length] in *. lia.
Qed.

Lemma decode_app_ascii (a b : gostring) (c : ascii) :
  is_ascii c -> decode (a ++ c :: b) = decode a ++ b2z c :: decode b.
Proof.
  intros Hc. unfold decode. rewrite segments_app_ascii by done.
  by rewrite fmap_app.
Qed.

End utf8_sync.

(** ** More on what [Search] returns *)

Module search_props.
Import utf8 gostrings search int64 samples search_facts.

Definition with_limit (opts : QueryOptions) (n : Z) : QueryOptions :=
  {| Limit := n; ExtFilter := ExtFilter opts; Shortlist := Shortlist opts |}.

(** The patterns [Search] binds to [filename_norm LIKE ?]. *)
Definition patterns (qNorm : gostring) : list gostring :=
  like_arg qNorm :: map like_arg (util.Tokenize qNorm).

Lemma scan_fields (row : db.FileRow) :
  Path (scan row) = db.Path row /\ Filename (scan row) = db.Filename row
  /\ Ext (scan row) = db.Ext row /\ Mtime (scan row) = db.Mtime row
  /\ Size (scan row) = db.Size row.
Proof. done. Qed.

Lemma candidates_where (d : db.Conn) (qNorm : gostring) (opts : QueryOptions)
    (rows : list db.FileRow) (row : db.FileRow) :
  candidates d qNorm (util.Tokenize qNorm) opts = inl rows -> row ∈ rows ->
  row ∈ db.files d
  /\ db.IsDir row = false
  /\ existsb (fun pat => db.LIKE (db.FilenameNorm row) pat) (patterns qNorm) = true.
Proof.
  unfold candidates, Query. destruct (db.query_fails (db.faults d)); [done|].
  intros [= <-] Hin.
  apply (subseteq_take (A:=db.FileRow)) in Hin.
  rewrite (sort_facts.SliceStable_perm _ _), list_elem_of_filter in Hin.
  destruct Hin as [Hw Hin]. unfold where_clause in Hw.
  apply andb_true_iff in Hw as [Hw Hd]. apply andb_true_iff in Hw as [Hl _].
  split_and!; [done|by apply negb_true_iff|done].
Qed.

Lemma candidates_paths (d : db.Conn) (qNorm : gostring) (qTokens : list gostring)
    (opts : QueryOptions) (rows : list db.FileRow) :
  candidates d qNorm qTokens opts = inl rows ->
  NoDup (map db.Path (db.files d)) -> NoDup (map db.Path rows).
Proof.
  unfold candidates, Query. destruct (db.query_fails (db.faults d)); [done|].
  intros [= <-] Hnd.
  eapply sublist_NoDup; [|apply fmap_sublist, sublist_take].
  rewrite (sort_facts.SliceStable_perm _ _).
  eapply sublist_NoDup; [done|apply fmap_sublist, sublist_filter].
Qed.

(** *** [LIKE] with a pattern between two [%] *)

Lemma like_star (p s : list rune) :
  db.like (37 :: p) s
  = db.like p s
    || match s with [] => false | _ :: s' => db.like (37 :: p) s' end.
Proof. by destruct s. Qed.

Lemma like_char (c x : rune) (p s : list rune) :
  c <> 37 ->
  db.like (c :: p) (x :: s)
  = ((c =? 95) || (db.like_fold c =? db.like_fold x)) && db.like p s.
Proof. intros Hc. cbn [db.like]. by destruct (Z.eqb_spec c 37). Qed.

Lemma like_any (s : list rune) : db.like [37] s = true.
Proof.
  induction s as [|x s IH]; [done|]. rewrite like_star, IH. apply orb_true_r.
Qed.

(** A pattern matches itself, whatever wildcards it holds, and then any
    rest under a final [%]. *)
Lemma like_self (p post : list rune) : db.like (p ++ [37]) (p ++ post) = true.
Proof.
  induction p as [|c p IH]; [apply like_any|]. cbn [app].
  destruct (decide (c = 37)) as [->|Hc].
  - rewrite like_star, (like_star (p ++ [37]) (p ++ post)), IH.
    cbn [orb]. apply orb_true_r.
  - rewrite like_char, IH, Z.eqb_refl by done. by rewrite orb_true_r.
Qed.

Lemma like_skip (p pre s : list rune) :
  db.like (37 :: p) s = true -> db.like (37 :: p) (pre ++ s) = true.
Proof.
  intros H. induction pre as [|x pre IH]; [done|]. cbn [app].
  rewrite like_star, IH. apply orb_true_r.
Qed.

Lemma like_infix (t pre post : list rune) :
  db.like (37 :: t ++ [37]) (pre ++ t ++ post) = true.
Proof. apply like_skip. by rewrite like_star, like_self. Qed.

(** [text LIKE '%t%'] holds when the runes of [t] occur in [text]. *)
Lemma LIKE_infix (text t : gostring) (pre post : list rune) :
  decode text = pre ++ decode t ++ post -> db.LIKE text (like_arg t) = true.
Proof.
  intros H. unfold db.LIKE, like_arg. rewrite H.
  change (str "%" ++ t ++ str "%") with ([] ++ "%"%char :: (t ++ "%"%char :: [])).
  rewrite !utf8_sync.decode_app_ascii by (vm_compute; reflexivity).
  apply like_infix.
Qed.

(** *** Sorted lists and their first elements *)

Lemma sorted_app_inv {A} (R : A -> A -> Prop) (l1 l2 : list A) (a b : A) :
  StronglySorted R (l1 ++ l2) -> a ∈ l1 -> b ∈ l2 -> R a b.
Proof.
  induction l1 as [|x l1 IH]; intros H Ha Hb; [by apply elem_of_nil in Ha|].
  cbn [app] in H. apply StronglySorted_inv in H as [H1 H2].
  apply elem_of_cons in Ha as [->|Ha]; [|by apply IH].
  rewrite Forall_forall in H2. apply H2, elem_of_app. by right.
Qed.

Lemma filter_all {A} (P : A -> Prop) `{!forall a, Decision (P a)} (l : list A) :
  Forall P l -> filter P l = l.
Proof.
  induction 1 as [|x l Hx _ IH]; [done|]. by rewrite filter_cons_True, IH.
Qed.

Lemma filter_length_sublist {A} (P : A -> Prop) `{!forall a, Decision (P a)}
    (l k : list A) :
  sublist l k -> (length (filter P l) <= length (filter P k))%nat.
Proof.
  induction 1 as [|x l k _ IH|x l k _ IH]; [done| |].
  - rewrite !filter_cons. destruct (decide (P x)); cbn [length]; lia.
  - rewrite filter_cons. destruct (decide (P x)); cbn [length]; lia.
Qed.

Lemma filter_length_fmap {A B} (f : A -> B) (P : B -> Prop)
    `{!forall b, Decision (P b)} (l : list A) :
  length (filter P (map f l)) = length (filter (fun a => P (f a)) l).
Proof.
  induction l as [|x l IH]; [done|]. cbn [map]. rewrite !filter_cons.
  destruct (decide (P (f x))); cbn [length]; lia.
Qed.

(** In a sorted list [x] is among the first [n] elements when at most [n]
    elements may stand before or at the place of [x]. *)
Lemma sorted_take_mem {A} (R : A -> A -> Prop) (P : A -> Prop)
    `{!forall a, Decision (P a)} (l : list A) (x : A) (n : nat) :
  StronglySorted R l -> (forall y, R y x -> P y) -> P x -> x ∈ l ->
  (length (filter P l) <= n)%nat -> x ∈ take n l.
Proof.
  intros Hs HR Hx Hin Hn. apply list_elem_of_lookup in Hin as [i Hi].
  pose proof (lookup_lt_Some _ _ _ Hi) as Hlt.
  assert (Forall P (take (S i) l)) as Hall.
  { apply Forall_lookup. intros j y Hj. apply lookup_take_Some in Hj as [Hj Hji].
    destruct (decide (j = i)) as [->|Hne]; [congruence|].
    apply HR. eapply (StronglySorted_at R l j i); [done|lia|done|done]. }
  assert (S i <= length (filter P l))%nat as Hlen.
  { rewrite <- (take_drop (S i) l), filter_app, length_app, (filter_all _ _ Hall).
    rewrite length_take. lia. }
  apply list_elem_of_lookup. exists i. rewrite lookup_take_lt by lia. done.
Qed.


(** *** The shortlist statement *)

Definition shortlist_size (opts : QueryOptions) : Z :=
  if Shortlist opts <=? 0 then 800 else Shortlist opts.

(** The values bound to [ext IN (?,...)], if the clause is there. *)
Definition allowed (opts : QueryOptions) : option (list gostring) :=
  if (0 <? size (ExtFilter opts))%nat then Some (elements (ExtFilter opts)) else None.

(** The rows the [WHERE] clause of [Search] accepts for a normalized query. *)
Definition matches (qNorm : gostring) (opts : QueryOptions) (row : db.FileRow) : Prop :=
  where_clause (patterns qNorm) (allowed opts) row = true.

#[local] Instance matches_dec (qNorm : gostring) (opts : QueryOptions)
    (row : db.FileRow) : Decision (matches qNorm opts row).
Proof. unfold matches. apply _. Defined.

Definition newer (r1 r2 : db.FileRow) : bool := db.Mtime r1 >? db.Mtime r2.

Definition by_mtime (l : list db.FileRow) : list db.FileRow :=
  gosort.SliceStable newer l.

Lemma by_mtime_sorted (l : list db.FileRow) :
  StronglySorted (fun a b => db.Mtime b <= db.Mtime a) (by_mtime l).
Proof.
  eapply StronglySorted_weaken; [|apply (sort_facts.SliceStable_sorted newer)].
  - unfold sort_facts.not_after, newer. intros a b H.
    rewrite Z.gtb_ltb in H. by apply Z.ltb_ge in H.
  - unfold newer. intros a b H. rewrite Z.gtb_ltb in *.
    apply Z.ltb_lt in H. apply Z.ltb_ge. lia.
  - unfold newer. intros a b c H1 H2. rewrite Z.gtb_ltb in *.
    apply Z.ltb_ge in H1, H2. apply Z.ltb_ge. lia.
Qed.

Lemma candidates_shortlist (d : db.Conn) (qNorm : gostring) (opts : QueryOptions) :
  candidates d qNorm (util.Tokenize qNorm) opts
  = if db.query_fails (db.faults d) then inr db.ErrStore
    else inl (take (Z.to_nat (shortlist_size opts))
                (by_mtime (filter (matches qNorm opts) (db.files d)))).
Proof. done. Qed.

Lemma matches_spec (qNorm : gostring) (opts : QueryOptions) (row : db.FileRow) :
  matches qNorm opts row <->
    existsb (fun pat => db.LIKE (db.FilenameNorm row) pat) (patterns qNorm) = true
    /\ (ExtFilter opts = ∅ \/ db.Ext row ∈ ExtFilter opts)
    /\ db.IsDir row = false.
Proof.
  unfold matches, where_clause, allowed.
  rewrite !andb_true_iff, negb_true_iff.
  destruct (Nat.ltb_spec 0 (size (ExtFilter opts))) as [Hs|Hs].
  - rewrite bool_decide_eq_true, elem_of_elements.
    assert (ExtFilter opts <> ∅).
    { intros E. rewrite E, size_empty in Hs. lia. }
    tauto.
  - assert (ExtFilter opts = ∅).
    { apply leibniz_equiv, size_empty_iff. lia. }
    tauto.
Qed.


Section Props.

Variable lower_table : rune -> rune.
Variable Log1p : Q -> Q.

#[local] Abbreviation Search := (search.Search lower_table Log1p).
#[local] Abbreviation Normalize := (util.Normalize lower_table).
#[local] Abbreviation scored := (search_facts.scored lower_table Log1p).

(** The scored shortlist in ranking order, before the cut at [Limit]. *)
Definition ranked (d : db.Conn) (now : Z) (q : gostring) (opts : QueryOptions)
    : list Result :=
  let qNorm := Normalize q in
  if decide (qNorm = []) then []
  else
    match candidates d qNorm (util.Tokenize qNorm) opts with
    | inl rows => gosort.SliceStable less (scored now qNorm rows)
    | inr _ => []
    end.

Lemma Search_ranked (d : db.Conn) (now : Z) (q : gostring) (opts : QueryOptions) :
  (Search d now q opts).1
  = take (Z.to_nat (effective_limit opts)) (ranked d now q opts).
Proof.
  unfold ranked.
  destruct (decide (Normalize q = [])) as [Hq|Hq].
  { rewrite take_nil. unfold search.Search. by destruct (decide _). }
  destruct (candidates d (Normalize q) (util.Tokenize (Normalize q)) opts)
    as [rows|e] eqn:Hc.
  - by rewrite (Search_unfold lower_table Log1p d now q opts rows Hq Hc).
  - rewrite take_nil. unfold search.Search. destruct (decide _); [done|].
    by rewrite Hc.
Qed.

Lemma ranked_limit (d : db.Conn) (now : Z) (q : gostring) (opts : QueryOptions)
    (n : Z) :
  ranked d now q (with_limit opts n) = ranked d now q opts.
Proof. done. Qed.

Lemma scored_paths (now : Z) (qNorm : gostring) (rows : list db.FileRow) :
  map Path (scored now qNorm rows) = map db.Path rows.
Proof.
  unfold search_facts.scored. rewrite <- !list_fmap_compose. by apply list_fmap_ext.
Qed.

(** X7. Every result is the scan of a row of the table that is no
    directory and whose [filename_norm] matches one of the [LIKE] patterns
    made of the normalized query and of its tokens; its path, name,
    extension, time and size are those of the row. *)
Theorem Search_results_sound (d : db.Conn) (now : Z) (q : gostring)
    (opts : QueryOptions) :
  Forall (fun r =>
            exists row,
              row ∈ db.files d
              /\ db.IsDir row = false
              /\ existsb (fun pat => db.LIKE (db.FilenameNorm row) pat)
                         (patterns (Normalize q)) = true
              /\ Path r = db.Path row /\ Filename r = db.Filename row
              /\ Ext r = db.Ext row /\ Mtime r = db.Mtime row
              /\ Size r = db.Size row)
         (Search d now q opts).1.
Proof.
  apply Forall_forall. intros r Hr.
  apply Search_result_row in Hr as (rows & row & Hc & Hrow & ->).
  destruct (candidates_where _ _ _ _ _ Hc Hrow) as (Hin & Hd & Hl).
  exists row. by split_and!.
Qed.

(** X8. No path is returned twice when paths are unique in the table, as
    the [UNIQUE] constraint on [path] has it. *)
Theorem Search_distinct_paths (d : db.Conn) (now : Z) (q : gostring)
    (opts : QueryOptions) :
  NoDup (map db.Path (db.files d)) ->
  NoDup (map Path (Search d now q opts).1).
Proof.
  intros Hnd. rewrite Search_ranked.
  eapply sublist_NoDup; [|apply fmap_sublist, sublist_take].
  unfold ranked. destruct (decide _); [constructor|].
  destruct (candidates _ _ _ _) as [rows|e] eqn:Hc; [|constructor].
  rewrite (sort_facts.SliceStable_perm _ _).
  rewrite scored_paths. by eapply candidates_paths.
Qed.

(** X9. A smaller positive limit gives the first results of a larger one:
    raising [Limit] only appends to the list. *)
Theorem Search_limit_prefix (d : db.Conn) (now : Z) (q : gostring)
    (opts : QueryOptions) (n m : Z) :
  0 < n -> n <= m ->
  (Search d now q (with_limit opts n)).1
  = take (Z.to_nat n) (Search d now q (with_limit opts m)).1.
Proof.
  intros Hn Hm. rewrite !Search_ranked, !ranked_limit, take_take.
  unfold effective_limit. cbn [Limit with_limit].
  destruct (Z.leb_spec n 0); [lia|]. destruct (Z.leb_spec m 0); [lia|].
  f_equal. lia.
Qed.

Lemma ranked_sorted (d : db.Conn) (now : Z) (q : gostring) (opts : QueryOptions) :
  StronglySorted ranks_before (ranked d now q opts).
Proof.
  unfold ranked. destruct (decide _); [constructor|].
  destruct (candidates _ _ _ _) as [rows|e]; [|constructor].
  apply (ranking_spec (scored now (Normalize q) rows)).
Qed.

Lemma count_by_mtime (P : db.FileRow -> Prop) `{!forall r, Decision (P r)}
    (l : list db.FileRow) :
  length (filter P (by_mtime l)) = length (filter P l).
Proof.
  unfold by_mtime. by rewrite (sort_facts.SliceStable_perm newer l).
Qed.

Lemma count_ranking (P : Result -> Prop) `{!forall r, Decision (P r)}
    (l : list Result) :
  length (filter P (gosort.SliceStable less l)) = length (filter P l).
Proof. by rewrite (sort_facts.SliceStable_perm less l). Qed.

(** X10. A file is found when it should be: a row of the table that is no
    directory, passes the extension filter and whose [filename_norm] holds
    the runes of the normalized query, or of one of its tokens, is among the
    results, provided that the rows of the table modified at its time or
    later are no more than the limit and no more than the shortlist size. *)
Theorem Search_finds_recent_match (d : db.Conn) (now : Z) (q : gostring)
    (opts : QueryOptions) (row : db.FileRow) (t : gostring)
    (pre post : list rune) :
  let qNorm := Normalize q in
  qNorm <> [] ->
  db.query_fails (db.faults d) = false ->
  row ∈ db.files d ->
  db.IsDir row = false ->
  ExtFilter opts = ∅ \/ db.Ext row ∈ ExtFilter opts ->
  t = qNorm \/ t ∈ util.Tokenize qNorm ->
  decode (db.FilenameNorm row) = pre ++ decode t ++ post ->
  Z.of_nat (length (filter (fun r => db.Mtime row <= db.Mtime r) (db.files d)))
    <= Z.min (effective_limit opts) (shortlist_size opts) ->
  (Search d now q opts).2 = None
  /\ rank lower_table Log1p qNorm (util.Tokenize qNorm) (util.Trigrams qNorm) now
          (scan row)
     ∈ (Search d now q opts).1.
Proof.
  intros qNorm Hq Hf Hin Hd He Ht Hdec Hcount.
  assert (Hm : matches qNorm opts row).
  { apply matches_spec. split_and!; [|done|done].
    apply existsb_exists. exists (like_arg t). split; [|by eapply LIKE_infix].
    destruct Ht as [->|Ht]; [by left|]. right. apply in_map.
    by apply list_elem_of_In. }
  set (P := fun r : db.FileRow => db.Mtime row <= db.Mtime r) in *.
  set (F := filter (matches qNorm opts) (db.files d)).
  assert (HF : (length (filter P (by_mtime F)) <= length (filter P (db.files d)))%nat).
  { rewrite count_by_mtime. apply filter_length_sublist, sublist_filter. }
  set (rows := take (Z.to_nat (shortlist_size opts)) (by_mtime F)).
  assert (Hrows : candidates d qNorm (util.Tokenize qNorm) opts = inl rows).
  { by rewrite candidates_shortlist, Hf. }
  assert (Hrow : row ∈ rows).
  { apply (sorted_take_mem (fun a b => db.Mtime b <= db.Mtime a) P).
    - apply by_mtime_sorted.
    - by intros y Hy.
    - unfold P. lia.
    - unfold by_mtime. rewrite (sort_facts.SliceStable_perm newer F).
      by apply list_elem_of_filter.
    - lia. }
  rewrite (Search_unfold lower_table Log1p d now q opts rows Hq Hrows).
  split; [done|]. cbn [fst].
  apply (sorted_take_mem ranks_before (fun r => db.Mtime row <= Mtime r)).
  - apply (ranking_spec (scored now qNorm rows)).
  - intros y [Hy|[Hy _]]; cbn in Hy; lia.
  - cbn. lia.
  - rewrite (sort_facts.SliceStable_perm less _). unfold search_facts.scored.
    by apply list_elem_of_fmap_2, list_elem_of_fmap_2.
  - rewrite count_ranking. unfold search_facts.scored.
    rewrite !filter_length_fmap. cbn [rank scan Mtime].
    pose proof (filter_length_sublist P rows (by_mtime F) (sublist_take _ _)).
    fold P. lia.
Qed.


(** X11. The results are the latest matches: when a row that the [WHERE]
    clause accepts is left out, by the shortlist or by the limit, every
    result returned was modified at its time or later, however well the row
    left out would score. *)
Theorem Search_keeps_latest (d : db.Conn) (now : Z) (q : gostring)
    (opts : QueryOptions) (row : db.FileRow) :
  row ∈ db.files d ->
  matches (Normalize q) opts row ->
  db.Path row ∉ map Path (Search d now q opts).1 ->
  Forall (fun r => db.Mtime row <= Mtime r) (Search d now q opts).1.
Proof.
  intros Hin Hm. rewrite Search_ranked. unfold ranked.
  destruct (decide _) as [|Hq]; [by rewrite take_nil|].
  rewrite candidates_shortlist.
  destruct (db.query_fails _); [by rewrite take_nil|].
  set (qNorm := Normalize q) in *.
  set (L1 := by_mtime (filter (matches qNorm opts) (db.files d))).
  set (rows := take (Z.to_nat (shortlist_size opts)) L1).
  set (L2 := gosort.SliceStable less (scored now qNorm rows)).
  set (n := Z.to_nat (effective_limit opts)).
  intros Hp. apply Forall_forall. intros r Hr.
  assert (H1 : row ∈ L1).
  { unfold L1, by_mtime. rewrite (sort_facts.SliceStable_perm newer _).
    by apply list_elem_of_filter. }
  pose proof (by_mtime_sorted (filter (matches qNorm opts) (db.files d))) as Hs1.
  fold L1 in Hs1. rewrite <- (take_drop (Z.to_nat (shortlist_size opts)) L1) in H1, Hs1.
  fold rows in H1, Hs1.
  pose proof (proj1 (proj2 (ranking_spec (scored now qNorm rows)))) as Hs2.
  cbv zeta in Hs2. fold L2 in Hs2.
  apply elem_of_app in H1 as [Ha|Hb].
  - set (x := rank lower_table Log1p qNorm (util.Tokenize qNorm)
                   (util.Trigrams qNorm) now (scan row)).
    assert (Hx : x ∈ L2).
    { unfold L2. rewrite (sort_facts.SliceStable_perm less _).
      unfold search_facts.scored. by apply list_elem_of_fmap_2, list_elem_of_fmap_2. }
    rewrite <- (take_drop n L2) in Hx, Hs2.
    apply elem_of_app in Hx as [Hx|Hx].
    + destruct Hp. apply list_elem_of_fmap. by exists x.
    + destruct (sorted_app_inv _ _ _ r x Hs2 Hr Hx) as [H|[H _]]; cbn in H; lia.
  - apply (subseteq_take (A:=Result)) in Hr. unfold L2 in Hr.
    rewrite (sort_facts.SliceStable_perm less _) in Hr.
    unfold search_facts.scored in Hr.
    apply list_elem_of_fmap in Hr as (c & -> & Hc).
    apply list_elem_of_fmap in Hc as (r' & -> & Hr').
    apply (sorted_app_inv _ _ _ r' row Hs1 Hr' Hb).
Qed.

(** The results are in the order of their [mtime], latest first. *)
Lemma results_by_mtime (d : db.Conn) (now : Z) (q : gostring) (opts : QueryOptions) :
  StronglySorted (fun a b => Mtime b <= Mtime a) (Search d now q opts).1.
Proof.
  rewrite Search_ranked. apply StronglySorted_take.
  eapply StronglySorted_weaken; [|apply ranked_sorted].
  intros a b [H|[H _]]; lia.
Qed.

Section Idempotent.

Hypothesis lower_valid :
  forall r, 127 < r -> normalize_facts.valid r -> normalize_facts.valid (lower_table r).
Hypothesis lower_idem :
  forall r, 127 < r -> normalize_facts.valid r ->
    unicode.ToLower lower_table (lower_table r) = lower_table r.

Lemma Normalize_again (s : gostring) : Normalize (Normalize s) = Normalize s.
Proof.
  rewrite !(normalize_facts.Normalize_runes lower_table lower_valid).
  rewrite utf8_facts.decode_encode
    by apply (normalize_facts.NR_valid lower_table lower_valid), utf8_facts.decode_valid.
  by rewrite (normalize_facts.NR_idempotent lower_table lower_valid lower_idem)
    by apply utf8_facts.decode_valid.
Qed.

(** X12. [Search] sees a query only through its normalization: the
    normalized query gets the results and the error of the query itself, so
    that upper case, separators and surrounding blanks in the query make no
    difference. *)
Theorem Search_normalized_query (d : db.Conn) (now : Z) (q : gostring)
    (opts : QueryOptions) :
  Search d now (Normalize q) opts = Search d now q opts.
Proof. unfold search.Search. by rewrite Normalize_again. Qed.

End Idempotent.


End Props.

Lemma Search_distinct_paths_witness :
  NoDup (map Path (Search ascii_only_table log1p_upper sample 6000
                     (str "report") DefaultQueryOptions).1).
Proof.
  apply (Search_distinct_paths ascii_only_table log1p_upper).
  vm_compute. repeat (constructor; [by intros H; repeat (apply elem_of_cons in H as [H|H]; [discriminate|]); apply elem_of_nil in H|]). constructor.
Defined.

Lemma Search_limit_prefix_witness :
  (Search ascii_only_table log1p_upper sample 6000 (str "report")
     (with_limit DefaultQueryOptions 2)).1
  = take 2 (Search ascii_only_table log1p_upper sample 6000 (str "report")
              (with_limit DefaultQueryOptions 3)).1.
Proof.
  apply (Search_limit_prefix ascii_only_table log1p_upper sample 6000
           (str "report") DefaultQueryOptions 2 3); lia.
Defined.

(** *** Token overlap *)

Lemma filter_length_all {A} (P : A -> Prop) `{!forall a, Decision (P a)} (l : list A) :
  length (filter P l) = length l <-> Forall P l.
Proof.
  split; [|intros Hall; by rewrite (filter_all P l Hall)].
  induction l as [|x l IH]; [done|]. rewrite filter_cons.
  pose proof (length_filter P l) as Hle.
  destruct (decide (P x)); cbn [length]; [|lia].
  intros [= Hlen]. constructor; [done|by apply IH].
Qed.

Lemma filter_length_none {A} (P : A -> Prop) `{!forall a, Decision (P a)} (l : list A) :
  length (filter P l) = 0%nat <-> Forall (fun a => ~ P a) l.
Proof.
  induction l as [|x l IH]; [done|]. rewrite filter_cons, Forall_cons.
  destruct (decide (P x)); cbn [length]; [split; [done|by intros [? _]]|].
  rewrite IH. tauto.
Qed.

(** X13. [tokenOverlapCount a b] counts the places of [a] whose token is
    in [b], a token that comes twice in [a] counting twice: it lies between
    0 and the length of [a], is the length of [a] exactly when every token
    of [a] is in [b], and 0 exactly when none is. *)
Theorem tokenOverlapCount_bounds (a b : list gostring) :
  0 <= tokenOverlapCount a b <= Z.of_nat (length a)
  /\ (tokenOverlapCount a b = Z.of_nat (length a) <-> Forall (fun t => t ∈ b) a)
  /\ (tokenOverlapCount a b = 0 <-> Forall (fun t => t ∉ b) a)
  /\ tokenOverlapCount (a ++ a) b = 2 * tokenOverlapCount a b.
Proof.
  rewrite !tokenOverlapCount_spec.
  pose proof (length_filter (fun t => t ∈ b) a) as Hle. split_and!.
  - lia.
  - lia.
  - etrans; [|apply (filter_length_all (fun t => t ∈ b) a)].
    split; [apply Nat2Z.inj|by intros ->].
  - etrans; [|apply (filter_length_none (fun t => t ∈ b) a)].
    split; [apply (Nat2Z.inj _ 0)|by intros ->].
  - rewrite filter_app, length_app. lia.
Qed.


Ltac not_listed :=
  vm_compute; intros H;
  repeat (apply elem_of_cons in H as [H|H]; [discriminate|]);
  by apply elem_of_nil in H.

Ltac listed :=
  repeat first [apply list_elem_of_here | apply list_elem_of_further].

Lemma ascii_only_valid (r : rune) :
  127 < r -> normalize_facts.valid r -> normalize_facts.valid (ascii_only_table r).
Proof. intros _ Hr. exact Hr. Defined.

Lemma ascii_only_idem (r : rune) :
  127 < r -> normalize_facts.valid r ->
  unicode.ToLower ascii_only_table (ascii_only_table r) = ascii_only_table r.
Proof.
  intros Hr _. unfold unicode.ToLower, ascii_only_table.
  destruct (Z.leb_spec r 127); [lia|reflexivity].
Defined.

Lemma Search_finds_recent_match_witness :
  (Search ascii_only_table log1p_upper sample 6000 (str "Report")
     DefaultQueryOptions).2 = None
  /\ rank ascii_only_table log1p_upper
       (util.Normalize ascii_only_table (str "Report"))
       (util.Tokenize (util.Normalize ascii_only_table (str "Report")))
       (util.Trigrams (util.Normalize ascii_only_table (str "Report"))) 6000
       (scan (file "/d/tax report.pdf" "tax report.pdf" "pdf" 7000))
     ∈ (Search ascii_only_table log1p_upper sample 6000 (str "Report")
          DefaultQueryOptions).1.
Proof.
  apply (Search_finds_recent_match ascii_only_table log1p_upper sample 6000
           (str "Report") DefaultQueryOptions
           (file "/d/tax report.pdf" "tax report.pdf" "pdf" 7000)
           (str "report") (decode (str "tax ")) (decode (str " pdf"))).
  - vm_compute. discriminate.
  - reflexivity.
  - unfold sample, sample_files. cbn [db.files]. listed.
  - reflexivity.
  - by left.
  - left. vm_compute. reflexivity.
  - vm_compute. reflexivity.
  - vm_compute. discriminate.
Defined.

Lemma Search_keeps_latest_witness :
  Forall (fun r => 1000 <= Mtime r)
    (Search ascii_only_table log1p_upper sample 6000 (str "report")
       (with_limit DefaultQueryOptions 2)).1.
Proof.
  apply (Search_keeps_latest ascii_only_table log1p_upper sample 6000
           (str "report") (with_limit DefaultQueryOptions 2)
           (file "/d/report2023.pdf" "report2023.pdf" "pdf" 1000)).
  - unfold sample, sample_files. cbn [db.files]. listed.
  - vm_compute. reflexivity.
  - not_listed.
Defined.

Lemma Search_normalized_query_witness :
  Search ascii_only_table log1p_upper sample 6000
    (util.Normalize ascii_only_table (str "Final_Report")) DefaultQueryOptions
  = Search ascii_only_table log1p_upper sample 6000 (str "Final_Report")
      DefaultQueryOptions.
Proof.
  apply (Search_normalized_query ascii_only_table log1p_upper
           ascii_only_valid ascii_only_idem).
Defined.


End search_props.

(** ** The filters of the command line *)

Module main_facts.
Import utf8 search int64 main samples search_facts search_props.

Lemma filter_none {A} (P : A -> Prop) `{!forall a, Decision (P a)} (l : list A) :
  Forall (fun a => ~ P a) l -> filter P l = [].
Proof.
  induction 1 as [|x l Hx _ IH]; [done|]. by rewrite filter_cons_False.
Qed.

(** Filtering a list sorted by descending key at a threshold cuts it. *)
Lemma filter_sorted_prefix {A} (key : A -> Z) (c : Z) (l : list A) :
  StronglySorted (fun a b => key b <= key a) l ->
  filter (fun r => c <= key r) l
  = take (length (filter (fun r => c <= key r) l)) l
  /\ Forall (fun r => key r < c)
            (drop (length (filter (fun r => c <= key r) l)) l).
Proof.
  induction 1 as [|x l Hs [IH1 IH2] Hx]; [done|]. rewrite filter_cons.
  destruct (decide (c <= key x)) as [Hc|Hc].
  - cbn [length take drop]. split; [by rewrite <- IH1|done].
  - rewrite filter_none.
    + cbn [length take drop]. split; [done|]. constructor; [lia|].
      eapply Forall_impl; [exact Hx|]. cbn. intros; lia.
    + eapply Forall_impl; [exact Hx|]. cbn. intros; lia.
Qed.

Section Since.

Variable lower_table : rune -> rune.
Variable Log1p : Q -> Q.

(** X14. The [--since] filter cuts the result list: what it lets through
    of the results of [Search] is a prefix of them, since they come latest
    first.  With an empty flag, or a cutoff that happens to be 0, nothing is
    cut; otherwise what is kept was modified at the cutoff or later and what
    is dropped before it. *)
Theorem applySinceFilter_prefix (d : db.Conn) (now : Z) (q : gostring)
    (opts : QueryOptions) (t : Time) (since : gostring) (out : list Result) :
  let results := (Search lower_table Log1p d now q opts).1 in
  applySinceFilter t results since = inl out ->
  exists cutoff,
    parseSince t since = inl cutoff
    /\ out = take (length out) results
    /\ (since = [] \/ cutoff = 0 -> out = results)
    /\ (cutoff <> 0 ->
        Forall (fun r => cutoff <= Mtime r) out
        /\ Forall (fun r => Mtime r < cutoff) (drop (length out) results)).
Proof.
  intros results. unfold applySinceFilter.
  destruct (parseSince t since) as [cutoff|e] eqn:Hp; [|done].
  intros Hout. exists cutoff. split; [done|].
  destruct (Z.eqb_spec cutoff 0) as [->|Hc].
  - injection Hout as <-. split_and!; [by rewrite firstn_all|done|done].
  - injection Hout as <-.
    destruct (filter_sorted_prefix Mtime cutoff results
                (results_by_mtime lower_table Log1p d now q opts)) as [H1 H2].
    split_and!; [done| |].
    + intros [->|?]; [|done]. cbn in Hp. by injection Hp as <-.
    + intros _. split; [|done]. apply Forall_forall. intros r Hr.
      by apply list_elem_of_filter in Hr as [? _].
Qed.

(** The extensions [buildExtFilter] lets through. *)
Lemma elem_of_buildExtFilter (pdf img : bool) (e : gostring) :
  e ∈ buildExtFilter pdf img
  <-> (pdf = true /\ e = str "pdf") \/ (img = true /\ e ∈ images).
Proof.
  unfold buildExtFilter.
  destruct pdf, img; cbn [negb andb];
    rewrite ?token_set, ?elem_of_union, ?elem_of_singleton, ?elem_of_empty;
    intuition discriminate.
Qed.

(** X15. With [--pdf] every result has the extension [pdf], with [--img]
    one of the seven image extensions, and with both flags one or the other;
    with neither flag no extension clause is added to the statement, as with
    the default options. *)
Theorem Search_flag_filter (d : db.Conn) (now : Z) (q : gostring) (limit : Z)
    (pdf img : bool) :
  Forall (fun r =>
            pdf || img = true ->
            (pdf = true /\ Ext r = str "pdf") \/ (img = true /\ Ext r ∈ images))
         (Search lower_table Log1p d now q (queryOptions limit pdf img)).1
  /\ Search lower_table Log1p d now q (queryOptions limit false false)
     = Search lower_table Log1p d now q (with_limit DefaultQueryOptions limit).
Proof.
  split; [|done]. apply Forall_forall. intros r Hr Hflag.
  apply Search_result_row in Hr as (rows & row & Hc & Hrow & ->).
  destruct (candidates_rows _ _ _ _ _ _ Hc Hrow) as (_ & _ & He).
  apply elem_of_buildExtFilter. apply He. cbn [ExtFilter queryOptions].
  intros E. destruct pdf; [|destruct img; [|done]].
  - assert (str "pdf" ∈ buildExtFilter true img) as Hin.
    { apply elem_of_buildExtFilter. by left. }
    rewrite E in Hin. by apply elem_of_empty in Hin.
  - assert (str "png" ∈ buildExtFilter false true) as Hin.
    { apply elem_of_buildExtFilter. right. split; [done|]. apply list_elem_of_here. }
    rewrite E in Hin. by apply elem_of_empty in Hin.
Qed.

End Since.

(** *** The window of [--since] *)

Definition unit_hours (u : ascii) : option Z :=
  if Ascii.eqb u "h"%char then Some 1
  else if Ascii.eqb u "d"%char then Some 24
  else if Ascii.eqb u "w"%char then Some 168
  else None.

(** X16. For a number [n] that [strconv.Atoi] reads, followed by [h], [d]
    or [w], the cutoff is the second of the clock less [n] hours, days of 24
    hours or weeks of 7 days, as long as the window counted in nanoseconds
    fits 64 bits. *)
Theorem parseSince_window (t : Time) (body : gostring) (u : ascii) (n h : Z) :
  0 <= nsec t < 1000000000 ->
  Atoi body = Some n ->
  unit_hours u = Some h ->
  - 9223372036854775808 < n * h * Hour < 9223372036854775808 ->
  parseSince t (body ++ [u]) = inl (sec t - n * h * 3600).
Proof.
  intros Hns Hn Hu Hr. unfold parseSince.
  rewrite last_snoc, removelast_last, Hn.
  assert (forall dur, dur = n * h * Hour ->
            Add_Unix t (wrap64 (- dur)) = sec t - n * h * 3600) as Hadd.
  { intros dur ->. rewrite search_facts.wrap64_id by lia. unfold Add_Unix, Hour.
    replace (- (n * h * 3600000000000)) with ((- (n * h * 3600)) * 1000000000) by lia.
    rewrite Z.quot_mul, Z.rem_mul by lia.
    destruct (Z.geb_spec (nsec t + 0) 1000000000); [lia|].
    destruct (Z.ltb_spec (nsec t + 0) 0); lia. }
  unfold unit_hours, Hour in *.
  destruct (Ascii.eqb u "h"); [injection Hu as <-|].
  { f_equal. apply Hadd. unfold Hour. rewrite search_facts.wrap64_id; lia. }
  destruct (Ascii.eqb u "d"); [injection Hu as <-|].
  { f_equal. apply Hadd. unfold Hour.
    rewrite (search_facts.wrap64_id (n * 24)) by lia.
    rewrite search_facts.wrap64_id; lia. }
  destruct (Ascii.eqb u "w"); [injection Hu as <-|done].
  f_equal. apply Hadd. unfold Hour.
  rewrite (search_facts.wrap64_id (n * 7)) by lia.
  rewrite (search_facts.wrap64_id (n * 7 * 24)) by lia.
  rewrite search_facts.wrap64_id; lia.
Qed.

Lemma applySinceFilter_prefix_witness :
  let results :=
    (Search ascii_only_table log1p_upper sample 6000 (str "report")
       DefaultQueryOptions).1 in
  let out := filter (fun r => 3600 <= Mtime r) results in
  exists cutoff,
    parseSince {| sec := 90000; nsec := 5 |} (str "1d") = inl cutoff
    /\ out = take (length out) results
    /\ (str "1d" = [] \/ cutoff = 0 -> out = results)
    /\ (cutoff <> 0 ->
        Forall (fun r => cutoff <= Mtime r) out
        /\ Forall (fun r => Mtime r < cutoff) (drop (length out) results)).
Proof.
  apply (applySinceFilter_prefix ascii_only_table log1p_upper sample 6000
           (str "report") DefaultQueryOptions {| sec := 90000; nsec := 5 |}
           (str "1d")).
  vm_compute. reflexivity.
Defined.

Lemma parseSince_window_witness :
  parseSince {| sec := 1000000; nsec := 999999999 |} (str "7" ++ ["d"%char])
  = inl (1000000 - 7 * 24 * 3600).
Proof.
  apply (parseSince_window {| sec := 1000000; nsec := 999999999 |} (str "7")
           "d"%char 7 24).
  - cbn. lia.
  - reflexivity.
  - reflexivity.
  - unfold Hour. lia.
Defined.


End main_facts.

(** ** The pass as a list of upserts *)

Module indexer_props.
Import utf8 filepath indexer int64 samples indexer_facts.

Definition fresh : State := {| rows := []; indexed := 0; upserted := [] |}.

Definition pushes (st : State) (l : list db.FileRow) : State :=
  foldl (fun st r => push r st) st l.

Definition upserts (rs l : list db.FileRow) : list db.FileRow :=
  foldl (fun rs r => upsert r rs) rs l.

Lemma pushes_app (st : State) (l k : list db.FileRow) :
  pushes st (l ++ k) = pushes (pushes st l) k.
Proof. apply foldl_app. Qed.

Lemma rows_pushes (st : State) (l : list db.FileRow) :
  rows (pushes st l) = upserts (rows st) l.
Proof. revert st. induction l as [|r l IH]; intros st; [done|]. apply IH. Qed.

Lemma upserted_pushes (st : State) (l : list db.FileRow) :
  upserted (pushes st l) = upserted st ++ map db.Path l.
Proof.
  revert st. induction l as [|r l IH]; intros st; cbn [pushes foldl map].
  - by rewrite app_nil_r.
  - fold (pushes (push r st) l). rewrite IH. cbn [upserted push].
    by rewrite <- app_assoc.
Qed.

Lemma wrap64_wrap64 (a b : Z) : wrap64 (wrap64 a + b) = wrap64 (a + b).
Proof.
  unfold wrap64. f_equal.
  replace ((a + 9223372036854775808) mod 18446744073709551616
           - 9223372036854775808 + b + 9223372036854775808)
    with ((a + 9223372036854775808) mod 18446744073709551616 + b) by lia.
  rewrite Zplus_mod_idemp_l. f_equal. lia.
Qed.

Lemma indexed_pushes (st : State) (l : list db.FileRow) :
  wrap64 (indexed (pushes st l)) = wrap64 (indexed st + Z.of_nat (length l)).
Proof.
  revert st. induction l as [|r l IH]; intros st; cbn [pushes foldl length].
  - f_equal. lia.
  - fold (pushes (push r st) l). rewrite IH. cbn [indexed push].
    rewrite wrap64_wrap64. f_equal. lia.
Qed.

Lemma indexed_pushes_fresh (tx : list db.FileRow) (l : list db.FileRow) :
  indexed (pushes {| rows := tx; indexed := 0; upserted := [] |} l)
  = wrap64 (Z.of_nat (length l)).
Proof.
  induction l as [|r l IH] using rev_ind; [done|].
  rewrite pushes_app. cbn [pushes foldl push indexed]. fold (pushes).
  rewrite IH, wrap64_wrap64, length_app. cbn [length]. f_equal. lia.
Qed.

(** The last row of [l] for the path [p]. *)
Fixpoint latest (l : list db.FileRow) (p : gostring) : option db.FileRow :=
  match l with
  | [] => None
  | x :: l' =>
    match latest l' p with
    | Some y => Some y
    | None => if decide (db.Path x = p) then Some x else None
    end
  end.

Lemma latest_Some (l : list db.FileRow) (p : gostring) (r : db.FileRow) :
  latest l p = Some r -> r ∈ l /\ db.Path r = p.
Proof.
  induction l as [|x l IH]; [done|]. cbn [latest].
  destruct (latest l p) as [y|].
  - intros [= <-]. destruct (IH eq_refl). split; [by right|done].
  - destruct (decide (db.Path x = p)); [|done]. intros [= <-]. split; [by left|done].
Qed.

Lemma latest_None (l : list db.FileRow) (p : gostring) :
  latest l p = None <-> p ∉ map db.Path l.
Proof.
  induction l as [|x l IH]; [split; [intros _; apply not_elem_of_nil|done]|].
  cbn [latest map]. rewrite not_elem_of_cons.
  destruct (latest l p) as [y|] eqn:E.
  - split; [done|]. intros [_ H]. by apply IH in H.
  - destruct (decide (db.Path x = p)) as [Hx|Hx].
    + split; [done|]. intros [H _]. by destruct H.
    + split; [|done]. intros _. split; [done|by apply IH].
Qed.

(** After a run of upserts a row is either an old one whose path was not
    upserted, or the last row upserted for its path. *)
Lemma elem_of_upserts (l rs : list db.FileRow) (r : db.FileRow) :
  r ∈ upserts rs l <->
    (r ∈ rs /\ latest l (db.Path r) = None) \/ latest l (db.Path r) = Some r.
Proof.
  revert rs. induction l as [|x l IH]; intros rs; cbn [upserts foldl latest].
  - split; [by left|]. by intros [[? _]|?].
  - fold (upserts (upsert x rs) l). rewrite IH, elem_of_upsert.
    destruct (latest l (db.Path r)) as [y|] eqn:E.
    + split; [intros [[_ ?]|?]; [done|by right]|]. intros [[_ ?]|?]; [done|by right].
    + destruct (decide (db.Path x = db.Path r)) as [Hx|Hx].
      * split.
        -- intros [[[->|[_ Hn]] _]|?]; [by right|by destruct Hn|done].
        -- intros [[_ ?]|[= ->]]; [done|]. left. split; [by left|done].
      * split.
        -- intros [[[->|[? _]] _]|?]; [done|by left|done].
        -- intros [[? _]|?]; [|done]. left. split; [|done]. right. split; [done|].
           congruence.
Qed.

Lemma filter_all_id {A} (P : A -> Prop) `{!forall a, Decision (P a)} (l : list A) :
  Forall P l -> filter P l = l.
Proof.
  induction 1 as [|x l Hx _ IH]; [done|]. by rewrite filter_cons_True, IH.
Qed.


Section Trace.

Variable lower_table : rune -> rune.
Variable w : World.
Variable ix : Options.
Variable flt : db.Faults.

#[local] Abbreviation walkFn := (indexer.walkFn lower_table ix flt).
#[local] Abbreviation walkDir := (indexer.walkDir lower_table ix flt).
#[local] Abbreviation WalkDir := (indexer.WalkDir lower_table ix flt).
#[local] Abbreviation Run := (indexer.Run lower_table w ix flt).

(** Whether [walkFn] answers [fs.SkipDir] for a directory. *)
Definition pruned (path name : gostring) : bool :=
  bool_decide (name ∈ IgnoreDirs ix)
  || (negb (IncludeHidden ix) && gostrings.HasPrefix name (str ".")
      && negb (bool_decide (path = str "."))).

(** The row [walkFn] upserts for an entry that is no directory, if any. *)
Definition offered (gen : Z) (path name : gostring) (info : option FileInfo)
    : option db.FileRow :=
  match info with
  | None => None
  | Some i =>
    if (negb (IncludeHidden ix) && gostrings.HasPrefix name (str "."))
       || ((0 <? size (OnlyExtensions ix))%nat
           && negb (bool_decide (util.ExtLower lower_table name ∈ OnlyExtensions ix)))
       || (IsSymlink i && negb (FollowSymlinks ix))
       || db.upsert_fails flt path
    then None
    else Some {| db.Path := path; db.Filename := name;
                 db.FilenameNorm := util.Normalize lower_table name;
                 db.Ext := util.ExtLower lower_table name;
                 db.Mtime := ModTime i; db.Size := FSize i;
                 db.IsDir := false; db.SeenGen := gen |}
  end.

(** The rows a walk upserts, in order. *)
Fixpoint trace (gen : Z) (path name : gostring) (d : Node) : list db.FileRow :=
  match d with
  | File info => option_list (offered gen path name info)
  | Dir _ es =>
    if pruned path name then []
    else flat_map (fun e => trace gen (Join path e.1) e.1 e.2) es
  end.

Lemma walkFn_file (gen : Z) (st : State) (path name : gostring)
    (info : option FileInfo) :
  walkFn gen st path name (File info) false
  = (pushes st (option_list (offered gen path name info)), Continue).
Proof.
  unfold indexer.walkFn, offered.
  destruct (negb (IncludeHidden ix) && gostrings.HasPrefix name (str "."));
    [by destruct info|]. cbn [orb].
  destruct ((0 <? size (OnlyExtensions ix))%nat && _); [by destruct info|].
  destruct info as [i|]; [|done]. cbn [orb].
  destruct (IsSymlink i && negb (FollowSymlinks ix)); [done|]. cbn [orb].
  by destruct (db.upsert_fails flt path).
Qed.

Lemma walkFn_dir_false (gen : Z) (st : State) (path name : gostring) (e : bool)
    (es : list (gostring * Node)) :
  walkFn gen st path name (Dir e es) false
  = (st, if pruned path name then SkipDir else Continue).
Proof.
  unfold indexer.walkFn, pruned.
  destruct (decide (name ∈ ignoreSet ix)) as [Hi|Hi].
  - apply (ignoreSet_spec lower_table ix gen) in Hi.
    by rewrite (bool_decide_eq_true_2 (name ∈ IgnoreDirs ix)).
  - rewrite (ignoreSet_spec lower_table ix gen) in Hi.
    rewrite (bool_decide_eq_false_2 (name ∈ IgnoreDirs ix)) by done.
    cbn [orb]. by destruct (_ && _ && _).
Qed.

Lemma walkFn_err (gen : Z) (st : State) (path name : gostring) (d : Node) :
  walkFn gen st path name d true = (st, Continue).
Proof. done. Qed.

Lemma walkDir_trace (gen : Z) (d : Node) (path name : gostring) (st : State) :
  walkDir gen path name d st = (pushes st (trace gen path name d), Continue).
Proof.
  revert path name st. induction d as [info|e es IH] using Node_tree_ind;
    intros path name st.
  - rewrite walkDir_file. apply walkFn_file.
  - rewrite walkDir_dir, walkFn_dir_false, walkFn_err. cbn [snd trace].
    destruct (pruned path name); [done|].
    assert (walk_entries lower_table ix flt gen path es st
            = pushes st (flat_map (fun e => trace gen (Join path e.1) e.1 e.2) es))
      as ->; [|by destruct e].
    clear -IH. revert st. induction IH as [|[n d] es Hd _ IHes]; intros st; [done|].
    cbn [walk_entries flat_map fst snd].
    specialize (Hd (Join path n) n st). cbn [fst snd] in Hd. rewrite Hd.
    by rewrite pushes_app, IHes.
Qed.

(** The rows the walk of one root upserts. *)
Definition root_trace (gen : Z) (root : gostring) : list db.FileRow :=
  match stat w (resolved w root) with
  | None => []
  | Some d => trace gen (resolved w root) (basename (resolved w root)) d
  end.

(** The rows a pass upserts, in order. *)
Definition observed (gen : Z) : list db.FileRow :=
  flat_map (root_trace gen) (Roots ix).

Lemma roots_trace (gen : Z) (roots : list gostring) (st : State)
    (log : list gostring) :
  (foldl (visit_root lower_table w ix flt gen) (st, log) roots).1
  = pushes st (flat_map (root_trace gen) roots).
Proof.
  revert st log. induction roots as [|root roots IH]; intros st log; [done|].
  cbn [foldl flat_map]. rewrite pushes_app. unfold visit_root at 2, root_trace at 1.
  fold (resolved w root). destruct (stat w (resolved w root)) as [d|].
  - rewrite IH. unfold indexer.WalkDir. by rewrite walkDir_trace.
  - by rewrite IH.
Qed.

(** What a pass that commits returns and leaves, by the rows it upserts. *)
Lemma Run_trace (gen : Z) (tx : list db.FileRow) :
  err (Run gen tx) = None ->
  count (Run gen tx) = wrap64 (Z.of_nat (length (observed gen)))
  /\ tx_rows (Run gen tx) = sweep gen (upserts tx (observed gen))
  /\ seen (Run gen tx) = map db.Path (observed gen).
Proof.
  intros Herr. destruct (Run_committed _ _ _ _ _ tx Herr) as (_ & _ & _ & ->).
  cbn [count tx_rows seen]. unfold walked. rewrite roots_trace.
  rewrite indexed_pushes_fresh, rows_pushes, upserted_pushes. done.
Qed.

(** *** What the rows written look like *)

(** The files of a tree: for each entry that is no directory the names of
    the directories above it, from the root of the walk down, its path, its
    name and what [Info] gives for it. *)
Fixpoint files_of (path name : gostring) (d : Node)
    : list (list gostring * gostring * gostring * option FileInfo) :=
  match d with
  | File info => [([], path, name, info)]
  | Dir _ es =>
    map (fun f => (name :: f.1.1.1, f.1.1.2, f.1.2, f.2))
        (flat_map (fun e => files_of (Join path e.1) e.1 e.2) es)
  end.

(** A row as the pass derives it from a file of the tree. *)
Definition derived (gen : Z) (r : db.FileRow) : Prop :=
  db.FilenameNorm r = util.Normalize lower_table (db.Filename r)
  /\ db.Ext r = util.ExtLower lower_table (db.Filename r)
  /\ db.IsDir r = false
  /\ db.SeenGen r = gen
  /\ db.upsert_fails flt (db.Path r) = false
  /\ (OnlyExtensions ix <> ∅ -> db.Ext r ∈ OnlyExtensions ix).

Lemma offered_Some (gen : Z) (path name : gostring) (info : option FileInfo)
    (r : db.FileRow) :
  offered gen path name info = Some r ->
  derived gen r /\ db.Path r = path /\ db.Filename r = name
  /\ exists i, info = Some i /\ db.Mtime r = ModTime i /\ db.Size r = FSize i
               /\ (IsSymlink i = true -> FollowSymlinks ix = true).
Proof.
  unfold offered. destruct info as [i|]; [|done].
  destruct (negb (IncludeHidden ix) && _); [done|]. cbn [orb].
  destruct (Nat.ltb_spec 0 (size (OnlyExtensions ix))) as [Hs|Hs]; cbn [andb].
  - destruct (bool_decide_reflect
                (util.ExtLower lower_table name ∈ OnlyExtensions ix)) as [He|He];
      [|done]. cbn [negb orb].
    destruct (IsSymlink i && negb (FollowSymlinks ix)) eqn:Hl; [done|]. cbn [orb].
    destruct (db.upsert_fails flt path) eqn:Hu; [done|]. intros [= <-].
    unfold derived. cbn. split_and!; try done. exists i. split_and!; try done.
    intros Hi. rewrite Hi in Hl. by destruct (FollowSymlinks ix).
  - cbn [orb].
    destruct (IsSymlink i && negb (FollowSymlinks ix)) eqn:Hl; [done|]. cbn [orb].
    destruct (db.upsert_fails flt path) eqn:Hu; [done|]. intros [= <-].
    unfold derived. cbn. split_and!; try done.
    + intros Hne. destruct Hne. apply leibniz_equiv, size_empty_iff. lia.
    + exists i. split_and!; try done.
      intros Hi. rewrite Hi in Hl. by destruct (FollowSymlinks ix).
Qed.

(** Where a row of the trace comes from. *)
Definition sourced (gen : Z) (path name : gostring) (d : Node) (r : db.FileRow)
    : Prop :=
  derived gen r
  /\ exists anc i,
       (anc, db.Path r, db.Filename r, Some i) ∈ files_of path name d
       /\ db.Mtime r = ModTime i /\ db.Size r = FSize i
       /\ (IsSymlink i = true -> FollowSymlinks ix = true)
       /\ Forall (fun a => a ∉ IgnoreDirs ix) anc.

Lemma trace_sourced (gen : Z) (d : Node) (path name : gostring) :
  Forall (sourced gen path name d) (trace gen path name d).
Proof.
  revert path name. induction d as [info|e es IH] using Node_tree_ind;
    intros path name; cbn [trace].
  - destruct (offered gen path name info) as [r|] eqn:Ho; [|constructor].
    apply offered_Some in Ho as (Hd & <- & <- & i & -> & Hm & Hs & Hl).
    constructor; [|constructor]. split; [done|]. exists [], i.
    split_and!; try done. cbn [files_of]. apply list_elem_of_here.
  - destruct (pruned path name) eqn:Hp; [constructor|].
    assert (name ∉ IgnoreDirs ix) as Hn.
    { unfold pruned in Hp. apply orb_false_iff in Hp as [Hp _].
      by apply bool_decide_eq_false in Hp. }
    apply Forall_forall. intros r Hr.
    apply list_elem_of_In, in_flat_map in Hr as ([n d] & Hin & Hr).
    apply list_elem_of_In in Hin, Hr. rewrite Forall_forall in IH.
    specialize (IH _ Hin (Join path n) n). cbn [fst snd] in IH, Hr.
    rewrite Forall_forall in IH.
    destruct (IH r Hr) as (Hd & anc & i & Hf & Hm & Hs & Hl & Ha).
    split; [done|]. exists (name :: anc), i. split_and!; try done; [|by constructor].
    cbn [files_of]. apply list_elem_of_fmap.
    exists (anc, db.Path r, db.Filename r, Some i). split; [done|].
    apply list_elem_of_In, in_flat_map. exists (n, d).
    split; by apply list_elem_of_In.
Qed.

(** A row of the pass comes from the tree under one of the roots. *)
Definition from_roots (gen : Z) (r : db.FileRow) : Prop :=
  exists root d,
    root ∈ Roots ix /\ stat w (resolved w root) = Some d
    /\ sourced gen (resolved w root) (basename (resolved w root)) d r.

Lemma observed_from_roots (gen : Z) : Forall (from_roots gen) (observed gen).
Proof.
  apply Forall_forall. intros r Hr. unfold observed in Hr.
  apply list_elem_of_In, in_flat_map in Hr as (root & Hroot & Hr).
  apply list_elem_of_In in Hroot, Hr. unfold root_trace in Hr.
  destruct (stat w (resolved w root)) as [d|] eqn:Hs; [|by apply elem_of_nil in Hr].
  exists root, d. split_and!; [done|done|].
  pose proof (trace_sourced gen d (resolved w root) (basename (resolved w root))) as H.
  rewrite Forall_forall in H. by apply H.
Qed.

(** The rows a pass leaves, whatever its outcome, are rows it found or rows
    it upserted. *)
Lemma Run_rows_origin (gen : Z) (tx : list db.FileRow) (r : db.FileRow) :
  r ∈ tx_rows (Run gen tx) -> r ∈ tx \/ r ∈ observed gen.
Proof.
  unfold indexer.Run. destruct (length (Roots ix) =? 0)%nat; [by left|].
  destruct (db.prepare_fails flt); [by left|].
  pose proof (roots_trace gen (Roots ix) {| rows := tx; indexed := 0; upserted := [] |} [])
    as Ht.
  destruct (foldl _ _ _) as [st log]. cbn [fst] in Ht. subst st.
  assert (r ∈ upserts tx (observed gen) -> r ∈ tx \/ r ∈ observed gen) as Hu.
  { intros H. apply elem_of_upserts in H as [[? _]|H]; [by left|].
    right. by apply latest_Some in H as [? _]. }
  destruct (db.sweep_fails flt); cbn [tx_rows]; rewrite rows_pushes; [done|].
  unfold sweep. intros H. apply list_elem_of_filter in H as [_ H]. by apply Hu.
Qed.

(** X17. Every row a pass leaves in the table, whatever the outcome of
    the pass, was there before or is the row of a file of the tree under one
    of the roots: a non-directory entry with that path and name, with the
    time and size [Info] reports, no symbolic link unless links are
    followed, below no directory named in the ignore list.  The row then
    holds the normalized name and the lower-case extension of that name,
    an extension of the filter when there is one, and is no directory. *)
Theorem Run_rows_from_tree (gen : Z) (tx : list db.FileRow) :
  Forall (fun r => r ∈ tx \/ from_roots gen r) (tx_rows (Run gen tx)).
Proof.
  apply Forall_forall. intros r Hr.
  apply Run_rows_origin in Hr as [?|Hr]; [by left|]. right.
  pose proof (observed_from_roots gen) as H. rewrite Forall_forall in H. by apply H.
Qed.


(** *** Counting, failing upserts, and a second pass *)

Lemma upserts_NoDup (l rs : list db.FileRow) :
  NoDup (map db.Path rs) -> NoDup (map db.Path (upserts rs l)).
Proof.
  revert rs. induction l as [|x l IH]; intros rs Hnd; [done|].
  cbn [upserts foldl]. apply IH.
  destruct (upsert_paths x rs) as [->|[Hn ->]]; [done|].
  apply NoDup_app. split_and!; [done| |apply NoDup_singleton].
  intros p Hp ->%list_elem_of_singleton. done.
Qed.

Lemma observed_derived (gen : Z) (r : db.FileRow) :
  r ∈ observed gen -> derived gen r.
Proof.
  intros Hr. pose proof (observed_from_roots gen) as H.
  rewrite Forall_forall in H. by destruct (H r Hr) as (_ & _ & _ & _ & [? _]).
Qed.

Lemma swept_latest (gen : Z) (tx : list db.FileRow) (r : db.FileRow) :
  (forall r, r ∈ tx -> db.SeenGen r <> gen) ->
  r ∈ sweep gen (upserts tx (observed gen)) <->
  latest (observed gen) (db.Path r) = Some r.
Proof.
  intros Hfresh. unfold sweep. rewrite list_elem_of_filter, elem_of_upserts. split.
  - intros [Hg [[Htx _]|H]]; [by apply Hfresh in Htx|done].
  - intros H. split; [|by right]. apply latest_Some in H as [H _].
    by destruct (observed_derived gen r H) as (_ & _ & _ & ? & _).
Qed.

Lemma swept_paths (gen : Z) (tx : list db.FileRow) (p : gostring) :
  (forall r, r ∈ tx -> db.SeenGen r <> gen) ->
  p ∈ map db.Path (sweep gen (upserts tx (observed gen)))
  <-> p ∈ map db.Path (observed gen).
Proof.
  intros Hfresh. split.
  - intros (r & -> & Hr)%list_elem_of_fmap. apply swept_latest in Hr; [|done].
    apply latest_Some in Hr as [Hr _]. by apply list_elem_of_fmap_2.
  - intros Hp. destruct (latest (observed gen) p) as [r|] eqn:E.
    + pose proof (latest_Some _ _ _ E) as [_ <-].
      apply list_elem_of_fmap_2. by apply swept_latest.
    + by apply latest_None in E.
Qed.

(** X18. The number a pass that commits returns counts the upserts it
    made, a file reached twice being counted twice: with a generation that
    is new to the table and unique paths, and short of 2^63 upserts, it is
    the number of paths upserted, in order and with repeats; the table then
    holds no more rows than that, and exactly that many when no path was
    upserted twice. *)
Theorem Run_count (gen : Z) (tx : list db.FileRow) :
  (forall r, r ∈ tx -> db.SeenGen r <> gen) ->
  NoDup (map db.Path tx) ->
  err (Run gen tx) = None ->
  Z.of_nat (length (seen (Run gen tx))) < 9223372036854775808 ->
  count (Run gen tx) = Z.of_nat (length (seen (Run gen tx)))
  /\ Z.of_nat (length (tx_rows (Run gen tx))) <= count (Run gen tx)
  /\ (NoDup (seen (Run gen tx)) ->
      Z.of_nat (length (tx_rows (Run gen tx))) = count (Run gen tx)).
Proof.
  intros Hfresh Hnd Herr. destruct (Run_trace gen tx Herr) as (-> & -> & ->).
  rewrite length_map. intros Hlen. rewrite search_facts.wrap64_id by lia.
  assert (NoDup (map db.Path (sweep gen (upserts tx (observed gen))))) as Hnd'.
  { eapply sublist_NoDup; [by apply upserts_NoDup|].
    apply fmap_sublist, sublist_filter. }
  split_and!; [done| |].
  - rewrite <- (length_map db.Path (sweep _ _)), <- (length_map db.Path (observed gen)).
    apply inj_le, submseteq_length, NoDup_submseteq; [done|].
    intros p. by apply swept_paths.
  - intros Hs.
    rewrite <- (length_map db.Path (sweep _ _)), <- (length_map db.Path (observed gen)).
    f_equal. apply Permutation_length, NoDup_Permutation; [done|done|].
    intros p. by apply swept_paths.
Qed.

(** X19. An upsert that fails is passed over in silence, and the sweep then
    removes the file from the table: after a pass that commits, with a
    generation new to the table, no row is left for a path whose upsert
    fails, be the file on disk or not. *)
Theorem failed_upsert_drops_row (gen : Z) (tx : list db.FileRow) (p : gostring) :
  (forall r, r ∈ tx -> db.SeenGen r <> gen) ->
  err (Run gen tx) = None ->
  db.upsert_fails flt p = true ->
  (p ∉ seen (Run gen tx)) /\ (p ∉ map db.Path (tx_rows (Run gen tx))).
Proof.
  intros Hfresh Herr Hp. destruct (Run_trace gen tx Herr) as (_ & -> & ->).
  assert (p ∉ map db.Path (observed gen)) as Hn.
  { intros (r & -> & Hr)%list_elem_of_fmap.
    destruct (observed_derived gen r Hr) as (_ & _ & _ & _ & Hu & _). congruence. }
  split; [done|]. intros H. by apply swept_paths in H.
Qed.


(** *** A second pass over an unchanged tree *)

Definition restamp (g : Z) (r : db.FileRow) : db.FileRow :=
  {| db.Path := db.Path r; db.Filename := db.Filename r;
     db.FilenameNorm := db.FilenameNorm r; db.Ext := db.Ext r;
     db.Mtime := db.Mtime r; db.Size := db.Size r;
     db.IsDir := db.IsDir r; db.SeenGen := g |}.

Lemma offered_restamp (g1 g2 : Z) (path name : gostring) (info : option FileInfo) :
  offered g2 path name info = option_map (restamp g2) (offered g1 path name info).
Proof. unfold offered. destruct info as [i|]; [|done]. by destruct (_ || _). Qed.

Lemma trace_restamp (g1 g2 : Z) (d : Node) (path name : gostring) :
  trace g2 path name d = map (restamp g2) (trace g1 path name d).
Proof.
  revert path name. induction d as [info|e es IH] using Node_tree_ind;
    intros path name; cbn [trace].
  - rewrite (offered_restamp g1 g2). by destruct (offered g1 path name info).
  - destruct (pruned path name); [done|].
    induction IH as [|[n d] es Hd _ IHes]; [done|].
    cbn [flat_map fst snd]. rewrite map_app, <- IHes. f_equal. apply Hd.
Qed.

Lemma observed_restamp (g1 g2 : Z) :
  observed g2 = map (restamp g2) (observed g1).
Proof.
  unfold observed. induction (Roots ix) as [|root roots IH]; [done|].
  cbn [flat_map]. rewrite map_app, <- IH. f_equal. unfold root_trace.
  destruct (stat w (resolved w root)); [apply trace_restamp|done].
Qed.

Lemma latest_restamp (g : Z) (l : list db.FileRow) (p : gostring) :
  latest (map (restamp g) l) p = option_map (restamp g) (latest l p).
Proof.
  induction l as [|x l IH]; [done|]. cbn [map latest]. rewrite IH.
  destruct (latest l p); [done|]. cbn [option_map restamp db.Path].
  by destruct (decide (db.Path x = p)).
Qed.

Lemma upsert_existing (x : db.FileRow) (rs : list db.FileRow) :
  db.Path x ∈ map db.Path rs ->
  upsert x rs = map (fun r => if decide (db.Path r = db.Path x) then x else r) rs.
Proof.
  intros (r & Hp & Hr)%list_elem_of_fmap. unfold upsert.
  destruct (existsb _ rs) eqn:E; [done|].
  assert (existsb (fun r => bool_decide (db.Path r = db.Path x)) rs = true) as E'.
  { apply existsb_exists. exists r. split; [by apply list_elem_of_In|].
    by apply bool_decide_eq_true. }
  congruence.
Qed.

(** Upserts for paths that all have their row replace rows in place. *)
Lemma upserts_existing (l rs : list db.FileRow) :
  (forall r, r ∈ l -> db.Path r ∈ map db.Path rs) ->
  upserts rs l = map (fun r => default r (latest l (db.Path r))) rs.
Proof.
  revert rs. induction l as [|x l IH]; intros rs Hl.
  - cbn [upserts foldl latest default]. by rewrite map_id.
  - cbn [upserts foldl]. fold (upserts (upsert x rs) l).
    rewrite upsert_existing by (apply Hl; by left).
    assert (map db.Path
              (map (fun r => if decide (db.Path r = db.Path x) then x else r) rs)
            = map db.Path rs) as Hpaths.
    { rewrite map_map. apply map_ext. intros r. by destruct (decide _). }
    rewrite IH.
    + rewrite map_map. apply map_ext. intros r. cbn [latest].
      destruct (decide (db.Path r = db.Path x)) as [Hx|Hx].
      * rewrite <- Hx. destruct (latest l (db.Path r)); [done|].
        by rewrite decide_True.
      * destruct (latest l (db.Path r)); [done|]. by rewrite decide_False.
    + intros r Hr. rewrite Hpaths. apply Hl. by right.
Qed.

Lemma Run_err (gen : Z) (tx : list db.FileRow) :
  err (Run gen tx)
  = if (length (Roots ix) =? 0)%nat then Some db.ErrNoRoots
    else if db.prepare_fails flt || db.sweep_fails flt then Some db.ErrStore
    else None.
Proof.
  unfold indexer.Run. destruct (length (Roots ix) =? 0)%nat; [done|].
  destruct (db.prepare_fails flt); [done|]. destruct (foldl _ _ _) as [st log].
  by destruct (db.sweep_fails flt).
Qed.

(** X20. A pass over a tree that did not change since the last pass changes
    nothing but the stamps: when a pass with a generation new to the table
    commits, a second pass over the same file system, with any generation,
    commits too, upserts the same paths in the same order, returns the same
    count, and leaves the rows of the first pass, in their order, each with
    the generation of the second. *)
Theorem Run_again_restamps (g1 g2 : Z) (tx : list db.FileRow) :
  (forall r, r ∈ tx -> db.SeenGen r <> g1) ->
  err (Run g1 tx) = None ->
  err (Run g2 (tx_rows (Run g1 tx))) = None
  /\ tx_rows (Run g2 (tx_rows (Run g1 tx))) = map (restamp g2) (tx_rows (Run g1 tx))
  /\ seen (Run g2 (tx_rows (Run g1 tx))) = seen (Run g1 tx)
  /\ count (Run g2 (tx_rows (Run g1 tx))) = count (Run g1 tx).
Proof.
  intros Hfresh Herr.
  assert (err (Run g2 (tx_rows (Run g1 tx))) = None) as Herr2.
  { rewrite Run_err in *. done. }
  split; [done|].
  destruct (Run_trace g2 _ Herr2) as (-> & -> & ->).
  destruct (Run_trace g1 tx Herr) as (-> & -> & ->).
  rewrite (observed_restamp g1 g2), !length_map, map_map.
  split_and!; [|done|done].
  set (R1 := sweep g1 (upserts tx (observed g1))).
  rewrite upserts_existing.
  - assert (map (fun r => default r (latest (map (restamp g2) (observed g1)) (db.Path r))) R1
            = map (restamp g2) R1) as ->.
    { apply map_ext_in. intros r Hr%list_elem_of_In.
      apply swept_latest in Hr; [|done]. by rewrite latest_restamp, Hr. }
    unfold sweep. apply filter_all_id.
    apply Forall_forall. by intros r (r' & -> & _)%list_elem_of_fmap.
  - intros r (r' & -> & Hr')%list_elem_of_fmap. cbn [restamp db.Path].
    apply swept_paths; [done|]. by apply list_elem_of_fmap_2.
Qed.


(** *** The files a pass does reach *)

(** A directory name the walk goes through wherever it stands. *)
Definition passable (a : gostring) : Prop :=
  (a ∉ IgnoreDirs ix)
  /\ (IncludeHidden ix = false -> gostrings.HasPrefix a (str ".") = false).

(** A file [walkFn] takes. *)
Definition taken (path name : gostring) (i : FileInfo) : Prop :=
  (IncludeHidden ix = false -> gostrings.HasPrefix name (str ".") = false)
  /\ (OnlyExtensions ix = ∅ \/ util.ExtLower lower_table name ∈ OnlyExtensions ix)
  /\ (IsSymlink i = true -> FollowSymlinks ix = true)
  /\ db.upsert_fails flt path = false.

Lemma offered_taken (gen : Z) (path name : gostring) (i : FileInfo) :
  taken path name i ->
  exists r, offered gen path name (Some i) = Some r /\ db.Path r = path.
Proof.
  intros (Hh & He & Hl & Hu). unfold offered.
  assert (negb (IncludeHidden ix) && gostrings.HasPrefix name (str ".") = false) as ->.
  { destruct (IncludeHidden ix); [done|]. by rewrite Hh. }
  assert ((0 <? size (OnlyExtensions ix))%nat
          && negb (bool_decide (util.ExtLower lower_table name ∈ OnlyExtensions ix))
          = false) as ->.
  { destruct He as [->|He]; [by rewrite size_empty|].
    rewrite bool_decide_eq_true_2 by done. apply andb_false_r. }
  assert (IsSymlink i && negb (FollowSymlinks ix) = false) as ->.
  { destruct (IsSymlink i); [|done]. by rewrite Hl. }
  rewrite Hu. cbn [orb]. by eexists.
Qed.

Lemma trace_reaches (gen : Z) (d : Node) (path name : gostring)
    (anc : list gostring) (p n : gostring) (i : FileInfo) :
  (anc, p, n, Some i) ∈ files_of path name d ->
  Forall passable anc -> taken p n i ->
  p ∈ map db.Path (trace gen path name d).
Proof.
  revert path name anc. induction d as [info|e es IH] using Node_tree_ind;
    intros path name anc; cbn [files_of trace].
  - intros H _ Ht. apply list_elem_of_singleton in H.
    injection H as -> -> -> <-.
    destruct (offered_taken gen path name i Ht) as (r & -> & <-). cbn.
    apply list_elem_of_here.
  - intros (f & [= -> -> -> Hi] & Hf)%list_elem_of_fmap Hanc Ht.
    apply Forall_cons in Hanc as [[Hig Hhid] Hanc].
    assert (pruned path name = false) as ->.
    { unfold pruned. rewrite bool_decide_eq_false_2 by done. cbn [orb].
      destruct (IncludeHidden ix); [done|]. by rewrite Hhid. }
    apply list_elem_of_In, in_flat_map in Hf as ([n' d'] & Hin & Hf).
    apply list_elem_of_In in Hin, Hf. rewrite Forall_forall in IH.
    specialize (IH _ Hin (Join path n') n' f.1.1.1). cbn [fst snd] in IH, Hf.
    destruct f as [[[anc' p'] n''] info']. cbn [fst snd] in *. subst info'.
    specialize (IH Hf Hanc Ht).
    apply list_elem_of_fmap in IH as (r & -> & Hr). apply list_elem_of_fmap_2.
    apply list_elem_of_In, in_flat_map. exists (n', d').
    split; by apply list_elem_of_In.
Qed.

(** X21. A pass that commits, with a generation new to the table, leaves
    a row for every file it should: a non-directory entry of the tree under
    a root whose [Info] can be read, that is no symbolic link unless links
    are followed, whose name is not hidden unless hidden files are included
    and has an extension of the filter when there is one, whose upsert does
    not fail, and that lies below directories none of which is ignored or,
    unless hidden files are included, hidden. *)
Theorem Run_indexes_file (gen : Z) (tx : list db.FileRow) (root : gostring)
    (d : Node) (anc : list gostring) (p n : gostring) (i : FileInfo) :
  (forall r, r ∈ tx -> db.SeenGen r <> gen) ->
  err (Run gen tx) = None ->
  root ∈ Roots ix ->
  stat w (resolved w root) = Some d ->
  (anc, p, n, Some i) ∈ files_of (resolved w root) (basename (resolved w root)) d ->
  Forall passable anc ->
  taken p n i ->
  p ∈ seen (Run gen tx) /\ p ∈ map db.Path (tx_rows (Run gen tx)).
Proof.
  intros Hfresh Herr Hroot Hstat Hf Hanc Ht.
  destruct (Run_trace gen tx Herr) as (_ & -> & ->).
  assert (p ∈ map db.Path (observed gen)) as Hp.
  { pose proof (trace_reaches gen d _ _ anc p n i Hf Hanc Ht) as H.
    apply list_elem_of_fmap in H as (r & -> & Hr). apply list_elem_of_fmap_2.
    unfold observed. apply list_elem_of_In, in_flat_map. exists root.
    split; [by apply list_elem_of_In|]. unfold root_trace. rewrite Hstat.
    by apply list_elem_of_In. }
  split; [done|]. by apply swept_paths.
Qed.


End Trace.


(** *** The model run on file systems *)

Lemma Run_count_witness :
  let out := indexer.Run ascii_only_table with_old
               (options ["/r"; "/r"]%string false) db.no_faults 7 [] in
  count out = Z.of_nat (length (seen out))
  /\ Z.of_nat (length (tx_rows out)) <= count out
  /\ (NoDup (seen out) -> Z.of_nat (length (tx_rows out)) = count out).
Proof.
  apply (Run_count ascii_only_table with_old (options ["/r"; "/r"]%string false)
           db.no_faults 7 []).
  - intros r Hr. by apply elem_of_nil in Hr.
  - constructor.
  - reflexivity.
  - vm_compute. reflexivity.
Defined.

Lemma failed_upsert_drops_row_witness :
  let out := indexer.Run ascii_only_table with_old (options ["/r"]%string false)
               refuses_old 8 (tx_rows first_pass) in
  (str "/r/old.txt" ∉ seen out) /\ (str "/r/old.txt" ∉ map db.Path (tx_rows out)).
Proof.
  apply (failed_upsert_drops_row ascii_only_table with_old
           (options ["/r"]%string false) refuses_old 8 (tx_rows first_pass)
           (str "/r/old.txt")).
  - intros r Hr. apply list_elem_of_In in Hr. vm_compute in Hr.
    destruct Hr as [<-|[]]. vm_compute. discriminate.
  - reflexivity.
  - reflexivity.
Defined.

Lemma Run_again_restamps_witness :
  let first := indexer.Run ascii_only_table with_old (options ["/r"]%string false)
                 db.no_faults 7 [] in
  let second := indexer.Run ascii_only_table with_old (options ["/r"]%string false)
                  db.no_faults 8 (tx_rows first) in
  err second = None
  /\ tx_rows second = map (restamp 8) (tx_rows first)
  /\ seen second = seen first
  /\ count second = count first.
Proof.
  apply (Run_again_restamps ascii_only_table with_old (options ["/r"]%string false)
           db.no_faults 7 8 []).
  - intros r Hr. by apply elem_of_nil in Hr.
  - reflexivity.
Defined.


Lemma Run_indexes_file_witness :
  (str "/r/old.txt" ∈ seen first_pass)
  /\ str "/r/old.txt" ∈ map db.Path (tx_rows first_pass).
Proof.
  apply (Run_indexes_file ascii_only_table with_old (options ["/r"]%string false)
           db.no_faults 7 [] (str "/r")
           (Dir false [(str "old.txt", regular 10)]) [str "r"]
           (str "/r/old.txt") (str "old.txt")
           {| ModTime := 10; FSize := 1; IsSymlink := false |}).
  - intros r Hr. by apply elem_of_nil in Hr.
  - reflexivity.
  - apply list_elem_of_here.
  - reflexivity.
  - vm_compute. apply list_elem_of_here.
  - constructor; [|constructor]. split; [|reflexivity].
    vm_compute. intros H.
    repeat (apply elem_of_cons in H as [H|H]; [discriminate|]).
    by apply elem_of_nil in H.
  - split_and!; [reflexivity|by left|discriminate|reflexivity].
Defined.


End indexer_props.

(** ** Searching what a pass indexed *)

Module pipeline.
Import utf8 search indexer samples search_facts indexer_facts indexer_props.

Section Pipeline.

Variable lower_table : rune -> rune.
Variable Log1p : Q -> Q.
Variable w : World.
Variable ix : Options.
Variable flt : db.Faults.

(** X22. After a pass that commits, with a generation new to the table,
    everything [Search] returns is a file the pass saw: the result has the
    path, name, extension, time and size of a row the pass derived from a
    file of the tree under a root, and the [filename_norm] that the [LIKE]
    patterns were matched against is the normalization of the name that the
    ranking normalizes again.  A file gone from the tree is not found. *)
Theorem Search_after_Run (gen : Z) (tx : list db.FileRow) (conn : db.Faults)
    (now : Z) (q : gostring) (opts : QueryOptions) :
  (forall r, r ∈ tx -> db.SeenGen r <> gen) ->
  err (Run lower_table w ix flt gen tx) = None ->
  Forall (fun r =>
            Path r ∈ seen (Run lower_table w ix flt gen tx)
            /\ exists row,
                 from_roots lower_table w ix flt gen row
                 /\ db.FilenameNorm row = util.Normalize lower_table (Filename r)
                 /\ Path r = db.Path row /\ Filename r = db.Filename row
                 /\ Ext r = db.Ext row /\ Mtime r = db.Mtime row
                 /\ Size r = db.Size row)
         (Search lower_table Log1p
            {| db.files := tx_rows (Run lower_table w ix flt gen tx);
               db.faults := conn |} now q opts).1.
Proof.
  intros Hfresh Herr. apply Forall_forall. intros r Hr.
  apply Search_result_row in Hr as (rows & row & Hc & Hrow & ->).
  destruct (candidates_rows _ _ _ _ _ _ Hc Hrow) as (Hin & _ & _).
  cbn [db.files] in Hin.
  destruct (Run_trace lower_table w ix flt gen tx Herr) as (_ & Hrows & Hseen).
  rewrite Hrows in Hin. rewrite Hseen.
  apply swept_latest in Hin; [|done]. apply latest_Some in Hin as [Hin _].
  split.
  { change (db.Path row ∈ map db.Path (observed lower_table w ix flt gen)).
    by apply list_elem_of_fmap_2. }
  pose proof (observed_from_roots lower_table w ix flt gen) as Hall.
  rewrite Forall_forall in Hall. specialize (Hall row Hin).
  exists row. split; [done|].
  destruct Hall as (_ & _ & _ & _ & (Hn & _) & _). by split_and!.
Qed.

End Pipeline.

Lemma Search_after_Run_witness :
  Forall (fun r =>
            Path r ∈ seen first_pass
            /\ exists row,
                 from_roots ascii_only_table with_old (options ["/r"]%string false)
                   db.no_faults 7 row
                 /\ db.FilenameNorm row = util.Normalize ascii_only_table (Filename r)
                 /\ Path r = db.Path row /\ Filename r = db.Filename row
                 /\ Ext r = db.Ext row /\ Mtime r = db.Mtime row
                 /\ Size r = db.Size row)
         (Search ascii_only_table log1p_upper
            {| db.files := tx_rows first_pass; db.faults := db.no_faults |}
            100 (str "old") DefaultQueryOptions).1.
Proof.
  apply (Search_after_Run ascii_only_table log1p_upper with_old
           (options ["/r"]%string false) db.no_faults 7 [] db.no_faults 100
           (str "old") DefaultQueryOptions).
  - intros r Hr. by apply elem_of_nil in Hr.
  - reflexivity.
Defined.

End pipeline.

(** ** The tokens of a normalized name *)

Module word_facts.
Import utf8 gostrings util utf8_facts normalize_facts strings_facts util_facts.

(** The words of a list of runes: what stands between the spaces. *)
Fixpoint words (rs : list rune) : list (list rune) :=
  match rs with
  | [] => [[]]
  | r :: t =>
    if r =? 32 then [] :: words t
    else match words t with
         | p :: ps => (r :: p) :: ps
         | [] => [[r]]
         end
  end.

(** A space byte in the encoding of a rune is the rune U+0020. *)
Lemma space_in_EncodeRune (r : rune) :
  valid r -> space ∈ EncodeRune r -> r = 32.
Proof.
  intros Hr (a & b & Hab)%list_elem_of_split.
  assert (decode (EncodeRune r) = [r]) as Hd.
  { rewrite <- (app_nil_r (EncodeRune r)). apply (decode_encode [r]).
    by constructor. }
  rewrite Hab, utf8_sync.decode_app_ascii in Hd by (vm_compute; reflexivity).
  destruct (decode a); [|by destruct l]. by injection Hd as <-.
Qed.

Lemma Split_app_word (a s : gostring) :
  space ∉ a ->
  Split (a ++ s)
  = match Split s with
    | p :: ps => (a ++ p) :: ps
    | [] => [a]
    end.
Proof.
  induction a as [|c a IH]; intros Ha; cbn [app Split].
  - by destruct (Split_head s) as (q & qs & _ & -> & _).
  - destruct (Ascii.eqb_spec c space) as [->|_]; [destruct Ha; by left|].
    rewrite IH by (intros ?; apply Ha; by right).
    by destruct (Split s).
Qed.

Lemma Split_encode (rs : list rune) :
  Forall valid rs -> Split (encode rs) = map encode (words rs).
Proof.
  induction 1 as [|r rs Hr _ IH]; [done|].
  unfold encode in *. cbn [flat_map words].
  destruct (Z.eqb_spec r 32) as [->|Hne].
  - change (EncodeRune 32) with [space]. cbn [app Split].
    change (Ascii.eqb space space) with true. cbn match. by rewrite IH.
  - rewrite Split_app_word by (intros H; by apply space_in_EncodeRune in H).
    rewrite IH. destruct (words rs); [cbn; by rewrite app_nil_r|]. by cbn [map flat_map].
Qed.

Lemma drop_while_none {A} (p : A -> bool) (l : list A) :
  Forall (fun x => p x = false) l -> drop_while p l = l.
Proof. destruct 1 as [|x l Hx _]; [done|]. cbn. by rewrite Hx. Qed.

Lemma trim_r_word (word : list rune) :
  Forall (fun x => unicode.IsSpace x = false) word -> trim_r word = word.
Proof.
  intros H. unfold trim_r. rewrite (drop_while_none _ word H).
  rewrite drop_while_none; [apply rev_involutive|].
  apply Forall_forall. intros x Hx. rewrite Forall_forall in H. apply H.
  apply list_elem_of_In, in_rev. by apply list_elem_of_In.
Qed.

Section Words.

Variable lower_table : rune -> rune.

Hypothesis lower_valid :
  forall r, 127 < r -> valid r -> valid (lower_table r).
Hypothesis lower_idem :
  forall r, 127 < r -> valid r ->
    unicode.ToLower lower_table (lower_table r) = lower_table r.

#[local] Abbreviation good := (normalize_facts.good lower_table).
#[local] Abbreviation clean := (normalize_facts.clean lower_table).
#[local] Abbreviation Normalize := (util.Normalize lower_table).

(** A word of a normalized name: runes that are in lower case and neither
    white space nor separators, at least one. *)
Definition word (rs : list rune) : Prop := rs <> [] /\ Forall clean rs.

Lemma good_words (b : bool) (t : list rune) :
  good b t ->
  exists first rest,
    words t = first :: rest
    /\ (b = false -> first <> []) /\ Forall clean first /\ Forall word rest.
Proof.
  revert b. induction t as [|x t IH]; intros b H; cbn [normalize_facts.good words] in *.
  - exists [], []. split_and!; try done. intros ->. done.
  - destruct (Z.eqb_spec x 32) as [->|Hx].
    + destruct H as [-> H]. destruct (IH false H) as (f & r & -> & Hf & Hc & Hr).
      exists [], (f :: r). split_and!; try done. constructor; [|done].
      split; [by apply Hf|done].
    + destruct H as [Hc H]. destruct (IH true H) as (f & r & -> & _ & Hf & Hr).
      exists (x :: f), r. split_and!; try done. by constructor.
Qed.

Lemma TrimSpace_word (rs : list rune) :
  Forall clean rs -> TrimSpace (encode rs) = encode rs.
Proof.
  intros H. rewrite TrimSpace_encode.
  - rewrite trim_r_word; [done|]. eapply Forall_impl; [exact H|].
    by intros x (_ & ? & _).
  - eapply Forall_impl; [exact H|]. by intros x (_ & _ & _ & ?).
Qed.

Lemma encode_word_nonempty (rs : list rune) : rs <> [] -> encode rs <> [].
Proof.
  destruct rs as [|r rs]; [done|]. intros _. unfold encode. cbn [flat_map].
  pose proof (EncodeRune_length r). destruct (EncodeRune r); [cbn in *; lia|done].
Qed.

(** X23. The tokens of a normalized name are its words without the stop
    words: splitting at the spaces leaves no empty part and nothing to trim,
    so that [Tokenize (Normalize s)] is the parts of [Normalize s] that are
    no stop word, each the UTF-8 encoding of one or more runes in lower case
    that are neither white space nor [_], [-] or [.]. *)
Theorem Tokenize_Normalize (s : gostring) :
  Tokenize (Normalize s)
  = (if decide (Normalize s = []) then []
     else filter (fun p => p ∉ stopwords) (Split (Normalize s)))
  /\ Forall (fun t => exists rs, t = encode rs /\ word rs) (Tokenize (Normalize s)).
Proof.
  rewrite Tokenize_filter, (Normalize_runes lower_table lower_valid).
  set (rs := NR lower_table (decode s)).
  assert (Hv : Forall valid rs) by apply (NR_valid lower_table lower_valid), decode_valid.
  rewrite (Split_encode rs Hv).
  destruct (NR_normal lower_table lower_valid lower_idem (decode s) (decode_valid s))
    as [E|Hg]; fold rs in E || fold rs in Hg.
  { rewrite E. split; [done|].
    match goal with
    | |- Forall _ ?l => assert (l = []) as -> by (vm_compute; reflexivity)
    end.
    constructor. }
  destruct (good_words false rs Hg) as (f & r & -> & Hf & Hc & Hr).
  assert (Forall word (f :: r)) as Hall.
  { constructor; [|done]. split; [by apply Hf|done]. }
  assert (encode rs <> []) as Hne.
  { apply encode_word_nonempty. intros E. rewrite E in Hg. done. }
  assert (filter kept (map TrimSpace (map encode (f :: r)))
          = filter (fun p => p ∉ stopwords) (map encode (f :: r))) as ->.
  { clear -Hall. induction Hall as [|x l [Hx Hcx] _ IH]; [done|].
    cbn [map]. rewrite !filter_cons, IH, (TrimSpace_word x Hcx).
    destruct (decide (encode x ∉ stopwords)) as [Hs|Hs].
    - rewrite decide_True; [done|]. split; [by apply encode_word_nonempty|done].
    - rewrite decide_False; [done|]. by intros [_ ?]. }
  split; [by rewrite decide_False|].
  apply Forall_forall. intros t (_ & Ht)%list_elem_of_filter.
  apply list_elem_of_fmap in Ht as (x & -> & Hx). exists x. split; [done|].
  rewrite Forall_forall in Hall. by apply Hall.
Qed.

End Words.

Lemma Tokenize_Normalize_witness :
  Tokenize (util.Normalize samples.ascii_only_table (str "The_Tax-Report of.2023"))
  = (if decide (util.Normalize samples.ascii_only_table (str "The_Tax-Report of.2023") = [])
     then []
     else filter (fun p => p ∉ stopwords)
            (Split (util.Normalize samples.ascii_only_table
                      (str "The_Tax-Report of.2023"))))
  /\ Forall (fun t => exists rs, t = encode rs /\ word samples.ascii_only_table rs)
            (Tokenize (util.Normalize samples.ascii_only_table
                         (str "The_Tax-Report of.2023"))).
Proof.
  apply (Tokenize_Normalize samples.ascii_only_table).
  - intros r _ Hr. exact Hr.
  - intros r Hr _. unfold unicode.ToLower, samples.ascii_only_table.
    destruct (Z.leb_spec r 127); [lia|reflexivity].
Defined.

End word_facts.
